(** * sud0ku: the puzzle engine of src/main.js

    A shallow embedding of the grid engine of the game (legality check,
    randomized backtracking generator, puzzle derivation, move checking,
    erase and reset) and the properties of its specification. *)

From Stdlib Require Import ZArith Lia.
From stdpp Require Import base numbers option list strings sorting gmap.

(** ** Outcomes of a call

    A JavaScript call either completes with a value or throws; indexing
    [undefined] (a missing row of a grid) is the one throw the engine can
    run into.  Loops and recursion are run with a fuel budget. *)

Inductive res (A : Type) : Type :=
  | Ret (a : A)
  | Throw
  | OutOfFuel.
Arguments Ret {A} a.
Arguments Throw {A}.
Arguments OutOfFuel {A}.

Definition bind {A B : Type} (m : res A) (f : A → res B) : res B :=
  match m with
  | Ret a => f a
  | Throw => Throw
  | OutOfFuel => OutOfFuel
  end.

Notation "'let!' x ':=' m 'in' k" := (bind m (λ x, k))
  (at level 10, x pattern, m at level 100, k at level 200,
   format "'[' 'let!'  x  ':='  m  'in' ']' '/' k").

(** ** Grids

    A grid is an array of row arrays of numbers.  Indices are the loop
    counters of the source, natural numbers. *)

Abbreviation grid := (list (list Z)).

(** [board[row][col]]: throws when [board[row]] is undefined, yields
    [undefined] ([None]) when the row has no such cell. *)
Definition read (board : grid) (row col : nat) : res (option Z) :=
  match board !! row with
  | None => Throw
  | Some cells => Ret (cells !! col)
  end.

(** [board[row][col] = num]: throws when [board[row]] is undefined.  A
    write beyond the end of a row would grow the row in JavaScript; the
    model leaves the row as it is there. *)
Definition write (board : grid) (row col : nat) (num : Z) : res grid :=
  match board !! row with
  | None => Throw
  | Some cells => Ret (<[row := <[col := num]> cells]> board)
  end.

(** [Array(9).fill(null).map(() => Array(9).fill(0))]: nine row arrays
    of their own.  The board of [generateValidSudoku] is local to one call
    and nothing else refers to its rows, so it is kept as a value. *)
Definition empty_board : grid := replicate 9 (replicate 9 0%Z).

(** ** The random source

    The [k]-th call of [Math.random()] is the number [rand k];
    [Math.floor(Math.random() * n)] is any index below [n]. *)

Definition random_below (rand : nat → nat) (k n : nat) : nat := rand k `mod` n.

(** ** generateValidSudoku: isValid *)

Definition row_cells (row : nat) : list (nat * nat) :=
  (λ i, (row, i)) <$> seq 0 9.

Definition col_cells (col : nat) : list (nat * nat) :=
  (λ i, (i, col)) <$> seq 0 9.

Definition box_cells (row col : nat) : list (nat * nat) :=
  let boxRow := row / 3 * 3 in
  let boxCol := col / 3 * 3 in
  i ← seq boxRow 3; (λ j, (i, j)) <$> seq boxCol 3.

(** One of the three loops of [isValid]: the cells are read in order and
    the first one that holds [num] ends the check with [false]. *)
Fixpoint scan (board : grid) (num : Z) (cells : list (nat * nat)) : res bool :=
  match cells with
  | [] => Ret true
  | (i, j) :: rest =>
      let! v := read board i j in
      if decide (v = Some num) then Ret false else scan board num rest
  end.

Definition isValid (board : grid) (row col : nat) (num : Z) : res bool :=
  let! ok := scan board num (row_cells row) in
  if negb ok then Ret false else
  let! ok := scan board num (col_cells col) in
  if negb ok then Ret false else
  scan board num (box_cells row col).

(** ** generateValidSudoku: solve *)

(** [[nums[i], nums[j]] = [nums[j], nums[i]]] *)
Definition swap (nums : list Z) (i j : nat) : list Z :=
  match nums !! i, nums !! j with
  | Some x, Some y => <[j := x]> (<[i := y]> nums)
  | _, _ => nums
  end.

(** [for (let i = nums.length - 1; i > 0; i--)], entered with [i]. *)
Fixpoint shuffle_from (rand : nat → nat) (i : nat) (nums : list Z) (k : nat)
  : list Z * nat :=
  match i with
  | 0 => (nums, k)
  | S i' =>
      let j := random_below rand k (i + 1) in
      shuffle_from rand i' (swap nums i j) (S k)
  end.

Definition shuffle (rand : nat → nat) (k : nat) : list Z * nat :=
  let nums := [1; 2; 3; 4; 5; 6; 7; 8; 9]%Z in
  shuffle_from rand (length nums - 1) nums k.

(** The cells in the order of the two nested loops of [solve]. *)
Definition all_cells : list (nat * nat) :=
  row ← seq 0 9; (λ col, (row, col)) <$> seq 0 9.

(** The first cell with [board[row][col] === 0], if any. *)
Fixpoint first_empty (board : grid) (cells : list (nat * nat))
  : res (option (nat * nat)) :=
  match cells with
  | [] => Ret None
  | (row, col) :: rest =>
      let! v := read board row col in
      if decide (v = Some 0%Z) then Ret (Some (row, col))
      else first_empty board rest
  end.

(** [for (let num of nums)] at the empty cell [(row, col)]; [rec] is the
    recursive call [solve()].  The state is the board and the number of
    random draws made so far. *)
Fixpoint try_nums (rec : grid → nat → res (bool * grid * nat))
    (row col : nat) (nums : list Z) (board : grid) (k : nat)
  : res (bool * grid * nat) :=
  match nums with
  | [] => Ret (false, board, k)
  | num :: rest =>
      let! ok := isValid board row col num in
      if ok then
        let! b1 := write board row col num in
        let! (found, b2, k2) := rec b1 k in
        if found then Ret (true, b2, k2)
        else
          let! b3 := write b2 row col 0%Z in
          try_nums rec row col rest b3 k2
      else try_nums rec row col rest board k
  end.

Fixpoint solve (fuel : nat) (rand : nat → nat) (board : grid) (k : nat)
  : res (bool * grid * nat) :=
  match fuel with
  | 0 => OutOfFuel
  | S fuel' =>
      let! e := first_empty board all_cells in
      match e with
      | None => Ret (true, board, k)
      | Some (row, col) =>
          let '(nums, k1) := shuffle rand k in
          try_nums (solve fuel' rand) row col nums board k1
      end
  end.

(** [solve(); return board;] *)
Definition generateValidSudoku (fuel : nat) (rand : nat → nat) (k : nat)
  : res (grid * nat) :=
  let! (_, board, k') := solve fuel rand empty_board k in
  Ret (board, k').

(** ** The session: gameState

    The three grids of the session are JavaScript objects: an outer
    array of references to row arrays.  Rows live in a heap, so that two
    grids can share a row; the outer arrays are never written to after
    they are built and are kept as lists of row references.  [draws]
    counts the calls of [Math.random()] so far.  The DOM, the GIF, the
    tooltips and the timer interval are left out. *)

Abbreviation loc := positive.

Record gameState : Type := {
  heap : gmap loc (list Z);
  board : list loc;
  solution : list loc;
  originalBoard : list loc;
  selectedCell : option (nat * nat);
  mistakes : nat;
  score : nat;
  timerSeconds : nat;
  timerStarted : bool;
  notesMode : bool;
  cellNotes : gmap (nat * nat) (list Z);
  errorCells : gset (nat * nat);
  hintsUsed : nat;
  completionShown : bool;
  draws : nat
}.

Definition maxHints : nat := 3.

(** Difficulty levels with number of clues. *)
Definition difficulties : gmap string Z :=
  {[ "easy" := 40%Z; "medium" := 30%Z; "hard" := 20%Z; "expert" := 15%Z;
     "master" := 12%Z; "extreme" := 8%Z ]}.

(** [g[row][col]] for a grid [g] of the session.  A reference always
    has its row in the heap; the second [Throw] is never reached. *)
Definition hread (h : gmap loc (list Z)) (g : list loc) (row col : nat)
  : res (option Z) :=
  match g !! row with
  | None => Throw
  | Some l =>
      match h !! l with
      | None => Throw
      | Some cells => Ret (cells !! col)
      end
  end.

(** [g[row][col] = num] for a grid [g] of the session: the row array is
    updated in place, for every grid that refers to it. *)
Definition hwrite (h : gmap loc (list Z)) (g : list loc) (row col : nat)
    (num : Z) : res (gmap loc (list Z)) :=
  match g !! row with
  | None => Throw
  | Some l =>
      match h !! l with
      | None => Throw
      | Some cells => Ret (<[l := <[col := num]> cells]> h)
      end
  end.

(** The rows a grid refers to. *)
Fixpoint load_rows (h : gmap loc (list Z)) (g : list loc) : res grid :=
  match g with
  | [] => Ret []
  | l :: rest =>
      match h !! l with
      | None => Throw
      | Some cells => let! rows := load_rows h rest in Ret (cells :: rows)
      end
  end.

(** New row arrays with the given contents, and the outer array that
    refers to them. *)
Fixpoint store_rows (h : gmap loc (list Z)) (rows : grid)
  : gmap loc (list Z) * list loc :=
  match rows with
  | [] => (h, [])
  | cells :: rest =>
      let l := fresh (dom h) in
      let '(h', ls) := store_rows (<[l := cells]> h) rest in
      (h', l :: ls)
  end.

(** [g.map(row => [...row])] *)
Definition copy_rows (h : gmap loc (list Z)) (g : list loc)
  : res (gmap loc (list Z) * list loc) :=
  let! rows := load_rows h g in
  Ret (store_rows h rows).

(** ** generatePuzzle *)

(** The removal loop, [while (removed < 81 - clueCount)]. *)
Fixpoint removal_loop (fuel : nat) (rand : nat → nat) (clueCount : Z)
    (h : gmap loc (list Z)) (g : list loc) (removed : Z) (k : nat)
  : res (gmap loc (list Z) * nat) :=
  if decide (removed < 81 - clueCount)%Z then
    match fuel with
    | 0 => OutOfFuel
    | S fuel' =>
        let row := random_below rand k 9 in
        let col := random_below rand (S k) 9 in
        let! v := hread h g row col in
        if decide (v ≠ Some 0%Z) then
          let! h' := hwrite h g row col 0%Z in
          removal_loop fuel' rand clueCount h' g (removed + 1)%Z (S (S k))
        else removal_loop fuel' rand clueCount h g removed (S (S k))
    end
  else Ret (h, k).

(** The second part of [generatePuzzle], from the copy of the solution
    to the snapshot: the puzzle derivation.  [clueCount] is [None] when
    [difficulties[difficulty]] is undefined; [81 - undefined] is NaN and
    the loop condition is false. *)
Definition derivePuzzle (fuel : nat) (rand : nat → nat)
    (clueCount : option Z) (st : gameState) : res gameState :=
  let! (h1, b) := copy_rows (heap st) (solution st) in
  let! (h2, k) :=
    match clueCount with
    | Some c => removal_loop fuel rand c h1 b 0%Z (draws st)
    | None => Ret (h1, draws st)
    end in
  let! (h3, o) := copy_rows h2 b in
  Ret {| heap := h3; board := b; solution := solution st;
         originalBoard := o; selectedCell := selectedCell st;
         mistakes := mistakes st; score := score st;
         timerSeconds := timerSeconds st;
         timerStarted := timerStarted st; notesMode := notesMode st;
         cellNotes := cellNotes st; errorCells := errorCells st;
         hintsUsed := hintsUsed st; completionShown := completionShown st;
         draws := k |}.

Definition generatePuzzle (fuel : nat) (rand : nat → nat)
    (difficulty : string) (st : gameState) : res gameState :=
  let! (rows, k) := generateValidSudoku fuel rand (draws st) in
  let '(h, s) := store_rows (heap st) rows in
  derivePuzzle fuel rand (difficulties !! difficulty)
    {| heap := h; board := board st; solution := s;
       originalBoard := originalBoard st; selectedCell := selectedCell st;
       mistakes := mistakes st; score := score st;
       timerSeconds := timerSeconds st;
       timerStarted := timerStarted st; notesMode := notesMode st;
       cellNotes := cellNotes st; errorCells := errorCells st;
       hintsUsed := hintsUsed st; completionShown := completionShown st;
       draws := k |}.

(** ** The moves of the player *)

(** The loops of [isPuzzleComplete]. *)
Fixpoint all_equal (h : gmap loc (list Z)) (b s : list loc)
    (cells : list (nat * nat)) : res bool :=
  match cells with
  | [] => Ret true
  | (row, col) :: rest =>
      let! x := hread h b row col in
      let! y := hread h s row col in
      if decide (x ≠ y) then Ret false else all_equal h b s rest
  end.

Definition isPuzzleComplete (st : gameState) : res bool :=
  all_equal (heap st) (board st) (solution st) all_cells.

(** The note list of a cell after the note [n] is added or removed. *)
Definition toggle_note (notes : list Z) (n : Z) : list Z :=
  if decide (n ∈ notes) then filter (λ m, m ≠ n) notes
  else merge_sort Z.le (notes ++ [n]).

(** [enterNumber(cell, number)]; [number] is the value of
    [parseInt(number)], the callers pass the digits '1'..'9'. *)
Definition enterNumber (cell : option (nat * nat)) (number : Z)
    (st : gameState) : res gameState :=
  match cell with
  | None => Ret st
  | Some (row, col) =>
      if notesMode st then
        let notes := toggle_note (default [] (cellNotes st !! (row, col)))
                                 number in
        Ret {| heap := heap st; board := board st; solution := solution st;
               originalBoard := originalBoard st;
               selectedCell := selectedCell st;
               mistakes := mistakes st; score := score st;
               timerSeconds := timerSeconds st;
               timerStarted := timerStarted st; notesMode := notesMode st;
               cellNotes :=
                 if decide (0 < length notes)
                 then <[(row, col) := notes]> (cellNotes st)
                 else delete (row, col) (cellNotes st);
               errorCells := errorCells st;
               hintsUsed := hintsUsed st;
               completionShown := completionShown st;
               draws := draws st |}
      else
        let! h := hwrite (heap st) (board st) row col number in
        let! s := hread h (solution st) row col in
        let wrong := bool_decide (Some number ≠ s) in
        let st1 :=
          {| heap := h; board := board st; solution := solution st;
             originalBoard := originalBoard st;
             selectedCell := selectedCell st;
             mistakes := if wrong then S (mistakes st) else mistakes st;
             score := if wrong then score st else score st + 10;
             timerSeconds := timerSeconds st;
             timerStarted := true; notesMode := notesMode st;
             cellNotes := delete (row, col) (cellNotes st);
             errorCells :=
               if wrong then errorCells st ∪ {[(row, col)]}
               else errorCells st ∖ {[(row, col)]};
             hintsUsed := hintsUsed st;
             completionShown := completionShown st;
             draws := draws st |} in
        if wrong && bool_decide (3 < mistakes st1) then Ret st1
        else
          let! complete := isPuzzleComplete st1 in
          Ret {| heap := heap st1; board := board st1;
                 solution := solution st1;
                 originalBoard := originalBoard st1;
                 selectedCell := selectedCell st1;
                 mistakes := mistakes st1; score := score st1;
                 timerSeconds := timerSeconds st1;
                 timerStarted := timerStarted st1;
                 notesMode := notesMode st1;
                 cellNotes := cellNotes st1; errorCells := errorCells st1;
                 hintsUsed := hintsUsed st1;
                 completionShown := completionShown st1 || complete;
                 draws := draws st1 |}
  end.

(** [eraseCell(cell)] *)
Definition eraseCell (cell : option (nat * nat)) (st : gameState)
  : res gameState :=
  match cell with
  | None => Ret st
  | Some (row, col) =>
      let! s := hread (heap st) (solution st) row col in
      let! b := hread (heap st) (board st) row col in
      if decide (s ≠ b) then
        let! h := hwrite (heap st) (board st) row col 0%Z in
        Ret {| heap := h; board := board st; solution := solution st;
               originalBoard := originalBoard st;
               selectedCell := selectedCell st;
               mistakes := mistakes st; score := score st;
               timerSeconds := timerSeconds st;
               timerStarted := timerStarted st; notesMode := notesMode st;
               cellNotes := cellNotes st; errorCells := errorCells st;
               hintsUsed := hintsUsed st;
               completionShown := completionShown st;
               draws := draws st |}
      else Ret st
  end.

(** [resetProgress()] *)
Definition resetProgress (st : gameState) : res gameState :=
  let! (h, b) := copy_rows (heap st) (originalBoard st) in
  Ret {| heap := h; board := b; solution := solution st;
         originalBoard := originalBoard st;
         selectedCell := selectedCell st;
         mistakes := 0; score := 0; timerSeconds := 0;
         timerStarted := timerStarted st; notesMode := notesMode st;
         cellNotes := ∅; errorCells := ∅;
         hintsUsed := hintsUsed st;
         completionShown := completionShown st;
         draws := draws st |}.

(** The cells with [board[row][col] === 0], in the order of the loops of
    [giveHint]. *)
Fixpoint empty_cells (h : gmap loc (list Z)) (b : list loc)
    (cells : list (nat * nat)) : res (list (nat * nat)) :=
  match cells with
  | [] => Ret []
  | (row, col) :: rest =>
      let! v := hread h b row col in
      let! found := empty_cells h b rest in
      Ret (if decide (v = Some 0%Z) then (row, col) :: found else found)
  end.

(** [giveHint()].  A row of the model cannot hold [undefined]: copying an
    undefined solution value counts as a throw. *)
Definition giveHint (rand : nat → nat) (st : gameState) : res gameState :=
  if decide (maxHints ≤ hintsUsed st) then Ret st
  else
    let! emptyCells := empty_cells (heap st) (board st) all_cells in
    match emptyCells with
    | [] => Ret st
    | _ =>
        match emptyCells !! random_below rand (draws st) (length emptyCells) with
        | None => Throw
        | Some (row, col) =>
            let! v := hread (heap st) (solution st) row col in
            match v with
            | None => Throw
            | Some num =>
                let! h := hwrite (heap st) (board st) row col num in
                Ret {| heap := h; board := board st;
                       solution := solution st;
                       originalBoard := originalBoard st;
                       selectedCell := selectedCell st;
                       mistakes := mistakes st; score := score st + 5;
                       timerSeconds := timerSeconds st;
                       timerStarted := timerStarted st;
                       notesMode := notesMode st;
                       cellNotes := cellNotes st;
                       errorCells := errorCells st;
                       hintsUsed := S (hintsUsed st);
                       completionShown := completionShown st;
                       draws := S (draws st) |}
            end
        end
    end.

(** [selectCell(row, col)]: a cell whose board value is non-zero and
    equal to the solution is taken for a given cell and is not selected. *)
Definition selectCell (row col : nat) (st : gameState) : res gameState :=
  let! s := hread (heap st) (solution st) row col in
  let! b := hread (heap st) (board st) row col in
  let isGivenCell := bool_decide (s = b) && bool_decide (b ≠ Some 0%Z) in
  if isGivenCell then Ret st
  else
    Ret {| heap := heap st; board := board st; solution := solution st;
           originalBoard := originalBoard st;
           selectedCell := Some (row, col);
           mistakes := mistakes st; score := score st;
           timerSeconds := timerSeconds st;
           timerStarted := timerStarted st; notesMode := notesMode st;
           cellNotes := cellNotes st; errorCells := errorCells st;
           hintsUsed := hintsUsed st;
           completionShown := completionShown st;
           draws := draws st |}.

(** [toggleNoteMode()] *)
Definition toggleNoteMode (st : gameState) : gameState :=
  {| heap := heap st; board := board st; solution := solution st;
     originalBoard := originalBoard st;
     selectedCell := if negb (notesMode st) then None else selectedCell st;
     mistakes := mistakes st; score := score st;
     timerSeconds := timerSeconds st;
     timerStarted := timerStarted st; notesMode := negb (notesMode st);
     cellNotes := cellNotes st; errorCells := errorCells st;
     hintsUsed := hintsUsed st;
     completionShown := completionShown st;
     draws := draws st |}.

(** The operations of a game in progress.  The handlers of
    [initializeGame], [setupToolButtons] and [setupKeyboardInput] call
    them on the selected cell; here they may be called on any cell.  A
    new game ([startNewGame]) replaces the three grids and is not one of
    them. *)
Inductive action : Type :=
  | SelectCell (row col : nat)
  | EnterNumber (row col : nat) (number : Z)
  | EraseCell (row col : nat)
  | GiveHint
  | ToggleNoteMode
  | ResetProgress.

Definition step (rand : nat → nat) (a : action) (st : gameState)
  : res gameState :=
  match a with
  | SelectCell row col => selectCell row col st
  | EnterNumber row col number => enterNumber (Some (row, col)) number st
  | EraseCell row col => eraseCell (Some (row, col)) st
  | GiveHint => giveHint rand st
  | ToggleNoteMode => Ret (toggleNoteMode st)
  | ResetProgress => resetProgress st
  end.

Fixpoint run (rand : nat → nat) (actions : list action) (st : gameState)
  : res gameState :=
  match actions with
  | [] => Ret st
  | a :: rest => let! st' := step rand a st in run rand rest st'
  end.

(** ** Notions of the specification *)

(** The value of a cell, [None] outside the grid. *)
Definition cell (g : grid) (p : nat * nat) : option Z :=
  match g !! p.1 with
  | None => None
  | Some cells => cells !! p.2
  end.

(** A 9x9 table. *)
Definition wf_grid (g : grid) : Prop :=
  length g = 9 ∧ Forall (λ cells : list Z, length cells = 9) g.

(** [(r', c')] is in the row, the column or the 3x3 box of [(r, c)]. *)
Definition peer (r c r' c' : nat) : Prop :=
  r' = r ∨ c' = c ∨ (r' / 3 = r / 3 ∧ c' / 3 = c / 3).

#[local] Instance peer_dec r c r' c' : Decision (peer r c r' c').
Proof. unfold peer. apply _. Defined.

(** [v] occurs in row [r], column [c] or the box of [(r, c)], the cell
    [(r, c)] itself excluded. *)
Definition occurs_elsewhere (g : grid) (r c : nat) (v : Z) : Prop :=
  ∃ r' c', r' < 9 ∧ c' < 9 ∧ (r', c') ≠ (r, c) ∧ peer r c r' c' ∧
           cell g (r', c') = Some v.

(** The same with the cell [(r, c)] included. *)
Definition occurs_in_groups (g : grid) (r c : nat) (v : Z) : Prop :=
  ∃ r' c', r' < 9 ∧ c' < 9 ∧ peer r c r' c' ∧ cell g (r', c') = Some v.

(** The cells [isValid] reads. *)
Definition group_cells (row col : nat) : list (nat * nat) :=
  row_cells row ++ col_cells col ++ box_cells row col.

(** The digits 1..9. *)
Definition digits : list Z := [1; 2; 3; 4; 5; 6; 7; 8; 9]%Z.

(** No digit occurs twice in a row, a column or a box (empty cells, which
    hold 0, do not count). *)
Definition consistent (g : grid) : Prop :=
  ∀ r c r' c' v,
    r < 9 → c < 9 → r' < 9 → c' < 9 → (r', c') ≠ (r, c) → peer r c r' c' →
    v ≠ 0%Z → cell g (r, c) = Some v → cell g (r', c') ≠ Some v.

(** A partially filled grid: every cell holds 0 or a digit, and the
    digits placed so far do not clash. *)
Definition partial_grid (g : grid) : Prop :=
  (∀ r c, r < 9 → c < 9 → ∃ v, cell g (r, c) = Some v ∧ (0 ≤ v ≤ 9)%Z) ∧
  consistent g.

(** A complete grid that obeys the rules, cell by cell. *)
Definition solved (g : grid) : Prop :=
  wf_grid g ∧
  (∀ r c, r < 9 → c < 9 → ∃ v, cell g (r, c) = Some v ∧ (1 ≤ v ≤ 9)%Z) ∧
  consistent g.

(** [s] agrees with [g] on every cell that [g] has filled. *)
Definition extends (g s : grid) : Prop :=
  ∀ r c, r < 9 → c < 9 →
         cell g (r, c) = Some 0%Z ∨ cell g (r, c) = cell s (r, c).

(** The number of empty cells. *)
Definition empties (g : grid) : nat :=
  length (filter (λ p, cell g p = Some 0%Z) all_cells).

(** The nine values of a group of cells. *)
Definition values (g : grid) (cells : list (nat * nat)) : list (option Z) :=
  cell g <$> cells.

(** The [i]-th 3x3 box, boxes counted row by row. *)
Definition nth_box (i : nat) : list (nat * nat) :=
  box_cells (i / 3 * 3) (i `mod` 3 * 3).

(** Every row, every column and every box is a permutation of 1..9. *)
Definition valid_solution (g : grid) : Prop :=
  wf_grid g ∧
  ∀ i, i < 9 →
       values g (row_cells i) ≡ₚ Some <$> digits ∧
       values g (col_cells i) ≡ₚ Some <$> digits ∧
       values g (nth_box i) ≡ₚ Some <$> digits.

(** No complete rule-obeying grid agrees with the filled cells of [g]. *)
Definition no_solution (g : grid) : Prop := ∀ s, solved s → ¬ extends g s.

(** What a call of [solve] on the board [g] delivers: it returns; on
    [false] the board is as before; on a partial grid, [true] comes with
    a solved board that keeps the filled cells, and [false] means there
    was nothing to find. *)
Definition solve_post (g : grid) (out : res (bool * grid * nat)) : Prop :=
  ∃ b g' k', out = Ret (b, g', k') ∧
    (b = false → g' = g) ∧
    (partial_grid g → if b then solved g' ∧ extends g g' else no_solution g).

(** A complete grid, for the existence of a solution. *)
Definition sample_solution : grid :=
  [[2; 3; 4; 5; 6; 7; 8; 9; 1];
   [5; 6; 7; 8; 9; 1; 2; 3; 4];
   [8; 9; 1; 2; 3; 4; 5; 6; 7];
   [3; 2; 5; 4; 7; 6; 9; 1; 8];
   [4; 7; 6; 9; 1; 8; 3; 2; 5];
   [9; 1; 8; 3; 2; 5; 4; 7; 6];
   [6; 4; 2; 7; 5; 3; 1; 8; 9];
   [7; 5; 3; 1; 8; 9; 6; 4; 2];
   [1; 8; 9; 6; 4; 2; 7; 5; 3]]%Z.

(** A partially filled grid with no completion: the cell (0,0) sees
    1..8 in its row and 9 in its column. *)
Definition dead_end_grid : grid :=
  [[0; 1; 2; 3; 4; 5; 6; 7; 8];
   [9; 0; 0; 0; 0; 0; 0; 0; 0];
   [0; 0; 0; 0; 0; 0; 0; 0; 0];
   [0; 0; 0; 0; 0; 0; 0; 0; 0];
   [0; 0; 0; 0; 0; 0; 0; 0; 0];
   [0; 0; 0; 0; 0; 0; 0; 0; 0];
   [0; 0; 0; 0; 0; 0; 0; 0; 0];
   [0; 0; 0; 0; 0; 0; 0; 0; 0];
   [0; 0; 0; 0; 0; 0; 0; 0; 0]]%Z.

(** The contents of a grid of the session. *)
Definition grid_of (h : gmap loc (list Z)) (g : list loc) : grid :=
  (λ l, default [] (h !! l)) <$> g.

(** A grid of the session that owns nine distinct rows of nine cells. *)
Definition rows_ok (h : gmap loc (list Z)) (g : list loc) : Prop :=
  NoDup g ∧ (∀ l, l ∈ g → is_Some (h !! l)) ∧ wf_grid (grid_of h g).

(** The three grids of a session are 9x9 and the board shares no row
    with the solution or with the original board. *)
Definition session_inv (st : gameState) : Prop :=
  rows_ok (heap st) (board st) ∧
  rows_ok (heap st) (solution st) ∧
  rows_ok (heap st) (originalBoard st) ∧
  board st ## solution st ∧
  board st ## originalBoard st.

(** The number of clues of a grid. *)
Definition count_nonzero (g : grid) : nat :=
  length (filter (λ p, cell g p ≠ Some 0%Z) all_cells).

(** A 9x9 grid without an empty cell. *)
Definition complete_grid (g : grid) : Prop :=
  wf_grid g ∧ ∀ r c, r < 9 → c < 9 → cell g (r, c) ≠ Some 0%Z.

(** From draw [k] on, the pairs of draws that the removal loop makes
    (draws [k + 2n] and [k + 2n + 1]) keep hitting every cell: whatever
    [m], some pair after the [m]-th is (row, col).  Uniform independent
    draws are of this kind with probability 1. *)
Definition fair_from (rand : nat → nat) (k : nat) : Prop :=
  ∀ m row col, row < 9 → col < 9 →
    ∃ n, m ≤ n ∧ random_below rand (k + 2 * n) 9 = row ∧
         random_below rand (S (k + 2 * n)) 9 = col.

(** A source whose pairs of draws run through the 81 cells in turn. *)
Definition cycle_rand (i : nat) : nat :=
  if Nat.even i then i / 2 else i / 2 / 9.

(** A source that always draws 0. *)
Definition zero_rand (i : nat) : nat := 0.

(** Operations on cells of the grid, with digits. *)
Definition action_ok (a : action) : Prop :=
  match a with
  | SelectCell row col | EraseCell row col => row < 9 ∧ col < 9
  | EnterNumber row col number => row < 9 ∧ col < 9
  | GiveHint | ToggleNoteMode | ResetProgress => True
  end.

(** A session that holds [sample_solution] as its solution, before the
    puzzle is derived. *)
Definition sample_state : gameState :=
  {| heap := (store_rows ∅ sample_solution).1; board := [];
     solution := (store_rows ∅ sample_solution).2; originalBoard := [];
     selectedCell := None; mistakes := 0; score := 0; timerSeconds := 0;
     timerStarted := false; notesMode := false; cellNotes := ∅;
     errorCells := ∅; hintsUsed := 0; completionShown := false;
     draws := 0 |}.

(** A step of the session from [st] to [st']: the grids are still
    separate 9x9 tables, and the solution and the original board are the
    same objects with the same contents. *)
Definition preserved (st st' : gameState) : Prop :=
  session_inv st' ∧
  solution st' = solution st ∧ originalBoard st' = originalBoard st ∧
  grid_of (heap st') (solution st') = grid_of (heap st) (solution st) ∧
  grid_of (heap st') (originalBoard st') =
  grid_of (heap st) (originalBoard st).

(** The puzzle derived from [sample_solution] with 30 clues. *)
Definition sample_puzzle : gameState :=
  match derivePuzzle 60 cycle_rand (Some 30%Z) sample_state with
  | Ret st => st
  | _ => sample_state
  end.

(** [sample_puzzle] after the player has entered the right digit, 2, in
    the empty cell (0,0). *)
Definition sample_after_entry : gameState :=
  match enterNumber (Some (0, 0)) 2%Z sample_puzzle with
  | Ret st => st
  | _ => sample_puzzle
  end.

(** Some moves on [sample_puzzle]. *)
Definition sample_moves : list action :=
  [SelectCell 0 0; EnterNumber 0 0 5%Z; EnterNumber 0 0 2%Z; EraseCell 0 0;
   EnterNumber 1 1 7%Z; EraseCell 1 1; GiveHint; ToggleNoteMode;
   EnterNumber 2 2 4%Z; ToggleNoteMode; ResetProgress; EnterNumber 3 3 1%Z;
   GiveHint].

(** The grid of the specification's scenario: row 0 is
    [5,3,0,0,7,0,0,0,0], the other rows are empty. *)
Definition scenario_grid : grid :=
  [5; 3; 0; 0; 7; 0; 0; 0; 0]%Z :: replicate 8 (replicate 9 0%Z).

(** A grid whose only digit is a 5 in the target cell (0,0). *)
Definition lone_five_grid : grid :=
  [5; 0; 0; 0; 0; 0; 0; 0; 0]%Z :: replicate 8 (replicate 9 0%Z).

(** ** Notions for further properties *)

(** [g'] holds every digit that [g] holds, at the same place. *)
Definition keeps_digits (g g' : grid) : Prop :=
  ∀ p, cell g p = Some 0%Z ∨ cell g' p = cell g p.

(** A full board that breaks every rule. *)
Definition all_ones_grid : grid := replicate 9 (replicate 9 1%Z).

(** [startNewGame(difficulty)]: the counters are reset and a new puzzle
    is generated.  The popup of a completed game is not touched. *)
Definition startNewGame (fuel : nat) (rand : nat → nat)
    (difficulty : string) (st : gameState) : res gameState :=
  generatePuzzle fuel rand difficulty
    {| heap := heap st; board := board st; solution := solution st;
       originalBoard := originalBoard st; selectedCell := None;
       mistakes := 0; score := 0; timerSeconds := 0;
       timerStarted := false; notesMode := false;
       cellNotes := ∅; errorCells := ∅; hintsUsed := 0;
       completionShown := completionShown st; draws := draws st |}.

(** A game that has just begun: nothing selected, no mistake, no point,
    no hint used, no note, no error mark, note mode off. *)
Definition fresh_game (st : gameState) : Prop :=
  selectedCell st = None ∧ mistakes st = 0 ∧ score st = 0 ∧
  hintsUsed st = 0 ∧ notesMode st = false ∧ timerStarted st = false ∧
  cellNotes st = ∅ ∧ errorCells st = ∅.

(** A puzzle of a session: the solution obeys the rules, every cell of
    the board is 0 or the solution's digit, and the original board is a
    separate copy of the board. *)
Definition puzzle_of_solution (st : gameState) : Prop :=
  session_inv st ∧
  valid_solution (grid_of (heap st) (solution st)) ∧
  complete_grid (grid_of (heap st) (solution st)) ∧
  (∀ r c, r < 9 → c < 9 →
     cell (grid_of (heap st) (board st)) (r, c) = Some 0%Z ∨
     cell (grid_of (heap st) (board st)) (r, c) =
     cell (grid_of (heap st) (solution st)) (r, c)) ∧
  grid_of (heap st) (originalBoard st) = grid_of (heap st) (board st).

(** The notes of a cell, the empty list when the map holds none
    ([gameState.cellNotes.get(cellKey) || []]). *)
Definition notes_of (st : gameState) (p : nat * nat) : list Z :=
  default [] (cellNotes st !! p).

(** Every note list that is stored is non-empty, ascending and free of
    duplicates. *)
Definition notes_inv (st : gameState) : Prop :=
  map_Forall (λ _ notes, notes ≠ [] ∧ Sorted Z.le notes ∧ NoDup notes)
             (cellNotes st).

(** [sample_puzzle] in note mode, with the notes 2 and 5 on cell (0,0). *)
Definition sample_noting : gameState :=
  {| heap := heap sample_puzzle; board := board sample_puzzle;
     solution := solution sample_puzzle;
     originalBoard := originalBoard sample_puzzle;
     selectedCell := Some (0, 0); mistakes := 0; score := 0;
     timerSeconds := 0; timerStarted := false; notesMode := true;
     cellNotes := {[ (0, 0) := [2; 5]%Z ]}; errorCells := ∅;
     hintsUsed := 0; completionShown := false; draws := 0 |}.

(** The moves that enter, in each of the cells [cells], the digit that
    the grid [s] has there. *)
Definition fill_moves (s : grid) (cells : list (nat * nat)) : list action :=
  (λ p, EnterNumber p.1 p.2 (default 0%Z (cell s p))) <$> cells.

(** ** The handlers of the page *)








(** The loop of [updateNumberButtonsState] over the cells: [counts[val]]
    goes up for every cell whose value [val] is between 1 and 9. *)
Fixpoint count_digits (h : gmap loc (list Z)) (b : list loc)
    (cells : list (nat * nat)) (counts : list nat) : res (list nat) :=
  match cells with
  | [] => Ret counts
  | (row, col) :: rest =>
      let! v := hread h b row col in
      count_digits h b rest
        (match v with
         | Some val =>
             if bool_decide (1 ≤ val ≤ 9)%Z
             then <[Z.to_nat val := S (counts !!! Z.to_nat val)]> counts
             else counts
         | None => counts
         end)
  end.

(** [updateNumberButtonsState()], for the button of the number [num]:
    the value given to its [disabled] flag, [counts[num] >= 9]. *)
Definition updateNumberButtonsState (st : gameState) (num : nat) : res bool :=
  let! counts :=
    count_digits (heap st) (board st) all_cells (replicate 10 0) in
  Ret (bool_decide (9 ≤ counts !!! num)).




(** * Proofs *)

(** ** Reading and writing cells *)

Lemma bind_Ret {A B} (m : res A) (f : A → res B) (b : B) :
  bind m f = Ret b → ∃ a, m = Ret a ∧ f a = Ret b.
Proof. destruct m; simpl; intros; eauto; discriminate. Qed.

Lemma read_Ret g r c v : read g r c = Ret v → v = cell g (r, c).
Proof.
  unfold read, cell; simpl. destruct (g !! r); intros; simplify_eq; done.
Qed.

Lemma wf_cell g r c :
  wf_grid g → r < 9 → c < 9 → ∃ z, cell g (r, c) = Some z.
Proof.
  intros [Hlen Hrows] Hr Hc. unfold cell; simpl.
  destruct (lookup_lt_is_Some_2 g r) as [cells Hcells]; [lia|].
  rewrite Hcells.
  rewrite Forall_lookup in Hrows. specialize (Hrows _ _ Hcells).
  apply lookup_lt_is_Some_2. simpl in Hrows. lia.
Qed.

Lemma wf_read g r c :
  wf_grid g → r < 9 → c < 9 → read g r c = Ret (cell g (r, c)).
Proof.
  intros [Hlen _] Hr _. unfold read, cell; simpl.
  destruct (lookup_lt_is_Some_2 g r) as [cells Hcells]; [lia|].
  by rewrite Hcells.
Qed.





(** ** The cells of a row, a column and a box *)

Lemma elem_of_row_cells r r' c' : (r', c') ∈ row_cells r ↔ r' = r ∧ c' < 9.
Proof.
  unfold row_cells. rewrite list_elem_of_fmap. split.
  - intros (i & Heq & Hi). apply elem_of_seq in Hi. simplify_eq. lia.
  - intros [-> Hc]. exists c'. split; [done|]. apply elem_of_seq. lia.
Qed.

Lemma elem_of_col_cells c r' c' : (r', c') ∈ col_cells c ↔ c' = c ∧ r' < 9.
Proof.
  unfold col_cells. rewrite list_elem_of_fmap. split.
  - intros (i & Heq & Hi). apply elem_of_seq in Hi. simplify_eq. lia.
  - intros [-> Hc]. exists r'. split; [done|]. apply elem_of_seq. lia.
Qed.

Lemma box_origin n i : n / 3 * 3 ≤ i < n / 3 * 3 + 3 ↔ i / 3 = n / 3.
Proof.
  pose proof (Nat.div_mod_eq n 3). pose proof (Nat.mod_upper_bound n 3).
  pose proof (Nat.div_mod_eq i 3). pose proof (Nat.mod_upper_bound i 3).
  lia.
Qed.

Lemma elem_of_box_cells r c r' c' :
  (r', c') ∈ box_cells r c ↔ r' / 3 = r / 3 ∧ c' / 3 = c / 3.
Proof.
  unfold box_cells. rewrite list_elem_of_bind. split.
  - intros (i & Hj & Hi). apply list_elem_of_fmap in Hj as (j & Heq & Hj).
    apply elem_of_seq in Hi, Hj. simplify_eq.
    split; apply box_origin; lia.
  - intros [Hr Hc]. apply box_origin in Hr, Hc. exists r'. split.
    + apply list_elem_of_fmap. exists c'. split; [done|]. apply elem_of_seq. lia.
    + apply elem_of_seq. lia.
Qed.

Lemma elem_of_group_cells r c r' c' :
  r < 9 → c < 9 →
  (r', c') ∈ group_cells r c ↔ r' < 9 ∧ c' < 9 ∧ peer r c r' c'.
Proof.
  intros Hr Hc. unfold group_cells, peer.
  rewrite !elem_of_app, elem_of_row_cells, elem_of_col_cells, elem_of_box_cells.
  split.
  - intros [[-> ?]|[[-> ?]|[Hr' Hc']]]; try (split_and!; auto; lia).
    assert (r / 3 < 3) by (apply Nat.Div0.div_lt_upper_bound; lia).
    assert (c / 3 < 3) by (apply Nat.Div0.div_lt_upper_bound; lia).
    apply box_origin in Hr' as Hr2. apply box_origin in Hc' as Hc2.
    split_and!; auto; lia.
  - intros (? & ? & [->|[->|?]]); auto.
Qed.

Lemma peer_sym r c r' c' : peer r c r' c' → peer r' c' r c.
Proof. unfold peer. intros [->|[->|[-> ->]]]; auto. Qed.

Lemma peer_refl r c : peer r c r c.
Proof. by left. Qed.

(** ** isValid *)

Lemma scan_spec g v cells :
  wf_grid g → Forall (λ p, p.1 < 9 ∧ p.2 < 9) cells →
  ∃ b, scan g v cells = Ret b ∧
       (b = true ↔ Forall (λ p, cell g p ≠ Some v) cells).
Proof.
  intros Hwf. induction cells as [|[i j] rest IH]; intros Hin.
  - exists true. split; [done|]. split; auto.
  - apply Forall_cons in Hin as [[Hi Hj] Hin]. simpl in Hi, Hj.
    destruct (IH Hin) as (b & Hb & Hiff). simpl.
    rewrite (wf_read g i j Hwf Hi Hj). simpl.
    destruct (decide (cell g (i, j) = Some v)) as [Heq|Hne].
    + exists false. split; [done|]. split; [done|].
      intros [Hne _]%Forall_cons. done.
    + exists b. split; [done|]. rewrite Hiff, Forall_cons. tauto.
Qed.

Lemma group_cells_in_grid r c :
  r < 9 → c < 9 → Forall (λ p, p.1 < 9 ∧ p.2 < 9) (group_cells r c).
Proof.
  intros Hr Hc. apply Forall_forall. intros [r' c'] Hin.
  apply elem_of_group_cells in Hin; simpl; tauto.
Qed.

Lemma isValid_spec g r c v :
  wf_grid g → r < 9 → c < 9 →
  ∃ b, isValid g r c v = Ret b ∧
       (b = true ↔ Forall (λ p, cell g p ≠ Some v) (group_cells r c)).
Proof.
  intros Hwf Hr Hc.
  pose proof (group_cells_in_grid r c Hr Hc) as Hin.
  unfold group_cells in *. apply Forall_app in Hin as [Hrow Hin].
  apply Forall_app in Hin as [Hcol Hbox].
  destruct (scan_spec g v _ Hwf Hrow) as (b1 & E1 & H1).
  destruct (scan_spec g v _ Hwf Hcol) as (b2 & E2 & H2).
  destruct (scan_spec g v _ Hwf Hbox) as (b3 & E3 & H3).
  unfold isValid. rewrite E1; cbn [bind negb].
  destruct b1; cbn [bind negb].
  - rewrite E2; cbn [bind negb]. destruct b2; cbn [bind negb].
    + exists b3. split; [done|]. rewrite !Forall_app. tauto.
    + exists false. split; [done|]. rewrite !Forall_app.
      split; [done|]. intros (_ & ? & _). apply H2; done.
  - exists false. split; [done|]. rewrite !Forall_app.
    split; [done|]. intros (? & _). apply H1; done.
Qed.

Lemma isValid_true g r c v :
  wf_grid g → r < 9 → c < 9 →
  isValid g r c v = Ret true ↔ ¬ occurs_in_groups g r c v.
Proof.
  intros Hwf Hr Hc. destruct (isValid_spec g r c v Hwf Hr Hc) as (b & E & Hb).
  rewrite E. rewrite Forall_forall in Hb. split.
  - intros [= ->]. intros (r' & c' & Hr' & Hc' & Hp & Hv).
    destruct Hb as [Hb _]. apply (Hb eq_refl (r', c')); [|done].
    apply elem_of_group_cells; auto.
  - intros Hno. f_equal. apply Hb. intros [r' c'] Hin Hv.
    apply elem_of_group_cells in Hin as (? & ? & ?); [|done..].
    apply Hno. exists r', c'. auto.
Qed.

Lemma isValid_false g r c v :
  wf_grid g → r < 9 → c < 9 →
  isValid g r c v = Ret false ↔ occurs_in_groups g r c v.
Proof.
  intros Hwf Hr Hc. destruct (isValid_spec g r c v Hwf Hr Hc) as (b & E & Hb).
  pose proof (isValid_true g r c v Hwf Hr Hc) as Ht. rewrite E in *.
  destruct b.
  - split; [done|]. intros Hocc. exfalso. by apply Ht.
  - split; [|done]. intros _.
    destruct (decide (Exists (λ p, cell g p = Some v) (group_cells r c)))
      as [Hex|Hnex].
    + apply Exists_exists in Hex as ([r' c'] & Hin & Hv).
      apply elem_of_group_cells in Hin as (? & ? & ?); [|done..].
      exists r', c'. auto.
    + exfalso. assert (false = true); [|done]. apply Hb.
      apply Forall_forall. intros p Hin Hv. apply Hnex.
      apply Exists_exists. eauto.
Qed.

Tactic Notation "each_cell" ident(r) ident(c) ident(H) :=
  do 9 (destruct r as [|r];
        [do 9 (destruct c as [|c]; [try (vm_compute in H; congruence)|]); lia|]);
  lia.

(** C1, as stated, fails: [isValid] also reads the target cell, so a
    value that sits in the target cell and nowhere else is rejected. *)
Lemma isValid_elsewhere_counterexample :
  isValid lone_five_grid 0 0 5 = Ret false ∧
  ¬ occurs_elsewhere lone_five_grid 0 0 5.
Proof.
  split; [reflexivity|].
  intros (r' & c' & Hr & Hc & Hne & _ & Hv).
  each_cell r' c' Hv.
Qed.

(** C1, amended: on a 9x9 grid [isValid] returns false exactly when the
    value occurs in the row, the column or the box of the cell, the
    target cell included, and true otherwise; when the target cell does
    not hold the value this is the same as occurring elsewhere.  In the
    scenario grid 5 is rejected and 9 accepted at (0,2). *)
Theorem isValid_legality (g : grid) (r c : nat) (v : Z) :
  wf_grid g → r < 9 → c < 9 →
  (isValid g r c v = Ret false ↔ occurs_in_groups g r c v) ∧
  (isValid g r c v = Ret true ↔ ¬ occurs_in_groups g r c v) ∧
  (cell g (r, c) ≠ Some v →
   (isValid g r c v = Ret false ↔ occurs_elsewhere g r c v) ∧
   (isValid g r c v = Ret true ↔ ¬ occurs_elsewhere g r c v)) ∧
  isValid scenario_grid 0 2 5 = Ret false ∧
  isValid scenario_grid 0 2 9 = Ret true.
Proof.
  intros Hwf Hr Hc.
  pose proof (isValid_false g r c v Hwf Hr Hc) as Hf.
  pose proof (isValid_true g r c v Hwf Hr Hc) as Ht.
  split_and!; try done.
  intros Hcell.
  assert (occurs_in_groups g r c v ↔ occurs_elsewhere g r c v) as Heq.
  { split.
    - intros (r' & c' & ? & ? & ? & Hv). exists r', c'. split_and!; try done.
      intros [= -> ->]. done.
    - intros (r' & c' & ? & ? & ? & ? & Hv). exists r', c'. done. }
  rewrite <- Heq. done.
Qed.

Lemma isValid_legality_witness :
  (isValid scenario_grid 0 2 5 = Ret false ↔
   occurs_in_groups scenario_grid 0 2 5) ∧
  (isValid scenario_grid 0 2 5 = Ret true ↔
   ¬ occurs_in_groups scenario_grid 0 2 5) ∧
  (cell scenario_grid (0, 2) ≠ Some 5%Z →
   (isValid scenario_grid 0 2 5 = Ret false ↔
    occurs_elsewhere scenario_grid 0 2 5) ∧
   (isValid scenario_grid 0 2 5 = Ret true ↔
    ¬ occurs_elsewhere scenario_grid 0 2 5)) ∧
  isValid scenario_grid 0 2 5 = Ret false ∧
  isValid scenario_grid 0 2 9 = Ret true.
Proof.
  apply (isValid_legality scenario_grid 0 2 5).
  - split; [reflexivity|]. unfold scenario_grid. repeat constructor.
  - lia.
  - lia.
Defined.

(** ** Writing a cell *)

Lemma write_total g r c z v :
  cell g (r, c) = Some z → ∃ g', write g r c v = Ret g'.
Proof.
  unfold cell, write; simpl. destruct (g !! r); [eauto|done].
Qed.

Lemma cell_write g r c v g' p :
  write g r c v = Ret g' → is_Some (cell g (r, c)) →
  cell g' p = if decide (p = (r, c)) then Some v else cell g p.
Proof.
  unfold write, cell; simpl. destruct p as [r' c']; simpl.
  destruct (g !! r) as [cells|] eqn:Hrow; [|done].
  intros [= <-] Hc. apply lookup_lt_Some in Hrow as Hr.
  apply lookup_lt_is_Some_1 in Hc.
  destruct (decide (r' = r)) as [->|Hne].
  - rewrite list_lookup_insert_eq by done.
    destruct (decide (c' = c)) as [->|Hnc].
    + rewrite decide_True by done. by apply list_lookup_insert_eq.
    + rewrite decide_False by congruence.
      rewrite list_lookup_insert_ne by done. by rewrite Hrow.
  - rewrite decide_False by congruence.
    by rewrite list_lookup_insert_ne.
Qed.

Lemma write_wf g r c v g' : write g r c v = Ret g' → wf_grid g → wf_grid g'.
Proof.
  unfold write. destruct (g !! r) as [cells|] eqn:Hrow; [|done].
  intros [= <-] [Hlen Hrows]. split.
  - by rewrite length_insert.
  - apply Forall_insert; [done|]. rewrite length_insert.
    rewrite Forall_lookup in Hrows. by apply (Hrows r).
Qed.

Lemma write_same g r c v : cell g (r, c) = Some v → write g r c v = Ret g.
Proof.
  unfold cell, write; simpl.
  destruct (g !! r) as [cells|] eqn:Hrow; [|done].
  intros Hc. by rewrite (list_insert_id cells), (list_insert_id g).
Qed.

Lemma write_write g r c v w g1 g2 :
  write g r c v = Ret g1 → write g1 r c w = Ret g2 → write g r c w = Ret g2.
Proof.
  unfold write. destruct (g !! r) as [cells|] eqn:Hrow; [|done].
  intros [= <-]. apply lookup_lt_Some in Hrow as Hr.
  rewrite list_lookup_insert_eq by done. intros [= <-].
  by rewrite list_insert_insert_eq, list_insert_insert_eq.
Qed.

(** Undoing a placement on an empty cell gives the board back. *)
Lemma write_undo g r c v g1 g2 :
  cell g (r, c) = Some 0%Z →
  write g r c v = Ret g1 → write g1 r c 0 = Ret g2 → g2 = g.
Proof.
  intros Hc H1 H2. pose proof (write_write _ _ _ _ _ _ _ H1 H2) as H3.
  rewrite (write_same g r c 0 Hc) in H3. congruence.
Qed.

(** ** Scanning for the first empty cell *)

Lemma elem_of_all_cells r c : (r, c) ∈ all_cells ↔ r < 9 ∧ c < 9.
Proof.
  unfold all_cells. rewrite list_elem_of_bind. split.
  - intros (i & Hj & Hi). apply list_elem_of_fmap in Hj as (j & Heq & Hj).
    apply elem_of_seq in Hi, Hj. simplify_eq. lia.
  - intros [Hr Hc]. exists r. split.
    + apply list_elem_of_fmap. exists c. split; [done|]. apply elem_of_seq. lia.
    + apply elem_of_seq. lia.
Qed.

Lemma NoDup_all_cells : NoDup all_cells.
Proof. apply (bool_decide_unpack _). vm_compute. reflexivity. Qed.

Lemma first_empty_Some g cells r c :
  first_empty g cells = Ret (Some (r, c)) →
  cell g (r, c) = Some 0%Z ∧ (r, c) ∈ cells.
Proof.
  induction cells as [|[i j] rest IH]; simpl; [done|].
  intros (v & Hread & Hk)%bind_Ret. apply read_Ret in Hread.
  destruct (decide (v = Some 0%Z)) as [Hv|Hv].
  - simplify_eq. split; [congruence|left].
  - destruct (IH Hk). split; [done|by right].
Qed.

Lemma first_empty_None g cells :
  first_empty g cells = Ret None → Forall (λ p, cell g p ≠ Some 0%Z) cells.
Proof.
  induction cells as [|[i j] rest IH]; simpl; [constructor|].
  intros (v & Hread & Hk)%bind_Ret. apply read_Ret in Hread.
  destruct (decide (v = Some 0%Z)) as [Hv|Hv]; [done|].
  constructor; [congruence|auto].
Qed.

Lemma first_empty_total g cells :
  wf_grid g → Forall (λ p, p.1 < 9 ∧ p.2 < 9) cells →
  ∃ e, first_empty g cells = Ret e.
Proof.
  intros Hwf. induction cells as [|[i j] rest IH]; intros Hin; simpl; [eauto|].
  apply Forall_cons in Hin as [[Hi Hj] Hin]. simpl in Hi, Hj.
  rewrite (wf_read g i j Hwf Hi Hj). cbn [bind].
  destruct (decide _); eauto.
Qed.

Lemma all_cells_in_grid : Forall (λ p, p.1 < 9 ∧ p.2 < 9) all_cells.
Proof.
  apply Forall_forall. intros [r c] Hin. by apply elem_of_all_cells in Hin.
Qed.

(** ** Counting empty cells *)

Lemma filter_length_agree {A} (P Q : A → Prop)
    `{!∀ x, Decision (P x)} `{!∀ x, Decision (Q x)} (l : list A) :
  (∀ x, x ∈ l → (P x ↔ Q x)) → length (filter P l) = length (filter Q l).
Proof.
  induction l as [|x l IH]; intros Hiff; [done|]. rewrite !filter_cons.
  assert (P x ↔ Q x) by (apply Hiff; left).
  assert (length (filter P l) = length (filter Q l)) as Hl.
  { apply IH. intros y Hy. apply Hiff. by right. }
  destruct (decide (P x)), (decide (Q x)); simpl; try tauto; lia.
Qed.

Lemma filter_length_drop_one `{EqDecision A} (P Q : A → Prop)
    `{!∀ x, Decision (P x)} `{!∀ x, Decision (Q x)} (l : list A) (x0 : A) :
  NoDup l → x0 ∈ l → P x0 → ¬ Q x0 → (∀ x, x ≠ x0 → (P x ↔ Q x)) →
  length (filter P l) = S (length (filter Q l)).
Proof.
  intros Hnd Hin HP HQ Hiff. induction l as [|x l IH]; [by inversion Hin|].
  apply NoDup_cons in Hnd as [Hx Hnd]. rewrite !filter_cons.
  destruct (decide (x = x0)) as [->|Hne].
  - rewrite decide_True, decide_False by done. simpl. f_equal.
    apply filter_length_agree. intros y Hy. apply Hiff.
    intros ->. done.
  - apply elem_of_cons in Hin as [->|Hin]; [done|].
    specialize (IH Hnd Hin). specialize (Hiff x Hne).
    destruct (decide (P x)), (decide (Q x)); simpl; try tauto; lia.
Qed.

Lemma empties_write g r c v g' :
  r < 9 → c < 9 → cell g (r, c) = Some 0%Z → v ≠ 0%Z →
  write g r c v = Ret g' → empties g = S (empties g').
Proof.
  intros Hr Hc Hcell Hv Hw. unfold empties.
  apply (filter_length_drop_one _ _ _ (r, c)).
  - apply NoDup_all_cells.
  - by apply elem_of_all_cells.
  - done.
  - rewrite (cell_write _ _ _ _ _ _ Hw) by eauto.
    rewrite decide_True by done. congruence.
  - intros p Hp. rewrite (cell_write _ _ _ _ _ _ Hw) by eauto.
    by rewrite decide_False.
Qed.

Lemma empties_bound g : empties g ≤ 81.
Proof.
  unfold empties. etrans; [apply length_filter|]. by vm_compute.
Qed.

(** ** The shuffle *)

Lemma swap_lookup (nums : list Z) i j n :
  i < length nums → j < length nums →
  swap nums i j !! n =
  nums !! (if decide (n = j) then i else if decide (n = i) then j else n).
Proof.
  intros Hi Hj. unfold swap.
  destruct (lookup_lt_is_Some_2 nums i Hi) as [x Hx].
  destruct (lookup_lt_is_Some_2 nums j Hj) as [y Hy].
  rewrite Hx, Hy.
  destruct (decide (n = j)) as [->|Hnj].
  - rewrite list_lookup_insert_eq by (by rewrite length_insert). done.
  - rewrite list_lookup_insert_ne by done.
    destruct (decide (n = i)) as [->|Hni].
    + rewrite list_lookup_insert_eq by done. done.
    + by rewrite list_lookup_insert_ne.
Qed.

Lemma length_swap (nums : list Z) i j : length (swap nums i j) = length nums.
Proof.
  unfold swap. destruct (nums !! i), (nums !! j); try done.
  by rewrite !length_insert.
Qed.

Lemma elem_of_swap (nums : list Z) i j x :
  i < length nums → j < length nums → x ∈ swap nums i j ↔ x ∈ nums.
Proof.
  intros Hi Hj. rewrite !list_elem_of_lookup. split.
  - intros [n Hn]. rewrite swap_lookup in Hn by done. eauto.
  - intros [n Hn].
    exists (if decide (n = j) then i else if decide (n = i) then j else n).
    rewrite swap_lookup by done. repeat case_decide; simplify_eq; done.
Qed.

Lemma shuffle_from_elem rand i nums k x :
  i < length nums → x ∈ (shuffle_from rand i nums k).1 ↔ x ∈ nums.
Proof.
  revert nums k. induction i as [|i IH]; intros nums k Hi; simpl; [done|].
  assert (random_below rand k (S i + 1) < length nums) as Hj.
  { unfold random_below.
    pose proof (Nat.mod_upper_bound (rand k) (S i + 1)). lia. }
  rewrite IH by (rewrite length_swap; lia).
  apply elem_of_swap; [done|]. exact Hj.
Qed.

Lemma shuffle_elem rand k x : x ∈ (shuffle rand k).1 ↔ x ∈ digits.
Proof. unfold shuffle. apply shuffle_from_elem. simpl. lia. Qed.

Lemma elem_of_digits x : x ∈ digits ↔ (1 ≤ x ≤ 9)%Z.
Proof. unfold digits. rewrite !elem_of_cons, elem_of_nil. lia. Qed.

(** ** The backtracking search *)

Lemma partial_write g r c v g' :
  partial_grid g → r < 9 → c < 9 → cell g (r, c) = Some 0%Z →
  (1 ≤ v ≤ 9)%Z → ¬ occurs_in_groups g r c v →
  write g r c v = Ret g' → partial_grid g'.
Proof.
  intros [Hdig Hcons] Hr Hc Hcell Hv Hno Hw.
  assert (∀ p, cell g' p = if decide (p = (r, c)) then Some v else cell g p)
    as Hg' by (intros p; apply cell_write; eauto).
  split.
  - intros r1 c1 Hr1 Hc1. rewrite Hg'. case_decide; [|auto].
    exists v. split; [done|lia].
  - intros r1 c1 r2 c2 w Hr1 Hc1 Hr2 Hc2 Hne Hpeer Hw0. rewrite !Hg'.
    destruct (decide ((r1, c1) = (r, c))) as [[= -> ->]|Hn1].
    + intros [= <-]. rewrite decide_False by done. intros Hv2.
      apply Hno. exists r2, c2. done.
    + intros H1. destruct (decide ((r2, c2) = (r, c))) as [[= -> ->]|Hn2].
      * intros [= ->]. apply Hno. exists r1, c1.
        split_and!; auto using peer_sym.
      * by apply (Hcons r1 c1 r2 c2).
Qed.

Lemma extends_write_l g r c v g' s :
  cell g (r, c) = Some 0%Z → write g r c v = Ret g' →
  extends g' s → extends g s.
Proof.
  intros Hcell Hw Hext r1 c1 Hr1 Hc1.
  destruct (decide ((r1, c1) = (r, c))) as [[= -> ->]|Hne]; [by left|].
  specialize (Hext r1 c1 Hr1 Hc1).
  rewrite (cell_write _ _ _ _ _ _ Hw) in Hext by eauto.
  by rewrite decide_False in Hext.
Qed.

Lemma extends_write_r g r c v g' s :
  cell g (r, c) = Some 0%Z → write g r c v = Ret g' →
  extends g s → cell s (r, c) = Some v → extends g' s.
Proof.
  intros Hcell Hw Hext Hs r1 c1 Hr1 Hc1.
  rewrite (cell_write _ _ _ _ _ _ Hw) by eauto.
  case_decide as Heq; [|by apply Hext].
  injection Heq as -> ->. by right.
Qed.

Lemma try_nums_spec rec r c g :
  wf_grid g → r < 9 → c < 9 → cell g (r, c) = Some 0%Z →
  (∀ b k, wf_grid b → empties b < empties g → solve_post b (rec b k)) →
  ∀ nums k, Forall (λ v, (1 ≤ v ≤ 9)%Z) nums →
  ∃ b g' k', try_nums rec r c nums g k = Ret (b, g', k') ∧
    (b = false → g' = g) ∧
    (partial_grid g →
     if b then solved g' ∧ extends g g'
     else ∀ s, solved s → extends g s →
               ∀ v, v ∈ nums → cell s (r, c) ≠ Some v).
Proof.
  intros Hwf Hr Hc Hcell Hrec.
  induction nums as [|num rest IH]; intros k Hnums.
  - exists false, g, k. split_and!; [done..|].
    intros _ s _ _ v Hv. by apply elem_of_nil in Hv.
  - apply Forall_cons in Hnums as [Hnum Hrest]. cbn [try_nums].
    destruct (isValid_spec g r c num Hwf Hr Hc) as (ok & E & _).
    rewrite E; cbn [bind]. destruct ok.
    + apply isValid_true in E as Hno; [|done..].
      destruct (write_total g r c 0 num Hcell) as [b1 Hb1].
      rewrite Hb1; cbn [bind].
      assert (wf_grid b1) as Hwf1 by eauto using write_wf.
      assert (empties g = S (empties b1)) as Hemp
        by (apply (empties_write g r c num); auto; lia).
      assert (partial_grid g → partial_grid b1) as Hp1
        by (intros; apply (partial_write g r c num); auto).
      destruct (Hrec b1 k Hwf1 ltac:(lia))
        as (found & b2 & k2 & Erec & Hrestore & Hpost).
      rewrite Erec; cbn [bind]. destruct found.
      * exists true, b2, k2. split_and!; [done..|]. intros Hpart.
        destruct Hpost as [Hs Hext]; [auto|].
        split; [done|]. by eapply extends_write_l.
      * rewrite (Hrestore eq_refl) in *. clear Hrestore Erec b2.
        assert (cell b1 (r, c) = Some num) as Hcell1.
        { rewrite (cell_write _ _ _ _ _ _ Hb1) by eauto.
          by rewrite decide_True. }
        destruct (write_total b1 r c num 0 Hcell1) as [b3 Hb3].
        rewrite Hb3; cbn [bind].
        rewrite (write_undo _ _ _ _ _ _ Hcell Hb1 Hb3).
        destruct (IH k2 Hrest) as (b & g' & k' & E' & Hres' & Hpost').
        exists b, g', k'. split_and!; [done..|]. intros Hpart.
        specialize (Hpost' Hpart). destruct b; [done|].
        intros s Hs Hext v [->|Hv]%elem_of_cons; [|by eauto].
        intros Hsv. apply (Hpost (Hp1 Hpart) s Hs).
        by eapply extends_write_r.
    + apply isValid_false in E as (r' & c' & Hr' & Hc' & Hpeer & Hv');
        [|done..].
      destruct (IH k Hrest) as (b & g' & k' & E' & Hres' & Hpost').
      exists b, g', k'. split_and!; [done..|]. intros Hpart.
      specialize (Hpost' Hpart). destruct b; [done|].
      intros s Hs Hext v [->|Hv]%elem_of_cons; [|by eauto].
      destruct Hs as (_ & _ & Hcons).
      assert ((r, c) ≠ (r', c')) as Hne.
      { intros [= <- <-]. rewrite Hcell in Hv'. simplify_eq. lia. }
      apply (Hcons r' c' r c num); auto using peer_sym; [lia|].
      destruct (Hext r' c' Hr' Hc') as [H0|Heq]; [|congruence].
      rewrite Hv' in H0. simplify_eq. lia.
Qed.

Lemma solve_spec fuel rand :
  ∀ g k, wf_grid g → empties g < fuel → solve_post g (solve fuel rand g k).
Proof.
  induction fuel as [|fuel IH]; intros g k Hwf Hfuel; [lia|].
  cbn [solve].
  destruct (first_empty_total g all_cells Hwf all_cells_in_grid) as [e He].
  rewrite He; cbn [bind]. destruct e as [[r c]|].
  - apply first_empty_Some in He as [Hcell [Hr Hc]%elem_of_all_cells].
    destruct (shuffle rand k) as [nums k1] eqn:Hsh.
    assert (∀ x, x ∈ nums ↔ (1 ≤ x ≤ 9)%Z) as Hnums.
    { intros x. rewrite <- elem_of_digits, <- (shuffle_elem rand k).
      by rewrite Hsh. }
    destruct (try_nums_spec (solve fuel rand) r c g Hwf Hr Hc Hcell)
      with (nums := nums) (k := k1) as (b & g' & k' & E & Hres & Hpost).
    + intros b k0 Hb Hlt. apply IH; [done|lia].
    + apply Forall_forall. intros x Hx. by apply Hnums.
    + exists b, g', k'. split_and!; [done..|]. intros Hpart.
      specialize (Hpost Hpart). destruct b; [done|].
      intros s Hs Hext. pose proof Hs as (_ & Hdig & _).
      destruct (Hdig r c Hr Hc) as (v & Hv & Hrange).
      apply (Hpost s Hs Hext v); [by apply Hnums|done].
  - exists true, g, k. split_and!; [done..|]. intros [Hdig Hcons]. split.
    + split; [done|]. split; [|done]. intros r c Hr Hc.
      destruct (Hdig r c Hr Hc) as (v & Hv & Hrange).
      exists v. split; [done|].
      apply first_empty_None in He. rewrite Forall_forall in He.
      assert (cell g (r, c) ≠ Some 0%Z) as Hnz
        by (apply He; by apply elem_of_all_cells).
      assert (v ≠ 0%Z) by congruence. lia.
    + intros r c _ _. by right.
Qed.

(** A failed search leaves the board as it found it, whatever the board. *)
Lemma try_nums_restore rec r c :
  (∀ b k b' k', rec b k = Ret (false, b', k') → b' = b) →
  ∀ nums g k g' k',
    cell g (r, c) = Some 0%Z →
    try_nums rec r c nums g k = Ret (false, g', k') → g' = g.
Proof.
  intros Hrec. induction nums as [|num rest IH]; intros g k g' k' Hcell;
    cbn [try_nums].
  - by intros [= <- <-].
  - intros (ok & Hok & H)%bind_Ret. destruct ok; [|by eauto].
    apply bind_Ret in H as (b1 & Hb1 & H).
    apply bind_Ret in H as ([[found b2] k2] & Hrec1 & H).
    destruct found; [done|].
    apply bind_Ret in H as (b3 & Hb3 & H).
    apply Hrec in Hrec1 as ->.
    rewrite (write_undo _ _ _ _ _ _ Hcell Hb1 Hb3) in H. eauto.
Qed.

Lemma solve_restore fuel rand :
  ∀ g k g' k', solve fuel rand g k = Ret (false, g', k') → g' = g.
Proof.
  induction fuel as [|fuel IH]; intros g k g' k'; cbn [solve]; [done|].
  intros ([[r c]|] & He & H)%bind_Ret; [|done].
  apply first_empty_Some in He as [Hcell _].
  destruct (shuffle rand k) as [nums k1].
  by eapply try_nums_restore.
Qed.

(** ** From cell-wise rules to permutations *)

Lemma group_permutation g cells :
  solved g → NoDup cells → length cells = 9 →
  Forall (λ p, p.1 < 9 ∧ p.2 < 9 ∧
               Forall (λ q, peer p.1 p.2 q.1 q.2) cells) cells →
  values g cells ≡ₚ Some <$> digits.
Proof.
  intros (Hwf & Hdig & Hcons) Hnd Hlen Hcells. rewrite Forall_forall in Hcells.
  apply submseteq_length_Permutation.
  - apply NoDup_submseteq.
    + apply NoDup_fmap_2_strong; [|done].
      intros [r1 c1] [r2 c2] H1 H2 Heq.
      destruct (decide ((r2, c2) = (r1, c1))) as [|Hne]; [done|]. exfalso.
      destruct (Hcells _ H1) as (Hr1 & Hc1 & Hpeers). simpl in *.
      destruct (Hcells _ H2) as (Hr2 & Hc2 & _). simpl in *.
      rewrite Forall_forall in Hpeers. specialize (Hpeers _ H2). simpl in *.
      destruct (Hdig r1 c1 Hr1 Hc1) as (v & Hv & Hrange).
      apply (Hcons r1 c1 r2 c2 v); auto; [lia|congruence].
    + intros x (p & -> & Hp)%list_elem_of_fmap.
      destruct p as [r c]. destruct (Hcells _ Hp) as (Hr & Hc & _).
      destruct (Hdig r c Hr Hc) as (v & Hv & Hrange). rewrite Hv.
      apply list_elem_of_fmap. exists v. split; [done|].
      by apply elem_of_digits.
  - unfold values. rewrite !length_fmap, Hlen. done.
Qed.

Lemma groups_well_formed i :
  i < 9 →
  Forall (λ cells : list (nat * nat),
            NoDup cells ∧ length cells = 9 ∧
            Forall (λ p, p.1 < 9 ∧ p.2 < 9 ∧
                         Forall (λ q, peer p.1 p.2 q.1 q.2) cells) cells)
         [row_cells i; col_cells i; nth_box i].
Proof.
  intros Hi.
  do 9 (destruct i as [|i];
        [apply (bool_decide_unpack _); vm_compute; reflexivity|]).
  lia.
Qed.

Lemma solved_valid g : solved g → valid_solution g.
Proof.
  intros Hs. split; [apply Hs|]. intros i Hi.
  pose proof (groups_well_formed i Hi) as Hg.
  apply Forall_cons in Hg as [(? & ? & ?) Hg].
  apply Forall_cons in Hg as [(? & ? & ?) Hg].
  apply Forall_cons in Hg as [(? & ? & ?) _].
  split_and!; by apply group_permutation.
Qed.

(** A grid is solved when a finite check of its cells succeeds. *)
Lemma solved_by_check g :
  wf_grid g →
  Forall (λ p, cell g p ∈ Some <$> digits) all_cells →
  Forall (λ p, Forall (λ q, q = p ∨ cell g q ≠ cell g p)
                      (group_cells p.1 p.2)) all_cells →
  solved g.
Proof.
  intros Hwf Hdig Hgroups. rewrite Forall_forall in Hdig, Hgroups.
  split; [done|]. split.
  - intros r c Hr Hc.
    assert ((r, c) ∈ all_cells) as Hin by (by apply elem_of_all_cells).
    apply Hdig in Hin. apply list_elem_of_fmap in Hin as (v & Hv & Hd).
    exists v. split; [done|]. by apply elem_of_digits.
  - intros r c r' c' v Hr Hc Hr' Hc' Hne Hpeer Hv Hcell Hcell'.
    assert ((r, c) ∈ all_cells) as Hin by (by apply elem_of_all_cells).
    apply Hgroups in Hin. simpl in Hin. rewrite Forall_forall in Hin.
    destruct (Hin (r', c')) as [|Hdiff]; [|done|congruence].
    by apply elem_of_group_cells.
Qed.

Lemma sample_solution_solved : solved sample_solution.
Proof.
  apply solved_by_check; apply (bool_decide_unpack _); vm_compute; reflexivity.
Qed.

Lemma empty_board_wf : wf_grid empty_board.
Proof. apply (bool_decide_unpack _); vm_compute; reflexivity. Qed.

Lemma empty_board_cell r c : r < 9 → c < 9 → cell empty_board (r, c) = Some 0%Z.
Proof.
  intros Hr Hc. unfold cell, empty_board; cbn [fst snd].
  rewrite lookup_replicate_2 by done. by rewrite lookup_replicate_2.
Qed.

Lemma empty_board_partial : partial_grid empty_board.
Proof.
  split.
  - intros r c Hr Hc. exists 0%Z. split; [by apply empty_board_cell|lia].
  - intros r c r' c' v Hr Hc _ _ _ _ Hv Hcell.
    rewrite empty_board_cell in Hcell by done. congruence.
Qed.

(** ** More fuel changes nothing *)

Lemma try_nums_mono (rec rec' : grid → nat → res (bool * grid * nat)) r c :
  (∀ b k x, rec b k = Ret x → rec' b k = Ret x) →
  ∀ nums g k x,
    try_nums rec r c nums g k = Ret x → try_nums rec' r c nums g k = Ret x.
Proof.
  intros Hrec. induction nums as [|num rest IH]; intros g k x;
    cbn [try_nums]; [done|].
  intros (ok & Hok & H)%bind_Ret. rewrite Hok; cbn [bind].
  destruct ok; [|by auto].
  apply bind_Ret in H as (b1 & Hb1 & H). rewrite Hb1; cbn [bind].
  apply bind_Ret in H as ([[found b2] k2] & Hrec1 & H).
  rewrite (Hrec _ _ _ Hrec1); cbn [bind]. destruct found; [done|].
  apply bind_Ret in H as (b3 & Hb3 & H). rewrite Hb3; cbn [bind]. auto.
Qed.

Lemma solve_mono rand fuel :
  ∀ fuel' g k x,
    fuel ≤ fuel' → solve fuel rand g k = Ret x → solve fuel' rand g k = Ret x.
Proof.
  induction fuel as [|fuel IH]; intros fuel' g k x Hle; [done|].
  destruct fuel' as [|fuel']; [lia|]. cbn [solve].
  intros (e & He & H)%bind_Ret. rewrite He; cbn [bind].
  destruct e as [[r c]|]; [|done].
  destruct (shuffle rand k) as [nums k1].
  eapply try_nums_mono; [|exact H].
  intros b k0 y. apply IH. lia.
Qed.

(** ** The generator *)

Lemma solve_empty_board fuel rand k :
  82 ≤ fuel →
  ∃ g' k', solve fuel rand empty_board k = Ret (true, g', k') ∧ solved g'.
Proof.
  intros Hfuel. pose proof (empties_bound empty_board) as Hb.
  destruct (solve_spec fuel rand empty_board k empty_board_wf ltac:(lia))
    as (b & g' & k' & E & _ & Hpost).
  specialize (Hpost empty_board_partial). destruct b.
  - exists g', k'. split; [done|]. apply Hpost.
  - exfalso. apply (Hpost sample_solution sample_solution_solved).
    intros r c Hr Hc. left. by apply empty_board_cell.
Qed.

(** C6: started on the all-zero board, [solve] terminates (82 levels of
    recursion are enough, whatever the random draws) and its top-level
    call returns [true], with every cell filled with a digit 1..9 and
    every row, column and box a permutation of 1..9. *)
Theorem solve_empty_board_succeeds (fuel : nat) (rand : nat → nat) (k : nat) :
  82 ≤ fuel →
  ∃ g' k', solve fuel rand empty_board k = Ret (true, g', k') ∧
           (∀ r c, r < 9 → c < 9 →
                   ∃ v, cell g' (r, c) = Some v ∧ (1 ≤ v ≤ 9)%Z) ∧
           valid_solution g'.
Proof.
  intros Hfuel.
  destruct (solve_empty_board fuel rand k Hfuel) as (g' & k' & E & Hs).
  exists g', k'. split; [done|]. split; [apply Hs|by apply solved_valid].
Qed.

Lemma solve_empty_board_succeeds_witness :
  ∃ g' k', solve 82 (λ _, 0) empty_board 0 = Ret (true, g', k') ∧
           (∀ r c, r < 9 → c < 9 →
                   ∃ v, cell g' (r, c) = Some v ∧ (1 ≤ v ≤ 9)%Z) ∧
           valid_solution g'.
Proof. apply (solve_empty_board_succeeds 82 (λ _, 0) 0). lia. Defined.

(** C2: the generator returns a grid (82 levels of recursion are
    enough); the grid is fully populated with digits 1..9 and every row,
    column and box of it is a permutation of 1..9; a run with any other
    budget that returns, returns the same grid. *)
Theorem generateValidSudoku_valid (fuel : nat) (rand : nat → nat) (k : nat) :
  82 ≤ fuel →
  ∃ g k', generateValidSudoku fuel rand k = Ret (g, k') ∧
          (∀ r c, r < 9 → c < 9 →
                  ∃ v, cell g (r, c) = Some v ∧ (1 ≤ v ≤ 9)%Z) ∧
          valid_solution g ∧
          (∀ fuel2 g2 k2, generateValidSudoku fuel2 rand k = Ret (g2, k2) →
                          g2 = g ∧ k2 = k').
Proof.
  intros Hfuel.
  destruct (solve_empty_board fuel rand k Hfuel) as (g & k' & E & Hs).
  exists g, k'. unfold generateValidSudoku. rewrite E; cbn [bind].
  split_and!; [done|apply Hs|by apply solved_valid|].
  intros fuel2 g2 k2 ([[b2 g2'] k2'] & E2 & H)%bind_Ret. simplify_eq.
  apply (solve_mono rand fuel (fuel `max` fuel2)) in E; [|lia].
  apply (solve_mono rand fuel2 (fuel `max` fuel2)) in E2; [|lia].
  rewrite E in E2. by simplify_eq.
Qed.

Lemma generateValidSudoku_valid_witness :
  ∃ g k', generateValidSudoku 82 (λ _, 0) 0 = Ret (g, k') ∧
          (∀ r c, r < 9 → c < 9 →
                  ∃ v, cell g (r, c) = Some v ∧ (1 ≤ v ≤ 9)%Z) ∧
          valid_solution g ∧
          (∀ fuel2 g2 k2, generateValidSudoku fuel2 (λ _, 0) 0 = Ret (g2, k2) →
                          g2 = g ∧ k2 = k').
Proof. apply (generateValidSudoku_valid 82 (λ _, 0) 0). lia. Defined.

(** With a source that always draws 0 the generator makes 3128 draws and
    returns [sample_solution]. *)
Example generateValidSudoku_zero_rand :
  generateValidSudoku 82 zero_rand 0 = Ret (sample_solution, 3128).
Proof. vm_compute. reflexivity. Qed.

(** C7: on every 9x9 grid, partially filled or not, [solve] returns a
    boolean and does not throw (one level of recursion per empty cell,
    plus one, is enough), and whenever it returns [false] the grid is
    exactly as it was at entry. *)
Theorem solve_failure_restores
    (fuel : nat) (rand : nat → nat) (g : grid) (k : nat) :
  wf_grid g → empties g < fuel →
  (∃ b g' k', solve fuel rand g k = Ret (b, g', k')) ∧
  (∀ g' k', solve fuel rand g k = Ret (false, g', k') → g' = g).
Proof.
  intros Hwf Hfuel. split.
  - destruct (solve_spec fuel rand g k Hwf Hfuel) as (b & g' & k' & E & _).
    eauto.
  - apply solve_restore.
Qed.

Lemma solve_failure_restores_witness :
  ((∃ b g' k', solve 82 (λ _, 0) dead_end_grid 0 = Ret (b, g', k')) ∧
   (∀ g' k', solve 82 (λ _, 0) dead_end_grid 0 = Ret (false, g', k') →
             g' = dead_end_grid)) ∧
  solve 82 (λ _, 0) dead_end_grid 0 = Ret (false, dead_end_grid, 8).
Proof.
  split.
  - apply (solve_failure_restores 82 (λ _, 0) dead_end_grid 0).
    + apply (bool_decide_unpack _); vm_compute; reflexivity.
    + pose proof (empties_bound dead_end_grid). lia.
  - vm_compute. reflexivity.
Defined.

(** * The session *)

(** ** Rows in the heap *)

Lemma grid_of_lookup (h : gmap loc (list Z)) (g : list loc) r l cells :
  g !! r = Some l → h !! l = Some cells → grid_of h g !! r = Some cells.
Proof.
  intros Hg Hl. unfold grid_of. rewrite list_lookup_fmap, Hg. simpl.
  by rewrite Hl.
Qed.

Lemma hread_Ret (h : gmap loc (list Z)) (g : list loc) r c v :
  hread h g r c = Ret v → v = cell (grid_of h g) (r, c).
Proof.
  unfold hread, cell. cbn [fst snd].
  destruct (g !! r) as [l|] eqn:Hg; [|done].
  destruct (h !! l) as [cells|] eqn:Hl; [|done].
  intros [= <-]. by rewrite (grid_of_lookup h g r l cells).
Qed.

Lemma length_grid_of (h : gmap loc (list Z)) (g : list loc) :
  length (grid_of h g) = length g.
Proof. unfold grid_of. by rewrite length_fmap. Qed.

Lemma hread_ok (h : gmap loc (list Z)) (g : list loc) r c :
  rows_ok h g → r < 9 → hread h g r c = Ret (cell (grid_of h g) (r, c)).
Proof.
  intros (_ & Hsome & [Hlen _]) Hr. rewrite length_grid_of in Hlen.
  destruct (lookup_lt_is_Some_2 g r) as [l Hg]; [lia|].
  destruct (Hsome l) as [cells Hl]; [by eapply list_elem_of_lookup_2|].
  unfold hread, cell. cbn [fst snd].
  by rewrite Hg, Hl, (grid_of_lookup h g r l cells).
Qed.

Lemma grid_of_agree (h h' : gmap loc (list Z)) (g : list loc) :
  (∀ l, l ∈ g → h' !! l = h !! l) → grid_of h' g = grid_of h g.
Proof.
  intros Hagree. unfold grid_of. apply list_fmap_ext.
  intros i l Hl. rewrite Hagree; [done|]. by eapply list_elem_of_lookup_2.
Qed.

Lemma rows_ok_agree (h h' : gmap loc (list Z)) (g : list loc) :
  (∀ l, l ∈ g → h' !! l = h !! l) → rows_ok h g → rows_ok h' g.
Proof.
  intros Hagree (Hnd & Hsome & Hwf). split_and!; [done| |].
  - intros l Hl. rewrite Hagree by done. auto.
  - by rewrite (grid_of_agree h h' g).
Qed.

Lemma hwrite_spec (h : gmap loc (list Z)) (g : list loc) r c v :
  rows_ok h g → r < 9 →
  ∃ h', hwrite h g r c v = Ret h' ∧
        write (grid_of h g) r c v = Ret (grid_of h' g) ∧
        dom h' = dom h ∧
        (∀ l, l ∉ g → h' !! l = h !! l).
Proof.
  intros (Hnd & Hsome & [Hlen _]) Hr. rewrite length_grid_of in Hlen.
  destruct (lookup_lt_is_Some_2 g r) as [l Hg]; [lia|].
  destruct (Hsome l) as [cells Hl]; [by eapply list_elem_of_lookup_2|].
  unfold hwrite, write. rewrite Hg, Hl, (grid_of_lookup h g r l cells Hg Hl).
  eexists. split; [done|]. split_and!.
  - f_equal. apply list_eq. intros i.
    destruct (decide (i = r)) as [->|Hne].
    + rewrite list_lookup_insert_eq by (rewrite length_grid_of; lia).
      symmetry. apply grid_of_lookup with l; [done|].
      by rewrite lookup_insert_eq.
    + rewrite list_lookup_insert_ne by done.
      unfold grid_of. rewrite !list_lookup_fmap.
      destruct (g !! i) as [l'|] eqn:Hi; [|done]. simpl.
      rewrite lookup_insert_ne; [done|].
      intros ->. apply Hne. by eapply NoDup_lookup.
  - apply dom_insert_lookup_L. eauto.
  - intros l' Hl'. rewrite lookup_insert_ne; [done|].
    intros ->. apply Hl'. by eapply list_elem_of_lookup_2.
Qed.

Lemma load_rows_ok (h : gmap loc (list Z)) (g : list loc) :
  (∀ l, l ∈ g → is_Some (h !! l)) → load_rows h g = Ret (grid_of h g).
Proof.
  induction g as [|l g IH]; intros Hsome; [done|]. cbn [load_rows].
  destruct (Hsome l) as [cells Hl]; [left|]. rewrite Hl.
  rewrite IH by (intros; apply Hsome; by right). cbn [bind].
  unfold grid_of. cbn [fmap list_fmap]. by rewrite Hl.
Qed.

Lemma store_rows_spec (rows : grid) :
  ∀ (h h' : gmap loc (list Z)) (ls : list loc),
    store_rows h rows = (h', ls) →
    h ⊆ h' ∧ NoDup ls ∧ (∀ l, l ∈ ls → l ∉ dom h) ∧
    (∀ l, l ∈ ls → is_Some (h' !! l)) ∧ grid_of h' ls = rows.
Proof.
  induction rows as [|cells rest IH]; intros h h' ls; cbn [store_rows].
  - intros [= <- <-]. split_and!; [done|constructor|..|done];
      intros l Hl; by apply elem_of_nil in Hl.
  - destruct (store_rows (<[fresh (dom h) := cells]> h) rest)
      as [h1 ls1] eqn:Hst.
    intros [= <- <-].
    destruct (IH _ _ _ Hst) as (Hsub & Hnd & Hfresh & Hsome & Hgrid).
    pose proof (is_fresh (dom h)) as Hnew.
    assert (h !! fresh (dom h) = None) as Hnone
      by (by apply not_elem_of_dom).
    assert (h1 !! fresh (dom h) = Some cells) as Hl.
    { eapply lookup_weaken; [|exact Hsub]. by rewrite lookup_insert_eq. }
    split_and!.
    + etrans; [|exact Hsub]. by apply insert_subseteq.
    + apply NoDup_cons. split; [|done]. intros Hin.
      apply Hfresh in Hin. apply Hin. rewrite dom_insert_L.
      apply elem_of_union. left. by apply elem_of_singleton.
    + intros l [->|Hin]%elem_of_cons; [done|].
      apply Hfresh in Hin. contradict Hin. rewrite dom_insert_L.
      apply elem_of_union. by right.
    + intros l [->|Hin]%elem_of_cons; [eauto|auto].
    + unfold grid_of in *. cbn [fmap list_fmap]. rewrite Hl. simpl.
      by f_equal.
Qed.

Lemma copy_rows_spec (h : gmap loc (list Z)) (g : list loc) :
  rows_ok h g →
  ∃ h' g', copy_rows h g = Ret (h', g') ∧
           h ⊆ h' ∧ (∀ l, l ∈ g' → l ∉ dom h) ∧
           rows_ok h' g' ∧ grid_of h' g' = grid_of h g.
Proof.
  intros (Hnd & Hsome & Hwf). unfold copy_rows.
  rewrite load_rows_ok by done. cbn [bind].
  destruct (store_rows h (grid_of h g)) as [h' g'] eqn:Hst.
  destruct (store_rows_spec _ _ _ _ Hst) as (Hsub & Hnd' & Hfresh & Hs & Hg).
  exists h', g'. split_and!; try done. split_and!; try done.
  by rewrite Hg.
Qed.

(** Rows that exist keep their contents when the heap grows. *)
Lemma rows_ok_weaken (h h' : gmap loc (list Z)) (g : list loc) :
  h ⊆ h' → rows_ok h g → rows_ok h' g ∧ grid_of h' g = grid_of h g.
Proof.
  intros Hsub Hok.
  assert (∀ l, l ∈ g → h' !! l = h !! l) as Hagree.
  { intros l Hl. destruct Hok as (_ & Hsome & _).
    destruct (Hsome l Hl) as [cells Hcells]. rewrite Hcells.
    by eapply lookup_weaken. }
  split; [by eapply rows_ok_agree|by apply grid_of_agree].
Qed.

Lemma fresh_rows_disjoint (h : gmap loc (list Z)) (g g' : list loc) :
  rows_ok h g → (∀ l, l ∈ g' → l ∉ dom h) → g ## g'.
Proof.
  intros (_ & Hsome & _) Hfresh l Hl Hl'.
  apply (Hfresh l Hl'). apply elem_of_dom. auto.
Qed.

(** ** The removal loop *)

Lemma random_below_9 rand k : random_below rand k 9 < 9.
Proof. unfold random_below. apply Nat.mod_upper_bound. lia. Qed.

Lemma count_nonzero_write g r c g' :
  r < 9 → c < 9 → is_Some (cell g (r, c)) → cell g (r, c) ≠ Some 0%Z →
  write g r c 0 = Ret g' → count_nonzero g = S (count_nonzero g').
Proof.
  intros Hr Hc Hsome Hcell Hw. unfold count_nonzero.
  apply (filter_length_drop_one _ _ _ (r, c)).
  - apply NoDup_all_cells.
  - by apply elem_of_all_cells.
  - done.
  - rewrite (cell_write _ _ _ _ _ _ Hw) by done.
    rewrite decide_True by done. auto.
  - intros p Hp. rewrite (cell_write _ _ _ _ _ _ Hw) by done.
    by rewrite decide_False.
Qed.

Lemma count_nonzero_complete g : complete_grid g → count_nonzero g = 81.
Proof.
  intros [_ Hfull]. unfold count_nonzero.
  rewrite (filter_length_agree _ (λ _, True)).
  - by vm_compute.
  - intros [r c] [Hr Hc]%elem_of_all_cells. split; auto.
Qed.

Lemma count_nonzero_pos g :
  0 < count_nonzero g →
  ∃ r c, r < 9 ∧ c < 9 ∧ cell g (r, c) ≠ Some 0%Z.
Proof.
  unfold count_nonzero. intros Hpos.
  destruct (filter _ all_cells) as [|[r c] rest] eqn:Hf; [simpl in Hpos; lia|].
  assert ((r, c) ∈ filter (λ p, cell g p ≠ Some 0%Z) all_cells) as Hin
    by (rewrite Hf; left).
  apply list_elem_of_filter in Hin as [Hnz [Hr Hc]%elem_of_all_cells].
  eauto.
Qed.

(** One write of the loop, seen on the contents of the board. *)
Lemma hwrite_zero (h : gmap loc (list Z)) (g : list loc) r c :
  rows_ok h g → r < 9 → c < 9 →
  ∃ h', hwrite h g r c 0 = Ret h' ∧ rows_ok h' g ∧ dom h' = dom h ∧
        (∀ l, l ∉ g → h' !! l = h !! l) ∧
        (∀ p, cell (grid_of h' g) p =
              if decide (p = (r, c)) then Some 0%Z else cell (grid_of h g) p) ∧
        (cell (grid_of h g) (r, c) ≠ Some 0%Z →
         count_nonzero (grid_of h g) = S (count_nonzero (grid_of h' g))).
Proof.
  intros Hok Hr Hc.
  destruct (hwrite_spec h g r c 0 Hok Hr) as (h' & E & Hw & Hdom & Hframe).
  pose proof Hok as (Hnd & Hsome & Hwf).
  destruct (wf_cell _ r c Hwf Hr Hc) as [z Hz].
  exists h'. split_and!; try done.
  - split_and!; [done| |by eapply write_wf].
    intros l Hl. apply elem_of_dom. rewrite Hdom. apply elem_of_dom. auto.
  - intros p. apply (cell_write _ _ _ _ _ _ Hw). eauto.
  - intros Hnz. apply (count_nonzero_write _ r c); eauto.
Qed.

(** What the loop has done when it returns, whatever the draws. *)
Lemma removal_loop_Ret fuel rand c (g : list loc) :
  ∀ (h : gmap loc (list Z)) removed k h' k',
    rows_ok h g →
    removal_loop fuel rand c h g removed k = Ret (h', k') →
    rows_ok h' g ∧ dom h' = dom h ∧ (∀ l, l ∉ g → h' !! l = h !! l) ∧
    (∀ p, cell (grid_of h' g) p = Some 0%Z ∨
          cell (grid_of h' g) p = cell (grid_of h g) p) ∧
    (Z.of_nat (count_nonzero (grid_of h g)) =
     Z.of_nat (count_nonzero (grid_of h' g)) + Z.max 0 (81 - c - removed))%Z.
Proof.
  induction fuel as [|fuel IH]; intros h removed k h' k' Hok; cbn [removal_loop];
    (case_decide as Hcond;
     [|intros [= <- <-]; split_and!; auto; lia]); [done|].
  intros (v & Hread & H)%bind_Ret. apply hread_Ret in Hread.
  pose proof (random_below_9 rand k) as Hr.
  pose proof (random_below_9 rand (S k)) as Hc.
  case_decide as Hv.
  - destruct (hwrite_zero h g _ _ Hok Hr Hc)
      as (h1 & E & Hok1 & Hdom & Hframe & Hcell & Hcount).
    rewrite E in H; cbn [bind] in H.
    destruct (IH _ _ _ _ _ Hok1 H) as (Hok' & Hdom' & Hframe' & Hsub & Hcnt).
    split_and!; [done|congruence| | |].
    + intros l Hl. rewrite Hframe', Hframe; done.
    + intros p. destruct (Hsub p) as [|Heq]; [by left|].
      rewrite Heq, Hcell. case_decide; auto.
    + rewrite Hcount by congruence. lia.
  - apply (IH _ _ _ _ _ Hok H).
Qed.

Lemma fair_from_shift rand k j : fair_from rand k → fair_from rand (k + 2 * j).
Proof.
  intros Hfair m row col Hrow Hcol.
  destruct (Hfair (m + j) row col Hrow Hcol) as (n & Hn & H1 & H2).
  exists (n - j). split; [lia|].
  replace (k + 2 * j + 2 * (n - j)) with (k + 2 * n) by lia. done.
Qed.

(** When a later pair of draws hits a clue, the loop removes a clue. *)
Lemma removal_progress rand c (g : list loc) (h : gmap loc (list Z)) removed :
  rows_ok h g → (removed < 81 - c)%Z →
  ∀ n k,
    cell (grid_of h g)
         (random_below rand (k + 2 * n) 9, random_below rand (S (k + 2 * n)) 9)
      ≠ Some 0%Z →
    ∃ j h1, rows_ok h1 g ∧
            count_nonzero (grid_of h g) = S (count_nonzero (grid_of h1 g)) ∧
            ∀ fuel, removal_loop (S j + fuel) rand c h g removed k =
                    removal_loop fuel rand c h1 g (removed + 1)%Z
                                 (k + 2 * S j).
Proof.
  intros Hok Hcond n. induction n as [|n IH]; intros k Hhit.
  all: pose proof (random_below_9 rand k) as Hr.
  all: pose proof (random_below_9 rand (S k)) as Hc.
  all: destruct (decide (cell (grid_of h g)
                   (random_below rand k 9, random_below rand (S k) 9)
                 ≠ Some 0%Z)) as [Hv|Hv].
  1, 3: destruct (hwrite_zero h g _ _ Hok Hr Hc)
          as (h1 & E & Hok1 & _ & _ & _ & Hcount);
        exists 0, h1; split_and!; [done|by apply Hcount|];
        intros fuel; cbn [removal_loop Nat.add];
        rewrite decide_True by done;
        rewrite (hread_ok h g _ _ Hok Hr); cbn [bind];
        rewrite decide_True by done;
        rewrite E; cbn [bind];
        f_equal; lia.
  - exfalso. apply Hv. by rewrite !Nat.mul_0_r, !Nat.add_0_r in Hhit.
  - destruct (IH (S (S k))) as (j & h1 & Hok1 & Hcount & Heq).
    { by replace (S (S k) + 2 * n) with (k + 2 * S n) by lia. }
    exists (S j), h1. split_and!; [done..|].
    intros fuel. replace (S (S j) + fuel) with (S (S j + fuel)) by lia.
    cbn [removal_loop]. rewrite decide_True by done.
    rewrite (hread_ok h g _ _ Hok Hr); cbn [bind].
    rewrite decide_False by done. rewrite Heq. f_equal. lia.
Qed.

(** With a fair source the loop comes to an end. *)
Lemma removal_loop_terminates rand c (g : list loc) :
  ∀ m (h : gmap loc (list Z)) removed k,
    fair_from rand k → rows_ok h g →
    m = Z.to_nat (81 - c - removed) → m ≤ count_nonzero (grid_of h g) →
    ∃ fuel0 h' k',
      ∀ fuel, removal_loop (fuel0 + fuel) rand c h g removed k = Ret (h', k').
Proof.
  induction m as [|m IH]; intros h removed k Hfair Hok Hm Hcount.
  - exists 0, h, k. intros fuel. cbn [Nat.add].
    destruct fuel; cbn [removal_loop]; rewrite decide_False; (done || lia).
  - destruct (count_nonzero_pos (grid_of h g)) as (r0 & c0 & Hr0 & Hc0 & Hnz);
      [lia|].
    destruct (Hfair 0 r0 c0 Hr0 Hc0) as (n & _ & Hrow & Hcol).
    destruct (removal_progress rand c g h removed Hok ltac:(lia) n k)
      as (j & h1 & Hok1 & Hcnt & Heq).
    { by rewrite Hrow, Hcol. }
    destruct (IH h1 (removed + 1)%Z (k + 2 * S j))
      as (fuel1 & h' & k' & Hret);
      [by apply fair_from_shift|done|lia|lia|].
    exists (S j + fuel1), h', k'. intros fuel.
    replace (S j + fuel1 + fuel) with (S j + (fuel1 + fuel)) by lia.
    by rewrite Heq.
Qed.

(** ** The puzzle derivation *)

Lemma empties_count_nonzero g : empties g + count_nonzero g = 81.
Proof.
  unfold empties, count_nonzero.
  generalize all_cells_in_grid. 
  assert (length all_cells = 81) as <- by (by vm_compute).
  generalize all_cells. intros l _.
  induction l as [|p l IH]; [done|].
  rewrite !filter_cons. destruct (decide (cell g p = Some 0%Z));
    [rewrite decide_False by auto|rewrite decide_True by auto];
    simpl; lia.
Qed.

(** What a returned derivation has built. *)
Lemma derivePuzzle_Ret fuel rand clueCount st st' :
  rows_ok (heap st) (solution st) →
  derivePuzzle fuel rand clueCount st = Ret st' →
  solution st' = solution st ∧
  grid_of (heap st') (solution st') = grid_of (heap st) (solution st) ∧
  session_inv st' ∧
  grid_of (heap st') (originalBoard st') = grid_of (heap st') (board st') ∧
  (∀ p, cell (grid_of (heap st') (board st')) p = Some 0%Z ∨
        cell (grid_of (heap st') (board st')) p =
        cell (grid_of (heap st) (solution st)) p) ∧
  match clueCount with
  | Some c =>
      (Z.of_nat (count_nonzero (grid_of (heap st) (solution st))) =
       Z.of_nat (count_nonzero (grid_of (heap st') (board st'))) +
       Z.max 0 (81 - c))%Z
  | None => grid_of (heap st') (board st') = grid_of (heap st) (solution st)
  end.
Proof.
  intros Hsol. unfold derivePuzzle.
  destruct (copy_rows_spec _ _ Hsol)
    as (h1 & b & E1 & Hsub1 & Hfresh1 & Hb1 & Hgrid1).
  rewrite E1; cbn [bind].
  destruct (rows_ok_weaken _ _ _ Hsub1 Hsol) as [Hsol1 Hsolg1].
  pose proof (fresh_rows_disjoint _ _ _ Hsol Hfresh1) as Hdisj.
  intros ([h2 k2] & Hloop & H)%bind_Ret.
  assert (rows_ok h2 b ∧ (∀ l, l ∉ b → h2 !! l = h1 !! l) ∧
          (∀ p, cell (grid_of h2 b) p = Some 0%Z ∨
                cell (grid_of h2 b) p = cell (grid_of h1 b) p) ∧
          match clueCount with
          | Some c =>
              (Z.of_nat (count_nonzero (grid_of h1 b)) =
               Z.of_nat (count_nonzero (grid_of h2 b)) + Z.max 0 (81 - c))%Z
          | None => h2 = h1
          end) as (Hb2 & Hframe & Hsub & Hcount).
  { destruct clueCount as [c|].
    - destruct (removal_loop_Ret _ _ _ _ _ _ _ _ _ Hb1 Hloop)
        as (? & _ & ? & ? & Hcnt).
      split_and!; try done. rewrite Hcnt. lia.
    - injection Hloop as <- <-. split_and!; auto. }
  assert (∀ l, l ∈ solution st → h2 !! l = h1 !! l) as Hsolframe.
  { intros l Hl. apply Hframe. intros Hlb. by apply (Hdisj l). }
  pose proof (rows_ok_agree _ _ _ Hsolframe Hsol1) as Hsol2.
  pose proof (grid_of_agree _ _ _ Hsolframe) as Hsolg2.
  destruct (copy_rows_spec _ _ Hb2)
    as (h3 & o & E3 & Hsub3 & Hfresh3 & Ho3 & Hgrid3).
  rewrite E3 in H; cbn [bind] in H. injection H as <-.
  cbn [heap board solution originalBoard].
  destruct (rows_ok_weaken _ _ _ Hsub3 Hsol2) as [Hsol3 Hsolg3].
  destruct (rows_ok_weaken _ _ _ Hsub3 Hb2) as [Hb3 Hbg3].
  split_and!; [done|congruence| |congruence| |].
  - split_and!; try done.
    + intros l Hl Hl'. by apply (Hdisj l).
    + by apply (fresh_rows_disjoint h2).
  - intros p. rewrite Hbg3, <- Hgrid1. apply Hsub.
  - destruct clueCount as [c|].
    + rewrite Hbg3, <- Hgrid1. done.
    + subst h2. congruence.
Qed.

(** The derivation returns as soon as its loop does. *)
Lemma derivePuzzle_total fuel rand clueCount st h1 b :
  rows_ok (heap st) (solution st) →
  copy_rows (heap st) (solution st) = Ret (h1, b) →
  (∃ hk, match clueCount with
         | Some c => removal_loop fuel rand c h1 b 0%Z (draws st)
         | None => Ret (h1, draws st)
         end = Ret hk) →
  ∃ st', derivePuzzle fuel rand clueCount st = Ret st'.
Proof.
  intros Hsol E1 [[h2 k2] Hloop].
  destruct (copy_rows_spec _ _ Hsol) as (h1' & b' & E1' & _ & _ & Hb1 & _).
  rewrite E1 in E1'. injection E1' as <- <-.
  assert (rows_ok h2 b) as Hb2.
  { destruct clueCount as [c|].
    - by destruct (removal_loop_Ret _ _ _ _ _ _ _ _ _ Hb1 Hloop).
    - by injection Hloop as <- <-. }
  destruct (copy_rows_spec _ _ Hb2) as (h3 & o & E3 & _).
  unfold derivePuzzle. rewrite E1; cbn [bind]. rewrite Hloop; cbn [bind].
  rewrite E3; cbn [bind]. eauto.
Qed.

Lemma cycle_rand_even n : cycle_rand (2 * n) = n.
Proof.
  unfold cycle_rand. rewrite Nat.even_mul. simpl Nat.even. cbn [orb].
  rewrite Nat.mul_comm. by apply Nat.div_mul.
Qed.

Lemma cycle_rand_odd n : cycle_rand (S (2 * n)) = n / 9.
Proof.
  unfold cycle_rand. rewrite Nat.even_succ, Nat.odd_mul. simpl Nat.odd.
  cbn [andb]. f_equal. symmetry. apply (Nat.div_unique _ 2 n 1); lia.
Qed.

Lemma cycle_rand_fair : fair_from cycle_rand 0.
Proof.
  intros m row col Hrow Hcol. exists (row + 9 * (col + 9 * m)).
  split; [lia|]. unfold random_below. cbn [Nat.add].
  rewrite cycle_rand_even, cycle_rand_odd. split.
  - rewrite (Nat.mul_comm 9 (col + 9 * m)), Nat.Div0.mod_add.
    by apply Nat.mod_small.
  - rewrite (Nat.mul_comm 9 (col + 9 * m)), Nat.div_add by lia.
    rewrite (Nat.div_small row) by lia. cbn [Nat.add].
    rewrite (Nat.mul_comm 9 m), Nat.Div0.mod_add.
    by apply Nat.mod_small.
Qed.

Lemma sample_state_rows_ok :
  rows_ok (heap sample_state) (solution sample_state) ∧
  grid_of (heap sample_state) (solution sample_state) = sample_solution.
Proof.
  unfold sample_state; cbn [heap solution].
  destruct (store_rows ∅ sample_solution) as [h s] eqn:Hst.
  destruct (store_rows_spec _ _ _ _ Hst) as (_ & Hnd & _ & Hsome & Hgrid).
  cbn [fst snd]. split; [|done]. split_and!; [done..|].
  rewrite Hgrid. apply sample_solution_solved.
Qed.

Lemma solved_complete g : solved g → complete_grid g.
Proof.
  intros (Hwf & Hdig & _). split; [done|]. intros r c Hr Hc.
  destruct (Hdig r c Hr Hc) as (v & -> & Hv). intros [= ->]. lia.
Qed.

Lemma sample_state_complete :
  complete_grid (grid_of (heap sample_state) (solution sample_state)).
Proof.
  destruct sample_state_rows_ok as [_ ->].
  apply solved_complete, sample_solution_solved.
Qed.

Lemma removal_loop_stuck fuel c (g : list loc) :
  ∀ (h : gmap loc (list Z)) removed k,
    rows_ok h g → (removed < 81 - c)%Z →
    cell (grid_of h g) (0, 0) = Some 0%Z →
    removal_loop fuel zero_rand c h g removed k = OutOfFuel.
Proof.
  induction fuel as [|fuel IH]; intros h removed k Hok Hcond Hcell;
    cbn [removal_loop]; rewrite decide_True by done; [done|].
  change (random_below zero_rand k 9) with 0.
  change (random_below zero_rand (S k) 9) with 0.
  rewrite (hread_ok h g _ _ Hok) by lia. cbn [bind].
  rewrite decide_False by auto. by apply IH.
Qed.

Lemma removal_loop_zero_rand fuel c (h : gmap loc (list Z)) (g : list loc) k :
  (c ≤ 79)%Z → rows_ok h g →
  removal_loop fuel zero_rand c h g 0%Z k = OutOfFuel.
Proof.
  intros Hc Hok. destruct fuel as [|fuel]; cbn [removal_loop];
    rewrite decide_True by lia; [done|].
  change (random_below zero_rand k 9) with 0.
  change (random_below zero_rand (S k) 9) with 0.
  rewrite (hread_ok h g _ _ Hok) by lia. cbn [bind]. case_decide as Hv.
  - destruct (hwrite_zero h g 0 0 Hok) as (h1 & E & Hok1 & _ & _ & Hcell & _);
      [lia..|].
    rewrite E; cbn [bind]. apply removal_loop_stuck; [done|lia|].
    rewrite Hcell. by rewrite decide_True.
  - apply removal_loop_stuck; [done|lia|].
    by destruct (decide (cell (grid_of h g) (0, 0) = Some 0%Z)).
Qed.

(** C3, as stated, fails: the loop draws cells until it has hit enough
    clues, and a source that draws the cell (0,0) every time never lets
    it remove a second clue.  With 79 clues asked for, no budget makes
    the derivation return. *)
Lemma derivePuzzle_may_not_terminate :
  ¬ ∃ fuel st',
      derivePuzzle fuel zero_rand (Some 79%Z) sample_state = Ret st'.
Proof.
  intros (fuel & st' & Hret).
  destruct sample_state_rows_ok as [Hsol _].
  destruct (copy_rows_spec _ _ Hsol) as (h1 & b & E1 & _ & _ & Hb1 & _).
  unfold derivePuzzle in Hret. rewrite E1 in Hret; cbn [bind] in Hret.
  rewrite removal_loop_zero_rand in Hret by (done || lia).
  cbn [bind] in Hret. discriminate Hret.
Qed.

(** C3, amended: for every complete solution grid and every clue count
    C in [0,81], whenever the derivation returns, the puzzle has exactly
    C non-zero cells and 81 - C zero cells; and it does return (from some
    budget on, every run returns) when the random source keeps hitting
    every cell, as uniform draws do with probability 1. *)
Theorem derivePuzzle_clue_count
    (rand : nat → nat) (c : Z) (st : gameState) :
  rows_ok (heap st) (solution st) →
  complete_grid (grid_of (heap st) (solution st)) →
  (0 ≤ c ≤ 81)%Z →
  (∀ fuel st',
     derivePuzzle fuel rand (Some c) st = Ret st' →
     count_nonzero (grid_of (heap st') (board st')) = Z.to_nat c ∧
     empties (grid_of (heap st') (board st')) = 81 - Z.to_nat c) ∧
  (fair_from rand (draws st) →
   ∃ fuel0, ∀ fuel, fuel0 ≤ fuel →
     ∃ st', derivePuzzle fuel rand (Some c) st = Ret st').
Proof.
  intros Hsol Hfull Hc.
  pose proof (count_nonzero_complete _ Hfull) as H81. split.
  - intros fuel st' Hst'.
    destruct (derivePuzzle_Ret _ _ _ _ _ Hsol Hst')
      as (_ & _ & _ & _ & _ & Hcnt).
    rewrite H81 in Hcnt.
    pose proof (empties_count_nonzero (grid_of (heap st') (board st'))).
    lia.
  - intros Hfair.
    destruct (copy_rows_spec _ _ Hsol)
      as (h1 & b & E1 & _ & _ & Hb1 & Hgrid1).
    destruct (removal_loop_terminates rand c b (Z.to_nat (81 - c - 0)) h1 0%Z
                (draws st) Hfair Hb1 eq_refl) as (fuel0 & h2 & k2 & Hloop).
    { rewrite Hgrid1, H81. lia. }
    exists fuel0. intros fuel Hfuel.
    apply (derivePuzzle_total fuel rand (Some c) st h1 b Hsol E1).
    exists (h2, k2). replace fuel with (fuel0 + (fuel - fuel0)) by lia.
    apply Hloop.
Qed.

Lemma derivePuzzle_clue_count_witness :
  (∀ fuel st',
     derivePuzzle fuel cycle_rand (Some 30%Z) sample_state = Ret st' →
     count_nonzero (grid_of (heap st') (board st')) = Z.to_nat 30 ∧
     empties (grid_of (heap st') (board st')) = 81 - Z.to_nat 30) ∧
  (∃ fuel0, ∀ fuel, fuel0 ≤ fuel →
     ∃ st', derivePuzzle fuel cycle_rand (Some 30%Z) sample_state = Ret st').
Proof.
  destruct (derivePuzzle_clue_count cycle_rand 30 sample_state)
    as [Hcount Hends].
  - apply sample_state_rows_ok.
  - apply sample_state_complete.
  - lia.
  - split; [exact Hcount|]. apply Hends, cycle_rand_fair.
Defined.

(** C4: in every derived puzzle each cell is 0 or holds the value of
    the solution at that position; the solution itself is untouched by
    the derivation, and when the solution is complete the zero cells of
    the puzzle are exactly the cells where it differs from the solution,
    the removed clues. *)
Theorem derivePuzzle_subset
    (fuel : nat) (rand : nat → nat) (clueCount : option Z)
    (st st' : gameState) :
  rows_ok (heap st) (solution st) →
  derivePuzzle fuel rand clueCount st = Ret st' →
  grid_of (heap st') (solution st') = grid_of (heap st) (solution st) ∧
  (∀ r c, r < 9 → c < 9 →
     cell (grid_of (heap st') (board st')) (r, c) = Some 0%Z ∨
     cell (grid_of (heap st') (board st')) (r, c) =
     cell (grid_of (heap st') (solution st')) (r, c)) ∧
  (complete_grid (grid_of (heap st) (solution st)) →
   ∀ r c, r < 9 → c < 9 →
     cell (grid_of (heap st') (board st')) (r, c) = Some 0%Z ↔
     cell (grid_of (heap st') (board st')) (r, c) ≠
     cell (grid_of (heap st') (solution st')) (r, c)).
Proof.
  intros Hsol Hret.
  destruct (derivePuzzle_Ret _ _ _ _ _ Hsol Hret)
    as (_ & Hsolg & _ & _ & Hsub & _).
  rewrite Hsolg. split_and!; [done|auto|].
  intros [_ Hfull] r c Hr Hc. specialize (Hfull r c Hr Hc).
  destruct (Hsub (r, c)) as [H0|Heq].
  - split; [|done]. intros _. congruence.
  - split; [|done]. intros H0. congruence.
Qed.

Lemma derivePuzzle_subset_witness :
  match derivePuzzle 60 cycle_rand (Some 30%Z) sample_state with
  | Ret st' =>
      grid_of (heap st') (solution st') = sample_solution ∧
      count_nonzero (grid_of (heap st') (board st')) = 30 ∧
      ∀ r c, r < 9 → c < 9 →
        cell (grid_of (heap st') (board st')) (r, c) = Some 0%Z ∨
        cell (grid_of (heap st') (board st')) (r, c) =
        cell (grid_of (heap st') (solution st')) (r, c)
  | _ => False
  end.
Proof.
  destruct (derivePuzzle 60 cycle_rand (Some 30%Z) sample_state)
    as [st'| |] eqn:E.
  - destruct (derivePuzzle_subset 60 cycle_rand (Some 30%Z) sample_state st')
      as (Hsol & Hsub & _); [apply sample_state_rows_ok|exact E|].
    split_and!; [|vm_compute in E; injection E as <-; by vm_compute|done].
    rewrite Hsol. apply sample_state_rows_ok.
  - vm_compute in E. discriminate.
  - vm_compute in E. discriminate.
Defined.

(** ** Clue counts outside [0,81] *)

Lemma removal_loop_not_entered fuel rand c (h : gmap loc (list Z)) g removed k :
  ¬ (removed < 81 - c)%Z → removal_loop fuel rand c h g removed k = Ret (h, k).
Proof. intros Hc. destruct fuel; cbn [removal_loop]; by rewrite decide_False. Qed.

Lemma removal_loop_never_left fuel rand c (g : list loc) :
  (c < 0)%Z →
  ∀ (h : gmap loc (list Z)) removed k,
    rows_ok h g →
    (Z.of_nat (count_nonzero (grid_of h g)) + removed = 81)%Z →
    removal_loop fuel rand c h g removed k = OutOfFuel.
Proof.
  intros Hc. induction fuel as [|fuel IH]; intros h removed k Hok Hinv;
    cbn [removal_loop]; rewrite decide_True by lia; [done|].
  pose proof (random_below_9 rand k) as Hrow.
  pose proof (random_below_9 rand (S k)) as Hcol.
  rewrite (hread_ok h g _ _ Hok Hrow); cbn [bind]. case_decide as Hv.
  - destruct (hwrite_zero h g _ _ Hok Hrow Hcol)
      as (h1 & E & Hok1 & _ & _ & _ & Hcount).
    rewrite E; cbn [bind]. apply IH; [done|]. rewrite Hcount in Hinv by done.
    lia.
  - by apply IH.
Qed.

(** C5, as stated, fails: with a clue count of 82 the derivation raises
    no error; it returns a puzzle, the whole solution. *)
Lemma derivePuzzle_no_range_check :
  derivePuzzle 0 zero_rand (Some 82%Z) sample_state ≠ Throw ∧
  ∃ st', derivePuzzle 0 zero_rand (Some 82%Z) sample_state = Ret st' ∧
         grid_of (heap st') (board st') = sample_solution.
Proof.
  destruct (derivePuzzle 0 zero_rand (Some 82%Z) sample_state)
    as [st'| |] eqn:E.
  - split; [done|]. exists st'. split; [done|].
    vm_compute in E. injection E as <-. vm_compute. reflexivity.
  - vm_compute in E. discriminate.
  - vm_compute in E. discriminate.
Qed.

(** C5, amended: the derivation has no range check and raises no error
    for a clue count outside [0,81].  Above 81 the loop is not entered:
    the derivation returns, no draw is made and the puzzle is the whole
    solution.  Below 0, on a complete solution, the loop is entered and
    never left, whatever the budget and the draws. *)
Theorem derivePuzzle_out_of_range
    (fuel : nat) (rand : nat → nat) (st : gameState) (hi lo : Z) :
  rows_ok (heap st) (solution st) →
  complete_grid (grid_of (heap st) (solution st)) →
  (81 < hi)%Z → (lo < 0)%Z →
  (∃ st', derivePuzzle fuel rand (Some hi) st = Ret st' ∧
          grid_of (heap st') (board st') = grid_of (heap st) (solution st) ∧
          draws st' = draws st) ∧
  derivePuzzle fuel rand (Some lo) st = OutOfFuel.
Proof.
  intros Hsol Hfull Hhi Hlo.
  destruct (copy_rows_spec _ _ Hsol) as (h1 & b & E1 & _ & _ & Hb1 & Hgrid1).
  split.
  - destruct (copy_rows_spec _ _ Hb1) as (h3 & o & E3 & Hsub3 & _).
    unfold derivePuzzle. rewrite E1; cbn [bind].
    rewrite removal_loop_not_entered by lia. cbn [bind].
    rewrite E3; cbn [bind]. eexists. split; [done|].
    cbn [heap board draws]. split; [|done].
    destruct (rows_ok_weaken _ _ _ Hsub3 Hb1) as [_ ->]. done.
  - unfold derivePuzzle. rewrite E1; cbn [bind].
    rewrite (removal_loop_never_left fuel rand lo b Hlo); [done..|].
    rewrite Hgrid1, (count_nonzero_complete _ Hfull). lia.
Qed.

Lemma derivePuzzle_out_of_range_witness :
  (∃ st', derivePuzzle 5 zero_rand (Some 82%Z) sample_state = Ret st' ∧
          grid_of (heap st') (board st') =
          grid_of (heap sample_state) (solution sample_state) ∧
          draws st' = draws sample_state) ∧
  derivePuzzle 5 zero_rand (Some (-1)%Z) sample_state = OutOfFuel.
Proof.
  apply (derivePuzzle_out_of_range 5 zero_rand sample_state 82 (-1)).
  - apply sample_state_rows_ok.
  - apply sample_state_complete.
  - lia.
  - lia.
Defined.

(** ** The moves of the player *)

Lemma preserved_refl st : session_inv st → preserved st st.
Proof. intros Hinv. by split_and!. Qed.

Lemma preserved_trans st1 st2 st3 :
  preserved st1 st2 → preserved st2 st3 → preserved st1 st3.
Proof.
  intros (_ & Es & Eo & Gs & Go) (Hinv & Es' & Eo' & Gs' & Go').
  split_and!; [done|congruence..].
Qed.

(** A state that differs from [st] in rows of the board only. *)
Lemma heap_update_preserved st st' :
  session_inv st →
  board st' = board st → solution st' = solution st →
  originalBoard st' = originalBoard st →
  dom (heap st') = dom (heap st) →
  (∀ l, l ∉ board st → heap st' !! l = heap st !! l) →
  wf_grid (grid_of (heap st') (board st')) →
  preserved st st'.
Proof.
  intros (Hb & Hs & Ho & Hbs & Hbo) Eb Es Eo Hdom Hframe Hwf.
  assert (∀ l, l ∈ solution st → heap st' !! l = heap st !! l) as Hfs.
  { intros l Hl. apply Hframe. intros Hlb. by apply (Hbs l). }
  assert (∀ l, l ∈ originalBoard st → heap st' !! l = heap st !! l) as Hfo.
  { intros l Hl. apply Hframe. intros Hlb. by apply (Hbo l). }
  unfold preserved, session_inv. rewrite Es, Eo, Eb in *.
  split_and!; try done.
  - destruct Hb as (Hnd & Hsome & _). split_and!; [done| |done].
    intros l Hl. apply elem_of_dom. rewrite Hdom. apply elem_of_dom. auto.
  - by apply (rows_ok_agree (heap st)).
  - by apply (rows_ok_agree (heap st)).
  - by apply grid_of_agree.
  - by apply grid_of_agree.
Qed.

(** [board[row][col] = num] in a session. *)
Lemma board_write st r c v :
  session_inv st → r < 9 →
  ∃ h', hwrite (heap st) (board st) r c v = Ret h' ∧
        write (grid_of (heap st) (board st)) r c v =
        Ret (grid_of h' (board st)) ∧
        ∀ st', heap st' = h' → board st' = board st →
               solution st' = solution st →
               originalBoard st' = originalBoard st → preserved st st'.
Proof.
  intros Hinv Hr. pose proof Hinv as (Hb & _).
  destruct (hwrite_spec _ _ r c v Hb Hr) as (h' & E & Hw & Hdom & Hframe).
  exists h'. split_and!; [done..|].
  intros st' Eh Eb Es Eo. apply heap_update_preserved; try done.
  - by rewrite Eh.
  - by rewrite Eh.
  - rewrite Eh, Eb. eapply write_wf; [exact Hw|apply Hb].
Qed.

Lemma all_equal_spec (h : gmap loc (list Z)) (b s : list loc) cells :
  rows_ok h b → rows_ok h s → Forall (λ p, p.1 < 9 ∧ p.2 < 9) cells →
  ∃ r, all_equal h b s cells = Ret r ∧
       (r = true ↔
        Forall (λ p, cell (grid_of h b) p = cell (grid_of h s) p) cells).
Proof.
  intros Hb Hs. induction cells as [|[i j] rest IH]; intros Hin.
  - exists true. split; [done|]. split; auto.
  - apply Forall_cons in Hin as [[Hi Hj] Hin]. simpl in Hi, Hj.
    destruct (IH Hin) as (r & Hr & Hiff). cbn [all_equal].
    rewrite (hread_ok h b i j Hb Hi), (hread_ok h s i j Hs Hi). cbn [bind].
    case_decide as Hne.
    + exists false. split; [done|]. split; [done|].
      intros [Heq _]%Forall_cons. done.
    + exists r. split; [done|]. rewrite Hiff, Forall_cons.
      assert (cell (grid_of h b) (i, j) = cell (grid_of h s) (i, j))
        by (by destruct (decide (cell (grid_of h b) (i, j) =
                                 cell (grid_of h s) (i, j)))).
      tauto.
Qed.

Lemma isPuzzleComplete_spec st :
  session_inv st →
  ∃ r, isPuzzleComplete st = Ret r ∧
       (r = true ↔
        ∀ row col, row < 9 → col < 9 →
          cell (grid_of (heap st) (board st)) (row, col) =
          cell (grid_of (heap st) (solution st)) (row, col)).
Proof.
  intros (Hb & Hs & _).
  destruct (all_equal_spec _ _ _ all_cells Hb Hs all_cells_in_grid)
    as (r & Hr & Hiff).
  exists r. split; [done|]. rewrite Hiff, Forall_forall. split.
  - intros H row col Hrow Hcol. apply (H (row, col)).
    by apply elem_of_all_cells.
  - intros H [row col] [Hrow Hcol]%elem_of_all_cells. auto.
Qed.

Lemma enterNumber_spec st r c v :
  session_inv st → r < 9 → c < 9 →
  ∃ st', enterNumber (Some (r, c)) v st = Ret st' ∧ preserved st st' ∧
    (notesMode st = true → heap st' = heap st ∧ board st' = board st) ∧
    (notesMode st = false →
     write (grid_of (heap st) (board st)) r c v =
     Ret (grid_of (heap st') (board st')) ∧
     (cell (grid_of (heap st) (solution st)) (r, c) = Some v →
      score st' = score st + 10 ∧ mistakes st' = mistakes st ∧
      (r, c) ∉ errorCells st') ∧
     (cell (grid_of (heap st) (solution st)) (r, c) ≠ Some v →
      mistakes st' = S (mistakes st) ∧ score st' = score st ∧
      (r, c) ∈ errorCells st')).
Proof.
  intros Hinv Hr Hc. cbn [enterNumber].
  destruct (notesMode st) eqn:Hnotes.
  - eexists. split; [done|]. split_and!; [|done|done].
    split_and!; try done.
  - destruct (board_write st r c v Hinv Hr) as (h' & E & Hw & Hpres).
    rewrite E; cbn [bind].
    set (sol := cell (grid_of (heap st) (solution st)) (r, c)).
    set (wrong := bool_decide (Some v ≠ sol)).
    set (st1 :=
      {| heap := h'; board := board st; solution := solution st;
         originalBoard := originalBoard st;
         selectedCell := selectedCell st;
         mistakes := if wrong then S (mistakes st) else mistakes st;
         score := if wrong then score st else score st + 10;
         timerSeconds := timerSeconds st;
         timerStarted := true; notesMode := false;
         cellNotes := delete (r, c) (cellNotes st);
         errorCells :=
           if wrong then errorCells st ∪ {[(r, c)]}
           else errorCells st ∖ {[(r, c)]};
         hintsUsed := hintsUsed st;
         completionShown := completionShown st;
         draws := draws st |}).
    assert (preserved st st1) as Hst1 by (by apply Hpres).
    pose proof Hst1 as (Hinv1 & _ & _ & Hsolg & _).
    pose proof Hinv1 as (_ & Hs1 & _).
    assert (hread h' (solution st) r c = Ret sol) as Hread.
    { change h' with (heap st1). change (solution st) with (solution st1).
      rewrite (hread_ok _ _ r c Hs1 Hr). by rewrite Hsolg. }
    rewrite Hread; cbn [bind]. fold wrong. fold st1.
    assert ((sol = Some v → score st1 = score st + 10 ∧
                            mistakes st1 = mistakes st ∧
                            (r, c) ∉ errorCells st1) ∧
            (sol ≠ Some v → mistakes st1 = S (mistakes st) ∧
                            score st1 = score st ∧
                            (r, c) ∈ errorCells st1)) as Hverdict.
    { subst st1 wrong; cbn [score mistakes errorCells].
      destruct (decide (sol = Some v)) as [Heq|Hne].
      - rewrite bool_decide_eq_false_2 by (intros H; by apply H).
        split; [|done]. intros _. split_and!; [done..|].
        intros [_ Hn]%elem_of_difference. apply Hn.
        by apply elem_of_singleton.
      - rewrite bool_decide_eq_true_2 by congruence.
        split; [done|]. intros _. split_and!; [done..|].
        apply elem_of_union. right. by apply elem_of_singleton. }
    destruct (wrong && bool_decide (3 < mistakes st1)).
    + exists st1. split_and!; [done|done|done|]. intros _. done.
    + destruct (isPuzzleComplete_spec st1 Hinv1) as (done' & Hdone & _).
      rewrite Hdone; cbn [bind]. eexists. split; [done|].
      split_and!; [|done|]. 
      * destruct Hst1 as (? & ? & ? & ? & ?). split_and!; done.
      * intros _. done.
Qed.


Lemma same_grids_preserved st st' :
  session_inv st → heap st' = heap st → board st' = board st →
  solution st' = solution st → originalBoard st' = originalBoard st →
  preserved st st'.
Proof.
  intros (? & ? & ? & ? & ?) Eh Eb Es Eo. unfold preserved, session_inv.
  rewrite Eh, Eb, Es, Eo. by split_and!.
Qed.

Lemma eraseCell_spec st r c :
  session_inv st → r < 9 → c < 9 →
  ∃ st', eraseCell (Some (r, c)) st = Ret st' ∧ preserved st st' ∧
         (cell (grid_of (heap st) (solution st)) (r, c) =
          cell (grid_of (heap st) (board st)) (r, c) → st' = st).
Proof.
  intros Hinv Hr Hc. pose proof Hinv as (Hb & Hs & _). cbn [eraseCell].
  rewrite (hread_ok _ _ r c Hs Hr), (hread_ok _ _ r c Hb Hr). cbn [bind].
  case_decide as Hne.
  - destruct (board_write st r c 0 Hinv Hr) as (h' & E & _ & Hpres).
    rewrite E; cbn [bind]. eexists. split; [done|]. split; [|done].
    by apply Hpres.
  - exists st. split; [done|]. split; [|done]. by apply preserved_refl.
Qed.

Lemma selectCell_spec st r c :
  session_inv st → r < 9 → c < 9 →
  ∃ st', selectCell r c st = Ret st' ∧ preserved st st' ∧
         (cell (grid_of (heap st) (solution st)) (r, c) =
          cell (grid_of (heap st) (board st)) (r, c) →
          cell (grid_of (heap st) (board st)) (r, c) ≠ Some 0%Z →
          st' = st).
Proof.
  intros Hinv Hr Hc. pose proof Hinv as (Hb & Hs & _). unfold selectCell.
  rewrite (hread_ok _ _ r c Hs Hr), (hread_ok _ _ r c Hb Hr). cbn [bind].
  destruct (bool_decide _ && bool_decide _) eqn:Hgiven.
  - exists st. split; [done|]. split; [|done]. by apply preserved_refl.
  - eexists. split; [done|]. split; [by apply same_grids_preserved|].
    intros Heq Hnz. exfalso.
    apply andb_false_iff in Hgiven as [H|H];
      apply bool_decide_eq_false in H; done.
Qed.

Lemma empty_cells_spec (h : gmap loc (list Z)) (b : list loc) cells :
  rows_ok h b → Forall (λ p, p.1 < 9 ∧ p.2 < 9) cells →
  ∃ found, empty_cells h b cells = Ret found ∧
           Forall (λ p, p.1 < 9 ∧ p.2 < 9) found.
Proof.
  intros Hb. induction cells as [|[i j] rest IH]; intros Hin.
  - exists []. split; [done|constructor].
  - apply Forall_cons in Hin as [Hij Hin]. pose proof Hij as [Hi Hj].
    simpl in Hi, Hj. destruct (IH Hin) as (found & E & Hfound).
    cbn [empty_cells]. rewrite (hread_ok h b i j Hb Hi); cbn [bind].
    rewrite E; cbn [bind]. eexists. split; [done|].
    case_decide; [by constructor|done].
Qed.

Lemma giveHint_spec rand st :
  session_inv st → ∃ st', giveHint rand st = Ret st' ∧ preserved st st'.
Proof.
  intros Hinv. pose proof Hinv as (Hb & Hs & _). unfold giveHint.
  case_decide; [exists st; split; [done|by apply preserved_refl]|].
  destruct (empty_cells_spec _ _ all_cells Hb all_cells_in_grid)
    as (found & E & Hfound).
  rewrite E; cbn [bind].
  destruct found as [|p found]; [exists st; split; [done|by apply preserved_refl]|].
  set (cells := p :: found) in *.
  destruct (lookup_lt_is_Some_2 cells
              (random_below rand (draws st) (length cells))) as [[r c] Hrc].
  { unfold random_below. apply Nat.mod_upper_bound. subst cells. simpl. lia. }
  rewrite Hrc.
  assert (r < 9 ∧ c < 9) as [Hr Hc].
  { rewrite Forall_forall in Hfound. apply (Hfound (r, c)).
    by eapply list_elem_of_lookup_2. }
  rewrite (hread_ok _ _ r c Hs Hr); cbn [bind].
  destruct Hs as (_ & _ & Hwf).
  destruct (wf_cell _ r c Hwf Hr Hc) as [num Hnum]. rewrite Hnum.
  destruct (board_write st r c num Hinv Hr) as (h' & Ew & _ & Hpres).
  rewrite Ew; cbn [bind]. eexists. split; [done|]. by apply Hpres.
Qed.

Lemma toggleNoteMode_spec st :
  session_inv st → preserved st (toggleNoteMode st).
Proof. intros Hinv. by apply same_grids_preserved. Qed.

Lemma resetProgress_spec st :
  session_inv st →
  ∃ st', resetProgress st = Ret st' ∧ preserved st st' ∧
         grid_of (heap st') (board st') =
         grid_of (heap st) (originalBoard st) ∧
         board st' ## originalBoard st'.
Proof.
  intros (Hb & Hs & Ho & Hbs & Hbo). unfold resetProgress.
  destruct (copy_rows_spec _ _ Ho) as (h' & b' & E & Hsub & Hfresh & Hb' & Hg).
  rewrite E; cbn [bind]. eexists. split; [done|].
  destruct (rows_ok_weaken _ _ _ Hsub Hs) as [Hs' Hsg].
  destruct (rows_ok_weaken _ _ _ Hsub Ho) as [Ho' Hog].
  assert (b' ## solution st) as Hd1.
  { intros l Hl Hl'. by apply (fresh_rows_disjoint _ _ _ Hs Hfresh l). }
  assert (b' ## originalBoard st) as Hd2.
  { intros l Hl Hl'. by apply (fresh_rows_disjoint _ _ _ Ho Hfresh l). }
  unfold preserved, session_inv. cbn [heap board solution originalBoard].
  split_and!; done.
Qed.

Lemma step_spec rand a st :
  session_inv st → action_ok a →
  ∃ st', step rand a st = Ret st' ∧ preserved st st'.
Proof.
  intros Hinv Hok. destruct a as [r c|r c v|r c| | |]; cbn [step action_ok] in *.
  - destruct Hok. destruct (selectCell_spec st r c) as (st' & ? & ? & _); eauto.
  - destruct Hok.
    destruct (enterNumber_spec st r c v) as (st' & ? & ? & _); eauto.
  - destruct Hok. destruct (eraseCell_spec st r c) as (st' & ? & ? & _); eauto.
  - by apply giveHint_spec.
  - eexists. split; [done|]. by apply toggleNoteMode_spec.
  - destruct (resetProgress_spec st) as (st' & ? & ? & _); eauto.
Qed.

Lemma run_spec rand actions :
  ∀ st, session_inv st → Forall action_ok actions →
        ∃ st', run rand actions st = Ret st' ∧ preserved st st'.
Proof.
  induction actions as [|a rest IH]; intros st Hinv Hok.
  - exists st. split; [done|]. by apply preserved_refl.
  - apply Forall_cons in Hok as [Ha Hrest].
    destruct (step_spec rand a st Hinv Ha) as (st1 & E1 & Hp1).
    destruct (IH st1) as (st' & E' & Hp'); [apply Hp1|done|].
    exists st'. cbn [run]. rewrite E1; cbn [bind]. split; [done|].
    by eapply preserved_trans.
Qed.

(** After any moves, the original board is what it was, and a reset
    makes the board a fresh copy of it. *)
Lemma session_round_trip rand st1 actions :
  session_inv st1 → Forall action_ok actions →
  ∃ st2 st3,
    run rand actions st1 = Ret st2 ∧ resetProgress st2 = Ret st3 ∧
    originalBoard st2 = originalBoard st1 ∧
    grid_of (heap st2) (originalBoard st2) =
    grid_of (heap st1) (originalBoard st1) ∧
    grid_of (heap st3) (board st3) =
    grid_of (heap st1) (originalBoard st1) ∧
    grid_of (heap st3) (originalBoard st3) =
    grid_of (heap st1) (originalBoard st1) ∧
    board st3 ## originalBoard st3.
Proof.
  intros Hinv Hok.
  destruct (run_spec rand actions st1 Hinv Hok)
    as (st2 & E2 & Hinv2 & _ & Eo & _ & Go).
  destruct (resetProgress_spec st2 Hinv2)
    as (st3 & E3 & (_ & _ & _ & _ & Go3) & Gb3 & Hd3).
  exists st2, st3. split_and!; try done; congruence.
Qed.

(** ** The sample session *)

Lemma Ret_inj {A} (a b : A) : Ret a = Ret b → a = b.
Proof. by intros [= ->]. Qed.

Lemma sample_puzzle_derived :
  derivePuzzle 60 cycle_rand (Some 30%Z) sample_state = Ret sample_puzzle.
Proof.
  unfold sample_puzzle.
  destruct (derivePuzzle 60 cycle_rand (Some 30%Z) sample_state) eqn:E;
    [done|vm_compute in E; discriminate..].
Qed.

Lemma sample_puzzle_inv : session_inv sample_puzzle.
Proof.
  destruct sample_state_rows_ok as [Hsol _].
  by destruct (derivePuzzle_Ret _ _ _ _ _ Hsol sample_puzzle_derived)
    as (_ & _ & ? & _).
Qed.

Lemma sample_after_entry_entered :
  enterNumber (Some (0, 0)) 2%Z sample_puzzle = Ret sample_after_entry.
Proof.
  unfold sample_after_entry.
  destruct (enterNumber (Some (0, 0)) 2%Z sample_puzzle) eqn:E;
    [done|vm_compute in E; discriminate..].
Qed.

Lemma sample_after_entry_inv : session_inv sample_after_entry.
Proof.
  destruct (enterNumber_spec sample_puzzle 0 0 2 sample_puzzle_inv)
    as (st' & E & (Hinv & _) & _); [lia..|].
  rewrite sample_after_entry_entered in E. apply Ret_inj in E.
  by rewrite E.
Qed.

(** ** Move validation and completion *)

(** C8: a number entered at a cell counts as correct (ten points, no
    mistake) exactly when it equals the solution's value at that cell,
    and as incorrect (one more mistake, no points) exactly when it does
    not; the solution is not changed; and [isPuzzleComplete] returns true
    exactly when the board equals the solution on all 81 cells. *)
Theorem enterNumber_validates_move
    (st : gameState) (r c : nat) (v : Z) :
  session_inv st → r < 9 → c < 9 → notesMode st = false →
  (∃ st', enterNumber (Some (r, c)) v st = Ret st' ∧
          solution st' = solution st ∧
          grid_of (heap st') (solution st') =
          grid_of (heap st) (solution st) ∧
          (cell (grid_of (heap st) (solution st)) (r, c) = Some v ↔
           score st' = score st + 10 ∧ mistakes st' = mistakes st) ∧
          (cell (grid_of (heap st) (solution st)) (r, c) ≠ Some v ↔
           mistakes st' = S (mistakes st) ∧ score st' = score st)) ∧
  (∃ b, isPuzzleComplete st = Ret b ∧
        (b = true ↔
         ∀ row col, row < 9 → col < 9 →
           cell (grid_of (heap st) (board st)) (row, col) =
           cell (grid_of (heap st) (solution st)) (row, col))).
Proof.
  intros Hinv Hr Hc Hnotes. split; [|by apply isPuzzleComplete_spec].
  destruct (enterNumber_spec st r c v Hinv Hr Hc)
    as (st' & E & (_ & Es & _ & Gs & _) & _ & Hplay).
  destruct (Hplay Hnotes) as (_ & Hright & Hwrong).
  exists st'. split_and!; [done..| |].
  - split; [intros H; by destruct (Hright H) as (? & ? & _)|].
    intros [Hscore Hmist].
    destruct (decide (cell (grid_of (heap st) (solution st)) (r, c) = Some v))
      as [|Hne]; [done|].
    destruct (Hwrong Hne) as (? & ? & _). lia.
  - split; [intros H; by destruct (Hwrong H) as (? & ? & _)|].
    intros [Hmist Hscore] Heq.
    destruct (Hright Heq) as (? & ? & _). lia.
Qed.

Lemma enterNumber_validates_move_witness :
  (∃ st', enterNumber (Some (0, 0)) 2%Z sample_puzzle = Ret st' ∧
          solution st' = solution sample_puzzle ∧
          grid_of (heap st') (solution st') =
          grid_of (heap sample_puzzle) (solution sample_puzzle) ∧
          (cell (grid_of (heap sample_puzzle) (solution sample_puzzle)) (0, 0)
           = Some 2%Z ↔
           score st' = score sample_puzzle + 10 ∧
           mistakes st' = mistakes sample_puzzle) ∧
          (cell (grid_of (heap sample_puzzle) (solution sample_puzzle)) (0, 0)
           ≠ Some 2%Z ↔
           mistakes st' = S (mistakes sample_puzzle) ∧
           score st' = score sample_puzzle)) ∧
  (∃ b, isPuzzleComplete sample_puzzle = Ret b ∧
        (b = true ↔
         ∀ row col, row < 9 → col < 9 →
           cell (grid_of (heap sample_puzzle) (board sample_puzzle)) (row, col)
           = cell (grid_of (heap sample_puzzle) (solution sample_puzzle))
                  (row, col))).
Proof.
  apply (enterNumber_validates_move sample_puzzle 0 0 2).
  - apply sample_puzzle_inv.
  - lia.
  - lia.
  - vm_compute. reflexivity.
Defined.

(** ** Erasing *)

(** C10: on a cell whose board value is non-zero and equal to the
    solution's, [eraseCell] changes nothing (and [selectCell] does not
    select the cell): the test compares the board with the solution and
    never looks at the original board, so a digit the player entered
    correctly is treated like a given clue. *)
Theorem eraseCell_keeps_matching_cell
    (st : gameState) (r c : nat) (v : Z) :
  session_inv st → r < 9 → c < 9 →
  cell (grid_of (heap st) (board st)) (r, c) = Some v → v ≠ 0%Z →
  cell (grid_of (heap st) (solution st)) (r, c) = Some v →
  eraseCell (Some (r, c)) st = Ret st ∧ selectCell r c st = Ret st.
Proof.
  intros Hinv Hr Hc Hb Hv Hs.
  destruct (eraseCell_spec st r c Hinv Hr Hc) as (st1 & E1 & _ & Hsame1).
  destruct (selectCell_spec st r c Hinv Hr Hc) as (st2 & E2 & _ & Hsame2).
  rewrite E1, E2, Hsame1, Hsame2; [done|congruence..].
Qed.

Lemma eraseCell_keeps_matching_cell_witness :
  cell (grid_of (heap sample_after_entry) (originalBoard sample_after_entry))
       (0, 0) = Some 0%Z ∧
  eraseCell (Some (0, 0)) sample_after_entry = Ret sample_after_entry ∧
  selectCell 0 0 sample_after_entry = Ret sample_after_entry.
Proof.
  split; [vm_compute; reflexivity|].
  apply (eraseCell_keeps_matching_cell sample_after_entry 0 0 2).
  - apply sample_after_entry_inv.
  - lia.
  - lia.
  - vm_compute. reflexivity.
  - lia.
  - vm_compute. reflexivity.
Defined.

(** A digit entered correctly in an empty cell cannot be erased, although
    the original board holds 0 there. *)
Lemma correct_entry_cannot_be_erased st r c v st' :
  session_inv st → r < 9 → c < 9 → notesMode st = false → v ≠ 0%Z →
  cell (grid_of (heap st) (solution st)) (r, c) = Some v →
  enterNumber (Some (r, c)) v st = Ret st' →
  eraseCell (Some (r, c)) st' = Ret st' ∧
  cell (grid_of (heap st') (originalBoard st')) (r, c) =
  cell (grid_of (heap st) (originalBoard st)) (r, c).
Proof.
  intros Hinv Hr Hc Hnotes Hv Hs Henter.
  destruct (enterNumber_spec st r c v Hinv Hr Hc)
    as (st1 & E & (Hinv1 & _ & _ & Gs & Go) & _ & Hplay).
  rewrite Henter in E. injection E as <-.
  destruct (Hplay Hnotes) as (Hw & _).
  destruct (eraseCell_spec st' r c Hinv1 Hr Hc) as (st2 & E2 & _ & Hsame).
  rewrite E2, Hsame, Go; [done|].
  rewrite Gs, Hs. destruct Hinv as ((_ & _ & Hwf) & _).
  rewrite (cell_write _ _ _ _ _ _ Hw) by (by apply wf_cell).
  by rewrite decide_True.
Qed.

(** ** Reset *)

(** C9: after the derivation, whatever moves the player makes
    (selections, entries, erasures, hints, note mode, resets), the
    original board is the same object with the contents the board had
    right after the derivation, and [resetProgress] makes the board a
    separate copy with exactly those contents. *)
Theorem resetProgress_round_trip
    (fuel : nat) (rand : nat → nat) (clueCount : option Z)
    (st0 st1 : gameState) (actions : list action) :
  rows_ok (heap st0) (solution st0) →
  derivePuzzle fuel rand clueCount st0 = Ret st1 →
  Forall action_ok actions →
  ∃ st2 st3,
    run rand actions st1 = Ret st2 ∧ resetProgress st2 = Ret st3 ∧
    originalBoard st2 = originalBoard st1 ∧
    grid_of (heap st2) (originalBoard st2) =
    grid_of (heap st1) (board st1) ∧
    grid_of (heap st3) (board st3) = grid_of (heap st1) (board st1) ∧
    grid_of (heap st3) (originalBoard st3) =
    grid_of (heap st1) (board st1) ∧
    board st3 ## originalBoard st3.
Proof.
  intros Hsol Hderive Hok.
  destruct (derivePuzzle_Ret _ _ _ _ _ Hsol Hderive)
    as (_ & _ & Hinv & Hsnap & _).
  destruct (session_round_trip rand st1 actions Hinv Hok)
    as (st2 & st3 & ? & ? & ? & ? & ? & ? & ?).
  exists st2, st3. rewrite <- Hsnap. by split_and!.
Qed.

Lemma Forall_action_ok_sample : Forall action_ok sample_moves.
Proof. unfold sample_moves. repeat constructor; simpl; lia. Qed.

Lemma resetProgress_round_trip_witness :
  ∃ st2 st3,
    run cycle_rand sample_moves sample_puzzle = Ret st2 ∧
    resetProgress st2 = Ret st3 ∧
    originalBoard st2 = originalBoard sample_puzzle ∧
    grid_of (heap st2) (originalBoard st2) =
    grid_of (heap sample_puzzle) (board sample_puzzle) ∧
    grid_of (heap st3) (board st3) =
    grid_of (heap sample_puzzle) (board sample_puzzle) ∧
    grid_of (heap st3) (originalBoard st3) =
    grid_of (heap sample_puzzle) (board sample_puzzle) ∧
    board st3 ## originalBoard st3.
Proof.
  apply (resetProgress_round_trip 60 cycle_rand (Some 30%Z) sample_state).
  - apply sample_state_rows_ok.
  - apply sample_puzzle_derived.
  - apply Forall_action_ok_sample.
Defined.

(** The sample moves do change the board: at their end it differs from
    the original board, which still has the 30 clues of the puzzle. *)
Example sample_moves_change_the_board :
  match run cycle_rand sample_moves sample_puzzle with
  | Ret st2 =>
      grid_of (heap st2) (board st2) ≠ grid_of (heap st2) (originalBoard st2) ∧
      count_nonzero (grid_of (heap st2) (originalBoard st2)) = 30
  | _ => False
  end.
Proof. vm_compute. split; [discriminate|reflexivity]. Qed.

(** ** generatePuzzle as a whole *)

Lemma generateValidSudoku_Ret fuel rand k g k' :
  generateValidSudoku fuel rand k = Ret (g, k') → solved g.
Proof.
  unfold generateValidSudoku.
  intros ([[b g1] k1] & E & H)%bind_Ret. injection H as <- <-.
  destruct (solve_empty_board (fuel `max` 82) rand k) as (g' & k'' & E' & Hs);
    [lia|].
  apply (solve_mono rand fuel (fuel `max` 82)) in E; [|lia].
  rewrite E in E'. by injection E' as _ <- _.
Qed.

(** A returned [generatePuzzle] has derived the puzzle from a valid
    solution that it has stored in the session. *)
Lemma generatePuzzle_Ret fuel rand difficulty st st1 :
  generatePuzzle fuel rand difficulty st = Ret st1 →
  ∃ st0, rows_ok (heap st0) (solution st0) ∧
         solved (grid_of (heap st0) (solution st0)) ∧
         derivePuzzle fuel rand (difficulties !! difficulty) st0 = Ret st1.
Proof.
  unfold generatePuzzle. intros ([rows k] & Hgen & H)%bind_Ret.
  apply generateValidSudoku_Ret in Hgen.
  destruct (store_rows (heap st) rows) as [h s] eqn:Hst.
  destruct (store_rows_spec _ _ _ _ Hst) as (_ & Hnd & _ & Hsome & Hgrid).
  eexists. split_and!; [| |exact H]; cbn [heap solution].
  - split_and!; [done..|]. rewrite Hgrid. apply Hgen.
  - by rewrite Hgrid.
Qed.

(** The properties of the derivation and of the reset, for the puzzles
    that [generatePuzzle] makes. *)
Lemma generatePuzzle_session fuel rand difficulty st st1 actions :
  generatePuzzle fuel rand difficulty st = Ret st1 →
  Forall action_ok actions →
  valid_solution (grid_of (heap st1) (solution st1)) ∧
  (∀ r c, r < 9 → c < 9 →
     cell (grid_of (heap st1) (board st1)) (r, c) = Some 0%Z ∨
     cell (grid_of (heap st1) (board st1)) (r, c) =
     cell (grid_of (heap st1) (solution st1)) (r, c)) ∧
  (∀ clues, difficulties !! difficulty = Some clues →
     Z.of_nat (count_nonzero (grid_of (heap st1) (board st1))) = clues) ∧
  ∃ st2 st3,
    run rand actions st1 = Ret st2 ∧ resetProgress st2 = Ret st3 ∧
    grid_of (heap st2) (originalBoard st2) =
    grid_of (heap st1) (board st1) ∧
    grid_of (heap st3) (board st3) = grid_of (heap st1) (board st1).
Proof.
  intros Hgen Hok.
  destruct (generatePuzzle_Ret _ _ _ _ _ Hgen) as (st0 & Hsol & Hs & Hd).
  destruct (derivePuzzle_Ret _ _ _ _ _ Hsol Hd)
    as (_ & Gs & Hinv & Hsnap & Hsub & Hcnt).
  rewrite Gs. split_and!.
  - by apply solved_valid.
  - auto.
  - intros clues Hclues. rewrite Hclues in Hcnt.
    rewrite (count_nonzero_complete _ (solved_complete _ Hs)) in Hcnt.
    assert (0 ≤ clues ≤ 81)%Z; [|lia].
    unfold difficulties in Hclues.
    repeat (apply lookup_insert_Some in Hclues as [[_ <-]|[_ Hclues]]; [lia|]).
    apply lookup_singleton_Some in Hclues as [_ <-]. lia.
  - destruct (session_round_trip rand st1 actions Hinv Hok)
      as (st2 & st3 & ? & ? & ? & ? & ? & ? & ?).
    exists st2, st3. rewrite <- Hsnap. by split_and!.
Qed.



(** * Further properties of the code *)

(** ** The shuffle of [solve] *)

Lemma swap_out_of_range (nums : list Z) i j :
  length nums ≤ i ∨ length nums ≤ j → swap nums i j = nums.
Proof.
  intros Hout. unfold swap.
  destruct (nums !! i) as [x|] eqn:Hi; [|done].
  destruct (nums !! j) as [y|] eqn:Hj; [|done].
  apply lookup_lt_Some in Hi, Hj. lia.
Qed.

Lemma swap_Permutation (nums : list Z) i j : swap nums i j ≡ₚ nums.
Proof.
  destruct (decide (i < length nums ∧ j < length nums)) as [[Hi Hj]|Hout];
    [|rewrite swap_out_of_range; [done|lia]].
  apply Permutation_inj. split; [apply length_swap|].
  exists (λ n, if decide (n = j) then i else if decide (n = i) then j else n).
  split; [|intros n; by apply swap_lookup].
  intros n m Heq. repeat case_decide; congruence.
Qed.

Lemma shuffle_from_Permutation rand i nums k :
  (shuffle_from rand i nums k).1 ≡ₚ nums.
Proof.
  revert nums k. induction i as [|i IH]; intros nums k; simpl; [done|].
  rewrite IH. apply swap_Permutation.
Qed.

Lemma shuffle_from_draws rand i nums k :
  (shuffle_from rand i nums k).2 = k + i.
Proof.
  revert nums k. induction i as [|i IH]; intros nums k; simpl; [lia|].
  rewrite IH. lia.
Qed.

Lemma shuffle_unfold rand k : shuffle rand k = shuffle_from rand 8 digits k.
Proof. reflexivity. Qed.

(** X1: the shuffle returns the digits 1..9 in some order, each once,
    and makes exactly eight random draws. *)
Theorem shuffle_permutation (rand : nat → nat) (k : nat) :
  (shuffle rand k).1 ≡ₚ digits ∧ (shuffle rand k).2 = k + 8.
Proof.
  unfold shuffle. split.
  - apply shuffle_from_Permutation.
  - apply shuffle_from_draws.
Qed.

(** The draws that make the loop turn [l] into [t], the first draw first. *)
Lemma shuffle_from_reach (i : nat) :
  ∀ (l t : list Z),
    l ≡ₚ t → i < length l → (∀ n, i < n → l !! n = t !! n) →
    ∃ js, length js = i ∧
          ∀ rand k, (∀ m, m < i → rand (k + m) = js !!! m) →
                    (shuffle_from rand i l k).1 = t.
Proof.
  induction i as [|i IH]; intros l t Hperm Hi Hsuffix.
  - exists []. split; [done|]. intros rand k _. simpl.
    apply list_eq. intros [|n]; [|apply Hsuffix; lia].
    pose proof (Permutation_length Hperm) as Hlen.
    destruct l as [|x l]; [simpl in Hi; lia|].
    destruct t as [|y t]; [done|]. simpl. f_equal.
    assert (l = t) as ->.
    { apply list_eq. intros n. apply (Hsuffix (S n)). lia. }
    by apply (inj (.:: t)) in Hperm.
  - pose proof (Permutation_length Hperm) as Hlen.
    destruct (lookup_lt_is_Some_2 t (S i)) as [x Hx]; [lia|].
    assert (take (S (S i)) l ≡ₚ take (S (S i)) t) as Hprefix.
    { apply (inj (.++ drop (S (S i)) l)).
      rewrite take_drop.
      replace (drop (S (S i)) l) with (drop (S (S i)) t).
      - by rewrite take_drop.
      - apply list_eq. intros n. rewrite !lookup_drop. symmetry.
        apply Hsuffix. lia. }
    assert (x ∈ take (S (S i)) l) as Hin.
    { rewrite Hprefix. apply list_elem_of_lookup. exists (S i).
      rewrite lookup_take_lt by lia. done. }
    apply list_elem_of_lookup in Hin as [j Hj].
    apply lookup_take_Some in Hj as [Hj Hjle].
    destruct (IH (swap l (S i) j) t) as (js & Hjs & Hreach).
    + by rewrite swap_Permutation.
    + rewrite length_swap. lia.
    + intros n Hn. rewrite swap_lookup by lia.
      destruct (decide (n = j)) as [->|Hnj];
        [assert (j = S i) as -> by lia; by rewrite Hj, Hx|].
      destruct (decide (n = S i)) as [->|Hni]; [by rewrite Hj, Hx|].
      apply Hsuffix. lia.
    + exists (j :: js). split; [simpl; lia|].
      intros rand k Hrand. cbn [shuffle_from].
      assert (random_below rand k (S i + 1) = j) as ->.
      { unfold random_below. specialize (Hrand 0 ltac:(lia)).
        rewrite Nat.add_0_r in Hrand. rewrite Hrand.
        change ((j :: js) !!! 0) with j. apply Nat.mod_small. lia. }
      apply Hreach. intros m Hm. specialize (Hrand (S m) ltac:(lia)).
      replace (S k + m) with (k + S m) by lia. by rewrite Hrand.
Qed.

(** X2: every order of the digits 1..9 is the outcome of the shuffle for
    some random draws. *)
Theorem shuffle_reaches_every_order (t : list Z) (k : nat) :
  t ≡ₚ digits → ∃ rand, (shuffle rand k).1 = t.
Proof.
  intros Hperm.
  destruct (shuffle_from_reach 8 digits t) as (js & Hjs & Hreach).
  - done.
  - simpl. lia.
  - intros n Hn. pose proof (Permutation_length Hperm) as Hlen.
    rewrite !lookup_ge_None_2; [done|simpl in *; lia..].
  - exists (λ n, js !!! (n - k)). rewrite shuffle_unfold. apply Hreach.
    intros m Hm. by replace (k + m - k) with m by lia.
Qed.

Lemma shuffle_reaches_every_order_witness :
  ∃ rand, (shuffle rand 0).1 = [9; 8; 7; 6; 5; 4; 3; 2; 1]%Z.
Proof.
  apply (shuffle_reaches_every_order [9; 8; 7; 6; 5; 4; 3; 2; 1]%Z 0).
  exact (reverse_Permutation digits).
Defined.

(** ** The search of [solve] on any board *)

Lemma partial_by_check g :
  wf_grid g →
  Forall (λ p, cell g p ∈ Some <$> (0%Z :: digits)) all_cells →
  Forall (λ p, Forall (λ q, q = p ∨ cell g p = Some 0%Z ∨
                            cell g q ≠ cell g p)
                      (group_cells p.1 p.2)) all_cells →
  partial_grid g.
Proof.
  intros Hwf Hdig Hgroups. rewrite Forall_forall in Hdig, Hgroups. split.
  - intros r c Hr Hc.
    assert ((r, c) ∈ all_cells) as Hin by (by apply elem_of_all_cells).
    apply Hdig in Hin. apply list_elem_of_fmap in Hin as (v & Hv & Hd).
    exists v. split; [done|].
    apply elem_of_cons in Hd as [->|Hd]; [lia|].
    apply elem_of_digits in Hd. lia.
  - intros r c r' c' v Hr Hc Hr' Hc' Hne Hpeer Hv Hcell Hcell'.
    assert ((r, c) ∈ all_cells) as Hin by (by apply elem_of_all_cells).
    apply Hgroups in Hin. simpl in Hin. rewrite Forall_forall in Hin.
    destruct (Hin (r', c')) as [|[H0|Hdiff]]; [|done|congruence..].
    by apply elem_of_group_cells.
Qed.

(** X3: on a 9x9 grid whose digits do not clash, [solve] decides whether
    the grid can be completed: it returns true exactly when a complete
    rule-obeying grid with the same digits exists, and then the board is
    such a grid; when it returns false the board is as it was. *)
Theorem solve_decides (fuel : nat) (rand : nat → nat) (g : grid) (k : nat) :
  wf_grid g → partial_grid g → empties g < fuel →
  ∃ b g' k',
    solve fuel rand g k = Ret (b, g', k') ∧
    (b = true ↔ ∃ s, solved s ∧ extends g s) ∧
    (b = true → valid_solution g' ∧ extends g g') ∧
    (b = false → g' = g).
Proof.
  intros Hwf Hpart Hfuel.
  destruct (solve_spec fuel rand g k Hwf Hfuel)
    as (b & g' & k' & E & Hrestore & Hpost).
  specialize (Hpost Hpart). exists b, g', k'. split; [done|].
  destruct b; split_and!; try done.
  - split; [|done]. intros _. exists g'. done.
  - intros _. destruct Hpost. split; [by apply solved_valid|done].
  - split; [done|]. intros (s & Hs & Hext). by destruct (Hpost s).
Qed.

Lemma solve_decides_witness :
  ∃ b g' k',
    solve 82 zero_rand scenario_grid 0 = Ret (b, g', k') ∧
    (b = true ↔ ∃ s, solved s ∧ extends scenario_grid s) ∧
    (b = true → valid_solution g' ∧ extends scenario_grid g') ∧
    (b = false → g' = scenario_grid).
Proof.
  apply (solve_decides 82 zero_rand scenario_grid 0).
  - apply (bool_decide_unpack _). vm_compute. reflexivity.
  - apply partial_by_check; apply (bool_decide_unpack _); vm_compute;
      reflexivity.
  - pose proof (empties_bound scenario_grid). lia.
Defined.

Lemma keeps_digits_write g r c v g1 g2 :
  cell g (r, c) = Some 0%Z → write g r c v = Ret g1 →
  keeps_digits g1 g2 → keeps_digits g g2.
Proof.
  intros Hcell Hw Hkeep p.
  destruct (decide (p = (r, c))) as [->|Hne]; [by left|].
  assert (cell g1 p = cell g p) as Heq.
  { rewrite (cell_write _ _ _ _ _ _ Hw) by eauto. by rewrite decide_False. }
  destruct (Hkeep p) as [H0|H1]; [left|right]; congruence.
Qed.

Lemma try_nums_keeps rec r c :
  (∀ b k b' k', rec b k = Ret (false, b', k') → b' = b) →
  (∀ b k found b' k', rec b k = Ret (found, b', k') → keeps_digits b b') →
  ∀ nums g k found g' k',
    cell g (r, c) = Some 0%Z →
    try_nums rec r c nums g k = Ret (found, g', k') → keeps_digits g g'.
Proof.
  intros Hrestore Hkeep.
  induction nums as [|num rest IH]; intros g k found g' k' Hcell;
    cbn [try_nums].
  - intros [= _ <- _] p. by right.
  - intros (ok & Hok & H)%bind_Ret. destruct ok; [|by eauto].
    apply bind_Ret in H as (b1 & Hb1 & H).
    apply bind_Ret in H as ([[found1 b2] k2] & Hrec1 & H).
    destruct found1.
    + injection H as _ <- _. apply (keeps_digits_write g r c num b1); eauto.
    + apply bind_Ret in H as (b3 & Hb3 & H).
      apply Hrestore in Hrec1 as ->.
      rewrite (write_undo _ _ _ _ _ _ Hcell Hb1 Hb3) in H. eauto.
Qed.

Lemma solve_keeps fuel rand :
  ∀ g k found g' k',
    solve fuel rand g k = Ret (found, g', k') → keeps_digits g g'.
Proof.
  induction fuel as [|fuel IH]; intros g k found g' k'; cbn [solve]; [done|].
  intros ([[r c]|] & He & H)%bind_Ret.
  - apply first_empty_Some in He as [Hcell _].
    destruct (shuffle rand k) as [nums k1].
    eapply try_nums_keeps; [apply solve_restore|apply IH|exact Hcell|exact H].
  - injection H as _ <- _. intros p. by right.
Qed.

(** X4: whatever the board and whatever it returns, [solve] never
    changes a cell that holds a digit when it is called: it only writes
    to cells that were 0. *)
Theorem solve_keeps_given_digits
    (fuel : nat) (rand : nat → nat) (g : grid) (k : nat)
    (found : bool) (g' : grid) (k' : nat) (r c : nat) (v : Z) :
  solve fuel rand g k = Ret (found, g', k') →
  cell g (r, c) = Some v → v ≠ 0%Z → cell g' (r, c) = Some v.
Proof.
  intros Hsolve Hcell Hv.
  destruct (solve_keeps _ _ _ _ _ _ _ Hsolve (r, c)) as [H0|Heq];
    congruence.
Qed.

Lemma solve_keeps_given_digits_witness :
  match solve 82 zero_rand scenario_grid 0 with
  | Ret (found, g', k') => found = true ∧ cell g' (0, 4) = Some 7%Z
  | _ => False
  end.
Proof.
  destruct (solve 82 zero_rand scenario_grid 0) as [[[found g'] k']| |] eqn:E.
  - split.
    + vm_compute in E. by injection E as <- _ _.
    + apply (solve_keeps_given_digits 82 zero_rand scenario_grid 0
               found g' k' 0 4 7 E); [reflexivity|lia].
  - vm_compute in E. discriminate.
  - vm_compute in E. discriminate.
Defined.

Lemma first_empty_complete g cells :
  complete_grid g → Forall (λ p, p.1 < 9 ∧ p.2 < 9) cells →
  first_empty g cells = Ret None.
Proof.
  intros [Hwf Hfull]. induction cells as [|[i j] rest IH]; intros Hin;
    [done|]. apply Forall_cons in Hin as [[Hi Hj] Hin]. simpl in Hi, Hj.
  cbn [first_empty]. rewrite (wf_read g i j Hwf Hi Hj). cbn [bind].
  rewrite decide_False by auto. auto.
Qed.

(** X5: a board without a zero cell is accepted as it is: [solve]
    returns true at once, without a random draw and without looking at
    the digits, whether or not they obey the rules. *)
Theorem solve_accepts_full_board
    (fuel : nat) (rand : nat → nat) (g : grid) (k : nat) :
  complete_grid g → solve (S fuel) rand g k = Ret (true, g, k).
Proof.
  intros Hfull. cbn [solve].
  by rewrite (first_empty_complete g all_cells Hfull all_cells_in_grid).
Qed.

Lemma solve_accepts_full_board_witness :
  solve 1 zero_rand all_ones_grid 0 = Ret (true, all_ones_grid, 0) ∧
  ¬ valid_solution all_ones_grid.
Proof.
  split.
  - apply (solve_accepts_full_board 0 zero_rand all_ones_grid 0).
    split; [apply (bool_decide_unpack _); vm_compute; reflexivity|].
    intros r c Hr Hc. unfold cell, all_ones_grid; cbn [fst snd].
    rewrite lookup_replicate_2 by done. by rewrite lookup_replicate_2.
  - intros [_ Hperm]. destruct (Hperm 0) as [Hrow _]; [lia|].
    apply Permutation_length in Hrow as Hlen.
    assert (Some 2%Z ∈ values all_ones_grid (row_cells 0)) as Hin.
    { rewrite Hrow. apply list_elem_of_fmap. exists 2%Z. split; [done|].
      by apply elem_of_digits. }
    vm_compute in Hin.
    repeat (apply elem_of_cons in Hin as [Hin|Hin]; [discriminate|]).
    by apply elem_of_nil in Hin.
Defined.

(** [solve] draws eight numbers for every shuffle. *)
Lemma try_nums_draws rec r c :
  (∀ b k found b' k', rec b k = Ret (found, b', k') → ∃ n, k' = k + 8 * n) →
  ∀ nums g k found g' k',
    try_nums rec r c nums g k = Ret (found, g', k') → ∃ n, k' = k + 8 * n.
Proof.
  intros Hrec. induction nums as [|num rest IH]; intros g k found g' k';
    cbn [try_nums].
  - intros [= _ _ <-]. exists 0. lia.
  - intros (ok & Hok & H)%bind_Ret. destruct ok; [|by eauto].
    apply bind_Ret in H as (b1 & Hb1 & H).
    apply bind_Ret in H as ([[found1 b2] k2] & Hrec1 & H).
    apply Hrec in Hrec1 as [n1 ->]. destruct found1.
    + injection H as _ _ <-. eauto.
    + apply bind_Ret in H as (b3 & Hb3 & H).
      apply IH in H as [n2 ->]. exists (n1 + n2). lia.
Qed.

Lemma solve_draws fuel rand :
  ∀ g k found g' k',
    solve fuel rand g k = Ret (found, g', k') → ∃ n, k' = k + 8 * n.
Proof.
  induction fuel as [|fuel IH]; intros g k found g' k'; cbn [solve]; [done|].
  intros ([[r c]|] & He & H)%bind_Ret.
  - pose proof (shuffle_from_draws rand 8 digits k) as Hk.
    rewrite shuffle_unfold in H.
    destruct (shuffle_from rand 8 digits k) as [nums k1]. cbn [snd] in Hk.
    subst k1. apply (try_nums_draws _ _ _ IH) in H as [n ->].
    exists (S n). lia.
  - injection H as _ _ <-. exists 0. lia.
Qed.

(** ** New games *)

Lemma difficulties_range difficulty clues :
  difficulties !! difficulty = Some clues → (0 ≤ clues ≤ 81)%Z.
Proof.
  unfold difficulties. intros Hclues.
  repeat (apply lookup_insert_Some in Hclues as [[_ <-]|[_ Hclues]]; [lia|]).
  apply lookup_singleton_Some in Hclues as [_ <-]. lia.
Qed.

Lemma derivePuzzle_fields fuel rand clueCount st st' :
  derivePuzzle fuel rand clueCount st = Ret st' →
  selectedCell st' = selectedCell st ∧ mistakes st' = mistakes st ∧
  score st' = score st ∧ hintsUsed st' = hintsUsed st ∧
  notesMode st' = notesMode st ∧ timerStarted st' = timerStarted st ∧
  cellNotes st' = cellNotes st ∧ errorCells st' = errorCells st.
Proof.
  unfold derivePuzzle.
  intros ([h1 b] & _ & H)%bind_Ret.
  apply bind_Ret in H as ([h2 k] & _ & H).
  apply bind_Ret in H as ([h3 o] & _ & H).
  apply Ret_inj in H. subst st'. by split_and!.
Qed.

Lemma startNewGame_Ret fuel rand difficulty st st' :
  startNewGame fuel rand difficulty st = Ret st' →
  fresh_game st' ∧ puzzle_of_solution st' ∧
  match difficulties !! difficulty with
  | Some clues =>
      Z.of_nat (count_nonzero (grid_of (heap st') (board st'))) = clues
  | None =>
      grid_of (heap st') (board st') = grid_of (heap st') (solution st')
  end.
Proof.
  unfold startNewGame. intros Hgen.
  destruct (generatePuzzle_Ret _ _ _ _ _ Hgen) as (st0 & Hsol & Hs & Hd).
  destruct (derivePuzzle_Ret _ _ _ _ _ Hsol Hd)
    as (_ & Gs & Hinv & Hsnap & Hsub & Hcnt).
  split_and!.
  - unfold generatePuzzle in Hgen.
    apply bind_Ret in Hgen as ([rows k] & _ & Hgen).
    destruct (store_rows _ rows) as [h s].
    apply derivePuzzle_fields in Hgen. cbn in Hgen.
    unfold fresh_game. destruct Hgen as (-> & -> & -> & -> & -> & -> & -> & ->).
    done.
  - unfold puzzle_of_solution. rewrite Gs.
    split_and!;
      [done|by apply solved_valid|by apply solved_complete|auto|done].
  - destruct (difficulties !! difficulty) as [clues|] eqn:Hclues.
    + rewrite (count_nonzero_complete _ (solved_complete _ Hs)) in Hcnt.
      pose proof (difficulties_range _ _ Hclues). lia.
    + congruence.
Qed.

(** The generator and the derivation return together. *)
Lemma generatePuzzle_returns rand difficulty st :
  (∀ c, difficulties !! difficulty = Some c → fair_from rand (draws st)) →
  ∃ fuel0, ∀ fuel, fuel0 ≤ fuel →
    ∃ st', generatePuzzle fuel rand difficulty st = Ret st'.
Proof.
  intros Hfair.
  destruct (solve_empty_board 82 rand (draws st)) as (g & k1 & E & Hs);
    [lia|].
  destruct (solve_draws _ _ _ _ _ _ _ E) as [n Hk1].
  destruct (store_rows (heap st) g) as [h s] eqn:Hst.
  destruct (store_rows_spec _ _ _ _ Hst) as (_ & Hnd & _ & Hsome & Hgrid).
  assert (rows_ok h s) as Hsol.
  { split_and!; [done..|]. rewrite Hgrid. apply Hs. }
  destruct (copy_rows_spec _ _ Hsol) as (h1 & b & E1 & _ & _ & Hb1 & Hgrid1).
  assert (∃ fuel1, ∀ fuel, fuel1 ≤ fuel →
            ∃ hk, match difficulties !! difficulty with
                  | Some c => removal_loop fuel rand c h1 b 0%Z k1
                  | None => Ret (h1, k1)
                  end = Ret hk) as [fuel1 Hloop].
  { destruct (difficulties !! difficulty) as [c|] eqn:Hc; [|exists 0; eauto].
    destruct (removal_loop_terminates rand c b (Z.to_nat (81 - c - 0)) h1 0%Z
                k1) as (fuel1 & h2 & k2 & Hloop); [|done..| |].
    - subst k1. replace (draws st + 8 * n) with (draws st + 2 * (4 * n))
        by lia. apply fair_from_shift. by apply (Hfair c).
    - rewrite Hgrid1, Hgrid.
      rewrite (count_nonzero_complete _ (solved_complete _ Hs)).
      pose proof (difficulties_range _ _ Hc). lia.
    - exists fuel1. intros fuel Hfuel. exists (h2, k2).
      replace fuel with (fuel1 + (fuel - fuel1)) by lia. apply Hloop. }
  exists (82 + fuel1). intros fuel Hfuel.
  apply (solve_mono rand 82 fuel) in E; [|lia].
  unfold generatePuzzle, generateValidSudoku. rewrite E; cbn [bind].
  rewrite Hst.
  eapply derivePuzzle_total; cbn [heap solution draws]; [done|done|].
  apply Hloop. lia.
Qed.

(** X6: [startNewGame] with one of the six difficulties.  Whenever it
    returns, the game is fresh (no selection, mistakes, points, hints,
    notes or error marks), the solution obeys the rules, the board has
    exactly the number of clues of the difficulty, every clue is the
    solution's digit, and the original board is a separate copy of the
    board.  It does return when the random draws keep hitting every
    cell. *)
Theorem startNewGame_makes_puzzle
    (rand : nat → nat) (difficulty : string) (clues : Z) (st : gameState) :
  difficulties !! difficulty = Some clues →
  (∀ fuel st',
     startNewGame fuel rand difficulty st = Ret st' →
     fresh_game st' ∧ puzzle_of_solution st' ∧
     Z.of_nat (count_nonzero (grid_of (heap st') (board st'))) = clues) ∧
  (fair_from rand (draws st) →
   ∃ fuel0, ∀ fuel, fuel0 ≤ fuel →
     ∃ st', startNewGame fuel rand difficulty st = Ret st').
Proof.
  intros Hclues. split.
  - intros fuel st' Hret.
    destruct (startNewGame_Ret _ _ _ _ _ Hret) as (? & ? & Hcnt).
    rewrite Hclues in Hcnt. done.
  - intros Hfair. unfold startNewGame. apply generatePuzzle_returns.
    intros c _. exact Hfair.
Qed.

Lemma startNewGame_makes_puzzle_witness :
  (∀ fuel st',
     startNewGame fuel cycle_rand "easy" sample_state = Ret st' →
     fresh_game st' ∧ puzzle_of_solution st' ∧
     Z.of_nat (count_nonzero (grid_of (heap st') (board st'))) = 40%Z) ∧
  (∃ fuel0, ∀ fuel, fuel0 ≤ fuel →
     ∃ st', startNewGame fuel cycle_rand "easy" sample_state = Ret st').
Proof.
  destruct (startNewGame_makes_puzzle cycle_rand "easy" 40 sample_state)
    as [Hprops Hends].
  - reflexivity.
  - split; [exact Hprops|]. apply Hends, cycle_rand_fair.
Defined.

(** X7: [generatePuzzle] with a name that is not in the table of
    difficulties removes nothing: it returns (82 levels of recursion are
    enough, whatever the draws) a board that equals the solution, which
    [isPuzzleComplete] takes for a finished puzzle. *)
Theorem generatePuzzle_unknown_difficulty
    (fuel : nat) (rand : nat → nat) (difficulty : string) (st : gameState) :
  difficulties !! difficulty = None → 82 ≤ fuel →
  ∃ st', generatePuzzle fuel rand difficulty st = Ret st' ∧
         grid_of (heap st') (board st') = grid_of (heap st') (solution st') ∧
         count_nonzero (grid_of (heap st') (board st')) = 81 ∧
         isPuzzleComplete st' = Ret true.
Proof.
  intros Hnone Hfuel.
  destruct (generatePuzzle_returns rand difficulty st) as [fuel0 Hret].
  { intros c Hc. congruence. }
  destruct (Hret (fuel `max` fuel0)) as [st' Hst']; [lia|].
  assert (generatePuzzle fuel rand difficulty st = Ret st') as Hgen.
  { unfold generatePuzzle, generateValidSudoku in *.
    destruct (solve_empty_board fuel rand (draws st) Hfuel)
      as (g & k1 & E & _).
    rewrite (solve_mono rand fuel (fuel `max` fuel0) _ _ _ ltac:(lia) E)
      in Hst'.
    rewrite E. cbn [bind] in *.
    destruct (store_rows (heap st) g) as [h s].
    unfold derivePuzzle in *. rewrite Hnone in *. exact Hst'. }
  exists st'. split; [done|].
  destruct (generatePuzzle_Ret _ _ _ _ _ Hgen) as (st0 & Hsol & Hs & Hd).
  destruct (derivePuzzle_Ret _ _ _ _ _ Hsol Hd)
    as (_ & Gs & Hinv & _ & _ & Hcnt).
  rewrite Hnone in Hcnt.
  assert (grid_of (heap st') (board st') = grid_of (heap st') (solution st'))
    as Heq by congruence.
  split_and!; [done| |].
  - rewrite Hcnt. apply count_nonzero_complete. by apply solved_complete.
  - destruct (isPuzzleComplete_spec st' Hinv) as (b & Hb & Hiff).
    rewrite Hb. f_equal. apply Hiff. intros row col _ _. by rewrite Heq.
Qed.

Lemma generatePuzzle_unknown_difficulty_witness :
  ∃ st', generatePuzzle 82 zero_rand "insane" sample_state = Ret st' ∧
         grid_of (heap st') (board st') = grid_of (heap st') (solution st') ∧
         count_nonzero (grid_of (heap st') (board st')) = 81 ∧
         isPuzzleComplete st' = Ret true.
Proof.
  apply (generatePuzzle_unknown_difficulty 82 zero_rand "insane" sample_state).
  - reflexivity.
  - lia.
Defined.

(** ** Entering and erasing, in full *)

Lemma isPuzzleComplete_grids st st' :
  heap st' = heap st → board st' = board st → solution st' = solution st →
  isPuzzleComplete st' = isPuzzleComplete st.
Proof. unfold isPuzzleComplete. by intros -> -> ->. Qed.

(** Everything [enterNumber] does outside note mode. *)
Lemma enterNumber_play st r c v :
  session_inv st → r < 9 → c < 9 → notesMode st = false →
  ∃ st', enterNumber (Some (r, c)) v st = Ret st' ∧ preserved st st' ∧
    board st' = board st ∧
    (∀ p, cell (grid_of (heap st') (board st')) p =
          if decide (p = (r, c)) then Some v
          else cell (grid_of (heap st) (board st)) p) ∧
    cellNotes st' = delete (r, c) (cellNotes st) ∧
    timerStarted st' = true ∧ hintsUsed st' = hintsUsed st ∧
    selectedCell st' = selectedCell st ∧ notesMode st' = false ∧
    draws st' = draws st ∧
    (cell (grid_of (heap st) (solution st)) (r, c) = Some v →
     score st' = score st + 10 ∧ mistakes st' = mistakes st ∧
     errorCells st' = errorCells st ∖ {[(r, c)]} ∧
     ∃ b, isPuzzleComplete st' = Ret b ∧
          completionShown st' = completionShown st || b) ∧
    (cell (grid_of (heap st) (solution st)) (r, c) ≠ Some v →
     score st' = score st ∧ mistakes st' = S (mistakes st) ∧
     errorCells st' = errorCells st ∪ {[(r, c)]}).
Proof.
  intros Hinv Hr Hc Hnotes. cbn [enterNumber]. rewrite Hnotes.
  destruct (board_write st r c v Hinv Hr) as (h' & E & Hw & Hpres).
  rewrite E; cbn [bind].
  set (sol := cell (grid_of (heap st) (solution st)) (r, c)).
  set (wrong := bool_decide (Some v ≠ sol)).
  set (st1 :=
    {| heap := h'; board := board st; solution := solution st;
       originalBoard := originalBoard st;
       selectedCell := selectedCell st;
       mistakes := if wrong then S (mistakes st) else mistakes st;
       score := if wrong then score st else score st + 10;
       timerSeconds := timerSeconds st;
       timerStarted := true; notesMode := false;
       cellNotes := delete (r, c) (cellNotes st);
       errorCells :=
         if wrong then errorCells st ∪ {[(r, c)]}
         else errorCells st ∖ {[(r, c)]};
       hintsUsed := hintsUsed st;
       completionShown := completionShown st;
       draws := draws st |}).
  assert (preserved st st1) as Hst1 by (by apply Hpres).
  pose proof Hst1 as (Hinv1 & _ & _ & Hsolg & _).
  pose proof Hinv1 as (_ & Hs1 & _).
  assert (hread h' (solution st) r c = Ret sol) as Hread.
  { change h' with (heap st1). change (solution st) with (solution st1).
    rewrite (hread_ok _ _ r c Hs1 Hr). by rewrite Hsolg. }
  rewrite Hread; cbn [bind]. fold wrong. fold st1.
  assert (∀ p, cell (grid_of h' (board st)) p =
               if decide (p = (r, c)) then Some v
               else cell (grid_of (heap st) (board st)) p) as Hcells.
  { intros p. apply (cell_write _ _ _ _ _ _ Hw).
    destruct Hinv as ((_ & _ & Hwf) & _). by apply wf_cell. }
  destruct (isPuzzleComplete_spec st1 Hinv1) as (b & Hb & _).
  destruct (decide (sol = Some v)) as [Heq|Hne].
  - assert (wrong = false) as Hwrong
      by (subst wrong; apply bool_decide_eq_false_2; intros H; by apply H).
    rewrite Hwrong. cbn [andb]. rewrite Hb; cbn [bind].
    eexists. split; [done|].
    cbn [heap board solution originalBoard cellNotes timerStarted hintsUsed
         selectedCell notesMode draws score mistakes errorCells
         completionShown].
    subst st1. cbn [heap board solution originalBoard cellNotes timerStarted
         hintsUsed selectedCell notesMode draws score mistakes errorCells
         completionShown]. rewrite Hwrong.
    split_and!; try done.
    intros _. split_and!; [done..|]. exists b. split; [|done].
    rewrite <- Hb. by apply isPuzzleComplete_grids.
  - assert (wrong = true) as Hwrong
      by (subst wrong; apply bool_decide_eq_true_2; congruence).
    assert (∃ st', (if wrong && bool_decide (3 < mistakes st1)
                    then Ret st1
                    else let! complete := isPuzzleComplete st1 in
                         Ret {| heap := heap st1; board := board st1;
                                solution := solution st1;
                                originalBoard := originalBoard st1;
                                selectedCell := selectedCell st1;
                                mistakes := mistakes st1; score := score st1;
                                timerSeconds := timerSeconds st1;
                                timerStarted := timerStarted st1;
                                notesMode := notesMode st1;
                                cellNotes := cellNotes st1;
                                errorCells := errorCells st1;
                                hintsUsed := hintsUsed st1;
                                completionShown := completionShown st1 || complete;
                                draws := draws st1 |}) = Ret st' ∧
                   heap st' = heap st1 ∧ board st' = board st1 ∧
                   solution st' = solution st1 ∧
                   originalBoard st' = originalBoard st1 ∧
                   cellNotes st' = cellNotes st1 ∧
                   timerStarted st' = timerStarted st1 ∧
                   hintsUsed st' = hintsUsed st1 ∧
                   selectedCell st' = selectedCell st1 ∧
                   notesMode st' = notesMode st1 ∧ draws st' = draws st1 ∧
                   score st' = score st1 ∧ mistakes st' = mistakes st1 ∧
                   errorCells st' = errorCells st1)
      as (st' & -> & Eh & Eb & Es & Eo & En & Et & Ehi & Ese & Eno & Ed &
          Esc & Emi & Eer).
    { destruct (wrong && bool_decide (3 < mistakes st1)).
      - exists st1. by split_and!.
      - rewrite Hb; cbn [bind]. eexists. split; [done|]. by split_and!. }
    exists st'. split; [done|].
    assert (preserved st st') as Hpres'.
    { eapply preserved_trans; [exact Hst1|]. by apply same_grids_preserved. }
    rewrite Eb, En, Et, Ehi, Ese, Eno, Ed, Esc, Emi, Eer, Eh.
    subst st1. cbn [heap board solution originalBoard cellNotes timerStarted
         hintsUsed selectedCell notesMode draws score mistakes errorCells
         completionShown] in *. rewrite Hwrong.
    split_and!; done.
Qed.

(** X8: outside note mode [enterNumber] stores the number in the cell
    whatever the cell holds (a given clue and a correct digit included)
    and whether or not the number is right; every other cell of the
    board keeps its value, the notes of the cell are dropped, and the
    timer counts as started. *)
Theorem enterNumber_overwrites_cell
    (st : gameState) (r c : nat) (v : Z) :
  session_inv st → r < 9 → c < 9 → notesMode st = false →
  ∃ st', enterNumber (Some (r, c)) v st = Ret st' ∧
    cell (grid_of (heap st') (board st')) (r, c) = Some v ∧
    (∀ p, p ≠ (r, c) →
          cell (grid_of (heap st') (board st')) p =
          cell (grid_of (heap st) (board st)) p) ∧
    cellNotes st' !! (r, c) = None ∧ timerStarted st' = true.
Proof.
  intros Hinv Hr Hc Hnotes.
  destruct (enterNumber_play st r c v Hinv Hr Hc Hnotes)
    as (st' & E & _ & _ & Hcells & Hn & Ht & _).
  exists st'. split_and!; [done| | |by rewrite Hn, lookup_delete_eq|done].
  - rewrite Hcells. by rewrite decide_True.
  - intros p Hp. rewrite Hcells. by rewrite decide_False.
Qed.

Lemma enterNumber_overwrites_cell_witness :
  cell (grid_of (heap sample_puzzle) (board sample_puzzle)) (0, 6)
  = Some 8%Z ∧
  cell (grid_of (heap sample_puzzle) (originalBoard sample_puzzle)) (0, 6)
  = Some 8%Z ∧
  ∃ st', enterNumber (Some (0, 6)) 3%Z sample_puzzle = Ret st' ∧
    cell (grid_of (heap st') (board st')) (0, 6) = Some 3%Z ∧
    (∀ p, p ≠ (0, 6) →
          cell (grid_of (heap st') (board st')) p =
          cell (grid_of (heap sample_puzzle) (board sample_puzzle)) p) ∧
    cellNotes st' !! (0, 6) = None ∧ timerStarted st' = true.
Proof.
  split; [vm_compute; reflexivity|]. split; [vm_compute; reflexivity|].
  apply (enterNumber_overwrites_cell sample_puzzle 0 6 3).
  - apply sample_puzzle_inv.
  - lia.
  - lia.
  - vm_compute. reflexivity.
Defined.

(** Everything [eraseCell] does. *)
Lemma eraseCell_play st r c :
  session_inv st → r < 9 → c < 9 →
  ∃ st', eraseCell (Some (r, c)) st = Ret st' ∧ preserved st st' ∧
    board st' = board st ∧
    (∀ p, cell (grid_of (heap st') (board st')) p =
          if decide (p = (r, c) ∧
                     cell (grid_of (heap st) (solution st)) (r, c) ≠
                     cell (grid_of (heap st) (board st)) (r, c))
          then Some 0%Z
          else cell (grid_of (heap st) (board st)) p) ∧
    mistakes st' = mistakes st ∧ score st' = score st ∧
    errorCells st' = errorCells st ∧ cellNotes st' = cellNotes st ∧
    hintsUsed st' = hintsUsed st ∧ selectedCell st' = selectedCell st ∧
    notesMode st' = notesMode st ∧ draws st' = draws st ∧
    completionShown st' = completionShown st.
Proof.
  intros Hinv Hr Hc. pose proof Hinv as (Hb & Hs & _). cbn [eraseCell].
  rewrite (hread_ok _ _ r c Hs Hr), (hread_ok _ _ r c Hb Hr). cbn [bind].
  case_decide as Hne.
  - destruct (board_write st r c 0 Hinv Hr) as (h' & E & Hw & Hpres).
    rewrite E; cbn [bind]. eexists. split; [done|].
    cbn [heap board solution originalBoard cellNotes timerStarted hintsUsed
         selectedCell notesMode draws score mistakes errorCells
         completionShown].
    split_and!; try done; [by apply Hpres|].
    intros p. rewrite (cell_write _ _ _ _ _ _ Hw)
      by (destruct Hb as (_ & _ & Hwf); by apply wf_cell).
    destruct (decide (p = (r, c))) as [->|Hp].
    + by rewrite decide_True.
    + rewrite decide_False; [done|]. by intros [? _].
  - exists st. split; [done|].
    split_and!; try done; try (by apply preserved_refl).
    intros p. rewrite decide_False; [done|]. by intros [_ ?].
Qed.

(** X9: a wrong number entered in an empty cell and erased again leaves
    the board as it was, but the mistake stays counted, the cell stays
    marked as an error and no point is given back or taken. *)
Theorem wrong_entry_then_erase
    (st : gameState) (r c : nat) (v : Z) :
  session_inv st → r < 9 → c < 9 → notesMode st = false →
  cell (grid_of (heap st) (board st)) (r, c) = Some 0%Z →
  cell (grid_of (heap st) (solution st)) (r, c) ≠ Some v → v ≠ 0%Z →
  ∃ st1 st2,
    enterNumber (Some (r, c)) v st = Ret st1 ∧
    eraseCell (Some (r, c)) st1 = Ret st2 ∧
    grid_of (heap st2) (board st2) = grid_of (heap st) (board st) ∧
    mistakes st2 = S (mistakes st) ∧ score st2 = score st ∧
    (r, c) ∈ errorCells st2.
Proof.
  intros Hinv Hr Hc Hnotes Hempty Hwrong Hv.
  destruct (enterNumber_play st r c v Hinv Hr Hc Hnotes)
    as (st1 & E1 & (Hinv1 & _ & _ & Gs & _) & _ & Hcells1 & _ & _ & _ & _ &
        _ & _ & _ & Hbad).
  destruct (Hbad Hwrong) as (Hscore & Hmist & Herr).
  destruct (eraseCell_play st1 r c Hinv1 Hr Hc)
    as (st2 & E2 & (Hinv2 & _) & _ & Hcells2 & Hm2 & Hs2 & He2 & _).
  exists st1, st2. split_and!; [done..| | | |].
  - pose proof Hinv as ((_ & _ & Hwf) & _).
    pose proof Hinv2 as ((_ & _ & Hwf2) & _).
    apply list_eq. intros i.
    destruct Hwf as [Hlen Hrows]. destruct Hwf2 as [Hlen2 Hrows2].
    destruct (decide (i < 9)) as [Hi|Hi];
      [|rewrite !lookup_ge_None_2; [done|lia..]].
    destruct (lookup_lt_is_Some_2 (grid_of (heap st2) (board st2)) i)
      as [row2 Hrow2]; [lia|].
    destruct (lookup_lt_is_Some_2 (grid_of (heap st) (board st)) i)
      as [row Hrow]; [lia|].
    rewrite Hrow2, Hrow. f_equal. apply list_eq. intros j.
    specialize (Hcells2 (i, j)). specialize (Hcells1 (i, j)).
    unfold cell in Hcells2 at 1. unfold cell in Hcells1 at 2.
    cbn [fst snd] in *. rewrite Hrow2 in Hcells2. rewrite Hrow in Hcells1.
    rewrite Hcells2. case_decide as Hd.
    + destruct Hd as [[= -> ->] _]. unfold cell in Hempty.
      cbn [fst snd] in Hempty. by rewrite Hrow in Hempty.
    + rewrite Hcells1. case_decide as Heq; [|done].
      injection Heq as -> ->. exfalso. apply Hd. split; [done|].
      rewrite Gs, Hcells1. congruence.
  - congruence.
  - congruence.
  - rewrite He2, Herr. apply elem_of_union. right. by apply elem_of_singleton.
Qed.

Lemma wrong_entry_then_erase_witness :
  ∃ st1 st2,
    enterNumber (Some (0, 0)) 5%Z sample_puzzle = Ret st1 ∧
    eraseCell (Some (0, 0)) st1 = Ret st2 ∧
    grid_of (heap st2) (board st2) =
    grid_of (heap sample_puzzle) (board sample_puzzle) ∧
    mistakes st2 = S (mistakes sample_puzzle) ∧
    score st2 = score sample_puzzle ∧
    (0, 0) ∈ errorCells st2.
Proof.
  apply (wrong_entry_then_erase sample_puzzle 0 0 5).
  - apply sample_puzzle_inv.
  - lia.
  - lia.
  - vm_compute. reflexivity.
  - vm_compute. reflexivity.
  - vm_compute. discriminate.
  - lia.
Defined.

(** ** Hints *)

Lemma empty_cells_filter (h : gmap loc (list Z)) (b : list loc) cells :
  rows_ok h b → Forall (λ p, p.1 < 9 ∧ p.2 < 9) cells →
  empty_cells h b cells =
  Ret (filter (λ p, cell (grid_of h b) p = Some 0%Z) cells).
Proof.
  intros Hb. induction cells as [|[i j] rest IH]; intros Hin; [done|].
  apply Forall_cons in Hin as [[Hi Hj] Hin]. cbn [fst snd] in Hi, Hj.
  cbn [empty_cells]. rewrite (hread_ok h b i j Hb Hi); cbn [bind].
  rewrite (IH Hin); cbn [bind]. rewrite filter_cons.
  by destruct (decide (cell (grid_of h b) (i, j) = Some 0%Z)).
Qed.

(** Everything [giveHint] does. *)
Lemma giveHint_play rand st :
  session_inv st →
  let found := filter (λ p, cell (grid_of (heap st) (board st)) p = Some 0%Z)
                      all_cells in
  ∃ st', giveHint rand st = Ret st' ∧ preserved st st' ∧
    board st' = board st ∧ selectedCell st' = selectedCell st ∧
    notesMode st' = notesMode st ∧ mistakes st' = mistakes st ∧
    cellNotes st' = cellNotes st ∧ errorCells st' = errorCells st ∧
    (maxHints ≤ hintsUsed st ∨ found = [] → st' = st) ∧
    (hintsUsed st < maxHints → found ≠ [] →
     ∃ r c,
       found !! random_below rand (draws st) (length found) = Some (r, c) ∧
       r < 9 ∧ c < 9 ∧
       cell (grid_of (heap st) (board st)) (r, c) = Some 0%Z ∧
       (∀ p, cell (grid_of (heap st') (board st')) p =
             if decide (p = (r, c))
             then cell (grid_of (heap st) (solution st)) (r, c)
             else cell (grid_of (heap st) (board st)) p) ∧
       hintsUsed st' = S (hintsUsed st) ∧ score st' = score st + 5 ∧
       draws st' = S (draws st)).
Proof.
  intros Hinv found. pose proof Hinv as (Hb & Hs & _). unfold giveHint.
  case_decide as Hmax.
  { exists st. split_and!; try done; try (by apply preserved_refl). lia. }
  rewrite (empty_cells_filter _ _ all_cells Hb all_cells_in_grid).
  cbn [bind]. fold found.
  destruct found as [|p rest] eqn:Hfound.
  { exists st. split_and!; try done; by apply preserved_refl. }
  rewrite <- Hfound.
  destruct (lookup_lt_is_Some_2 found
              (random_below rand (draws st) (length found))) as [[r c] Hrc].
  { unfold random_below. apply Nat.mod_upper_bound. rewrite Hfound. simpl. lia. }
  rewrite Hrc.
  assert ((r, c) ∈ found) as Hin by (by eapply list_elem_of_lookup_2).
  apply list_elem_of_filter in Hin as [Hzero [Hr Hc]%elem_of_all_cells].
  rewrite (hread_ok _ _ r c Hs Hr); cbn [bind].
  pose proof Hs as (_ & _ & Hwf).
  destruct (wf_cell _ r c Hwf Hr Hc) as [num Hnum]. rewrite Hnum.
  destruct (board_write st r c num Hinv Hr) as (h' & Ew & Hw & Hpres).
  rewrite Ew; cbn [bind]. eexists. split; [done|].
  cbn [heap board solution originalBoard cellNotes timerStarted hintsUsed
       selectedCell notesMode draws score mistakes errorCells
       completionShown].
  split_and!; try done.
  - by apply Hpres.
  - intros [?|?]; [lia|]. by destruct found.
  - intros _ _. exists r, c. split_and!; try done.
    intros q. rewrite Hnum. apply (cell_write _ _ _ _ _ _ Hw).
    by rewrite Hzero.
Qed.

(** X10: [giveHint] does nothing (and draws no random number) once three
    hints are used or when the board has no empty cell; otherwise it
    copies the solution's digit into exactly one cell that held 0, the
    one the random draw picks among the empty cells in row-major order,
    counts the hint, adds 5 points and leaves every other cell alone. *)
Theorem giveHint_fills_one_empty_cell (rand : nat → nat) (st : gameState) :
  session_inv st →
  let found := filter (λ p, cell (grid_of (heap st) (board st)) p = Some 0%Z)
                      all_cells in
  (maxHints ≤ hintsUsed st ∨ found = [] → giveHint rand st = Ret st) ∧
  (hintsUsed st < maxHints → found ≠ [] →
   ∃ st' r c,
     giveHint rand st = Ret st' ∧
     found !! (rand (draws st) `mod` length found) = Some (r, c) ∧
     cell (grid_of (heap st) (board st)) (r, c) = Some 0%Z ∧
     cell (grid_of (heap st') (board st')) (r, c) =
     cell (grid_of (heap st) (solution st)) (r, c) ∧
     (∀ p, p ≠ (r, c) →
           cell (grid_of (heap st') (board st')) p =
           cell (grid_of (heap st) (board st)) p) ∧
     hintsUsed st' = S (hintsUsed st) ∧ score st' = score st + 5 ∧
     mistakes st' = mistakes st ∧ draws st' = S (draws st)).
Proof.
  intros Hinv found.
  destruct (giveHint_play rand st Hinv)
    as (st' & E & _ & _ & _ & _ & Hm & _ & _ & Hsame & Hhint).
  split.
  - intros H. by rewrite E, (Hsame H).
  - intros Hlt Hne.
    destruct (Hhint Hlt Hne)
      as (r & c & Hpick & _ & _ & Hzero & Hcells & Hh & Hsc & Hd).
    exists st', r, c. split_and!; try done.
    + rewrite Hcells. by rewrite decide_True.
    + intros p Hp. rewrite Hcells. by rewrite decide_False.
Qed.

Lemma giveHint_fills_one_empty_cell_witness :
  (maxHints ≤ hintsUsed sample_puzzle ∨
   filter (λ p, cell (grid_of (heap sample_puzzle) (board sample_puzzle)) p
                = Some 0%Z) all_cells = [] →
   giveHint zero_rand sample_puzzle = Ret sample_puzzle) ∧
  (hintsUsed sample_puzzle < maxHints →
   filter (λ p, cell (grid_of (heap sample_puzzle) (board sample_puzzle)) p
                = Some 0%Z) all_cells ≠ [] →
   ∃ st' r c,
     giveHint zero_rand sample_puzzle = Ret st' ∧
     filter (λ p, cell (grid_of (heap sample_puzzle) (board sample_puzzle)) p
                  = Some 0%Z) all_cells
       !! (zero_rand (draws sample_puzzle) `mod`
           length (filter (λ p, cell (grid_of (heap sample_puzzle)
                                              (board sample_puzzle)) p
                                = Some 0%Z) all_cells)) = Some (r, c) ∧
     cell (grid_of (heap sample_puzzle) (board sample_puzzle)) (r, c)
     = Some 0%Z ∧
     cell (grid_of (heap st') (board st')) (r, c) =
     cell (grid_of (heap sample_puzzle) (solution sample_puzzle)) (r, c) ∧
     (∀ p, p ≠ (r, c) →
           cell (grid_of (heap st') (board st')) p =
           cell (grid_of (heap sample_puzzle) (board sample_puzzle)) p) ∧
     hintsUsed st' = S (hintsUsed sample_puzzle) ∧
     score st' = score sample_puzzle + 5 ∧
     mistakes st' = mistakes sample_puzzle ∧
     draws st' = S (draws sample_puzzle)).
Proof.
  apply (giveHint_fills_one_empty_cell zero_rand sample_puzzle).
  apply sample_puzzle_inv.
Defined.

(** What the other operations do to the fields. *)
Lemma selectCell_play st r c :
  session_inv st → r < 9 → c < 9 →
  ∃ st', selectCell r c st = Ret st' ∧ preserved st st' ∧
    heap st' = heap st ∧ board st' = board st ∧
    hintsUsed st' = hintsUsed st ∧ notesMode st' = notesMode st ∧
    mistakes st' = mistakes st ∧ score st' = score st ∧
    cellNotes st' = cellNotes st ∧
    (selectedCell st' = selectedCell st ∨
     selectedCell st' = Some (r, c) ∧
     ¬ (cell (grid_of (heap st) (solution st)) (r, c) =
        cell (grid_of (heap st) (board st)) (r, c) ∧
        cell (grid_of (heap st) (board st)) (r, c) ≠ Some 0%Z)).
Proof.
  intros Hinv Hr Hc. pose proof Hinv as (Hb & Hs & _). unfold selectCell.
  rewrite (hread_ok _ _ r c Hs Hr), (hread_ok _ _ r c Hb Hr). cbn [bind].
  destruct (bool_decide _ && bool_decide _) eqn:Hgiven.
  - exists st. split_and!; try done; try (by apply preserved_refl). by left.
  - eexists. split; [done|].
    cbn [heap board solution originalBoard cellNotes timerStarted hintsUsed
         selectedCell notesMode draws score mistakes errorCells
         completionShown].
    split_and!; try done; try (by apply same_grids_preserved).
    right. split; [done|]. intros [Heq Hnz].
    apply andb_false_iff in Hgiven as [H|H];
      apply bool_decide_eq_false in H; done.
Qed.

Lemma resetProgress_play st :
  session_inv st →
  ∃ st', resetProgress st = Ret st' ∧ preserved st st' ∧
    grid_of (heap st') (board st') = grid_of (heap st) (originalBoard st) ∧
    selectedCell st' = selectedCell st ∧ hintsUsed st' = hintsUsed st ∧
    notesMode st' = notesMode st ∧ timerStarted st' = timerStarted st ∧
    mistakes st' = 0 ∧ score st' = 0 ∧ timerSeconds st' = 0 ∧
    cellNotes st' = ∅ ∧ errorCells st' = ∅.
Proof.
  intros Hinv. destruct (resetProgress_spec st Hinv) as (st' & E & Hp & Hg & _).
  exists st'. split; [done|]. split; [done|]. split; [done|].
  unfold resetProgress in E.
  destruct (copy_rows (heap st) (originalBoard st)) as [[h b]| |];
    cbn [bind] in E; [|discriminate E..].
  apply Ret_inj in E. by subst st'.
Qed.





(** ** Notes *)

Lemma StronglySorted_filter {A} (R : relation A) (P : A → Prop)
    `{!∀ x, Decision (P x)} (l : list A) :
  StronglySorted R l → StronglySorted R (filter P l).
Proof.
  induction 1 as [|x l Hl IH Hx]; [constructor|].
  rewrite filter_cons. case_decide; [|done]. constructor; [done|].
  rewrite Forall_forall in Hx. apply Forall_forall.
  intros y [_ Hy]%list_elem_of_filter. by apply Hx.
Qed.

Lemma Sorted_filter_le (P : Z → Prop) `{!∀ x, Decision (P x)} (l : list Z) :
  Sorted Z.le l → Sorted Z.le (filter P l).
Proof.
  intros Hl. apply StronglySorted_Sorted, StronglySorted_filter.
  by apply Sorted_StronglySorted; [apply _|].
Qed.

Lemma elem_of_toggle_note notes n m :
  m ∈ toggle_note notes n ↔ if decide (m = n) then n ∉ notes else m ∈ notes.
Proof.
  unfold toggle_note. destruct (decide (n ∈ notes)) as [Hin|Hout].
  - rewrite list_elem_of_filter. case_decide as Hm.
    + subst m. split; [by intros [? _]|done].
    + split; [by intros [_ ?]|done].
  - rewrite merge_sort_Permutation, elem_of_app, list_elem_of_singleton.
    case_decide as Hm.
    + subst m. split; [done|by right].
    + split; [by intros [?|?]|by left].
Qed.

Lemma toggle_note_ok notes n :
  Sorted Z.le notes → NoDup notes →
  Sorted Z.le (toggle_note notes n) ∧ NoDup (toggle_note notes n).
Proof.
  intros Hs Hnd. unfold toggle_note. case_decide as Hin.
  - split; [by apply Sorted_filter_le|by apply NoDup_filter].
  - split; [apply (Sorted_merge_sort Z.le)|].
    rewrite merge_sort_Permutation. apply NoDup_app. split_and!; [done| |].
    + intros x Hx ->%list_elem_of_singleton. done.
    + apply NoDup_singleton.
Qed.

Lemma toggle_note_twice notes n :
  Sorted Z.le notes → NoDup notes →
  toggle_note (toggle_note notes n) n = notes.
Proof.
  intros Hs Hnd. destruct (toggle_note_ok notes n Hs Hnd) as [Hs1 Hnd1].
  destruct (toggle_note_ok _ n Hs1 Hnd1) as [Hs2 Hnd2].
  apply (Sorted_unique Z.le _ _ Hs2 Hs).
  apply (NoDup_Permutation _ _ Hnd2 Hnd). intros m.
  rewrite elem_of_toggle_note. case_decide as Hm; [subst m|].
  - rewrite elem_of_toggle_note, decide_True by done.
    destruct (decide (n ∈ notes)); [|done]. split; [done|]. intros _ Hn.
    by apply Hn.
  - rewrite elem_of_toggle_note. by rewrite decide_False.
Qed.

Lemma notes_of_ok st p :
  notes_inv st → Sorted Z.le (notes_of st p) ∧ NoDup (notes_of st p).
Proof.
  intros Hinv. unfold notes_of.
  destruct (cellNotes st !! p) as [l|] eqn:Hl; cbn [default].
  - by destruct (Hinv p l Hl) as (_ & ? & ?).
  - split; constructor.
Qed.

(** [enterNumber] in note mode. *)
Lemma enterNumber_note st r c n :
  notesMode st = true →
  ∃ st', enterNumber (Some (r, c)) n st = Ret st' ∧
    heap st' = heap st ∧ board st' = board st ∧
    solution st' = solution st ∧ originalBoard st' = originalBoard st ∧
    selectedCell st' = selectedCell st ∧ mistakes st' = mistakes st ∧
    score st' = score st ∧ timerSeconds st' = timerSeconds st ∧
    timerStarted st' = timerStarted st ∧ notesMode st' = true ∧
    errorCells st' = errorCells st ∧ hintsUsed st' = hintsUsed st ∧
    completionShown st' = completionShown st ∧ draws st' = draws st ∧
    notes_of st' (r, c) = toggle_note (notes_of st (r, c)) n ∧
    (∀ q, q ≠ (r, c) → cellNotes st' !! q = cellNotes st !! q) ∧
    (cellNotes st' !! (r, c) = None ↔ toggle_note (notes_of st (r, c)) n = []).
Proof.
  intros Hmode. cbn [enterNumber]. rewrite Hmode. eexists. split; [done|].
  cbn [heap board solution originalBoard cellNotes timerStarted hintsUsed
       selectedCell notesMode draws score mistakes errorCells timerSeconds
       completionShown].
  split_and!; try done.
  - unfold notes_of at 1. cbn [cellNotes]. fold (notes_of st (r, c)).
    case_decide as Hlen.
    + by rewrite lookup_insert_eq.
    + rewrite lookup_delete_eq. cbn [default].
      destruct (toggle_note _ _); [done|simpl in Hlen; lia].
  - intros q Hq. fold (notes_of st (r, c)). case_decide.
    + by rewrite lookup_insert_ne.
    + by rewrite lookup_delete_ne.
  - fold (notes_of st (r, c)). case_decide as Hlen.
    + rewrite lookup_insert_eq. split; [done|]. intros Hnil.
      rewrite Hnil in Hlen. simpl in Hlen. lia.
    + rewrite lookup_delete_eq. split; [|done]. intros _.
      destruct (toggle_note _ _); [done|simpl in Hlen; lia].
Qed.

Lemma gameState_eq (st st' : gameState) :
  heap st' = heap st → board st' = board st → solution st' = solution st →
  originalBoard st' = originalBoard st → selectedCell st' = selectedCell st →
  mistakes st' = mistakes st → score st' = score st →
  timerSeconds st' = timerSeconds st → timerStarted st' = timerStarted st →
  notesMode st' = notesMode st → cellNotes st' = cellNotes st →
  errorCells st' = errorCells st → hintsUsed st' = hintsUsed st →
  completionShown st' = completionShown st → draws st' = draws st →
  st' = st.
Proof. destruct st, st'. cbn. intros. by subst. Qed.

(** X12: in note mode [enterNumber] changes nothing but the notes of the
    cell: it adds the number if it is not noted and removes it if it is
    (no cell of the board, no score, no mistake, no error mark, and the
    timer is not started); entering the same note a second time brings
    the whole state back. *)
Theorem note_toggle_round_trip (st : gameState) (r c : nat) (n : Z) :
  notes_inv st → notesMode st = true →
  ∃ st1,
    enterNumber (Some (r, c)) n st = Ret st1 ∧
    (n ∈ notes_of st1 (r, c) ↔ n ∉ notes_of st (r, c)) ∧
    (∀ m, m ≠ n → m ∈ notes_of st1 (r, c) ↔ m ∈ notes_of st (r, c)) ∧
    heap st1 = heap st ∧ board st1 = board st ∧ score st1 = score st ∧
    mistakes st1 = mistakes st ∧ errorCells st1 = errorCells st ∧
    timerStarted st1 = timerStarted st ∧
    enterNumber (Some (r, c)) n st1 = Ret st.
Proof.
  intros Hinv Hmode.
  destruct (enterNumber_note st r c n Hmode)
    as (st1 & E1 & Eh & Eb & Es & Eo & Esel & Em & Esc & Ets & Et & Emode1 &
        Ee & Ehi & Ecs & Ed & Hn1 & Hother1 & Hnone1).
  destruct (enterNumber_note st1 r c n Emode1)
    as (st2 & E2 & Eh2 & Eb2 & Es2 & Eo2 & Esel2 & Em2 & Esc2 & Ets2 & Et2 &
        Emode2 & Ee2 & Ehi2 & Ecs2 & Ed2 & Hn2 & Hother2 & Hnone2).
  destruct (notes_of_ok st (r, c) Hinv) as [Hsort Hnd].
  rewrite Hn1, (toggle_note_twice _ _ Hsort Hnd) in Hn2.
  rewrite Hn1, (toggle_note_twice _ _ Hsort Hnd) in Hnone2.
  exists st1. split; [done|]. split_and!; try done.
  - rewrite Hn1, elem_of_toggle_note. by rewrite decide_True.
  - intros m Hm. rewrite Hn1, elem_of_toggle_note. by rewrite decide_False.
  - rewrite E2. f_equal. apply gameState_eq; try congruence.
    apply map_eq. intros q. destruct (decide (q = (r, c))) as [->|Hq].
    + unfold notes_of in Hn2, Hnone2.
      destruct (cellNotes st !! (r, c)) as [l|] eqn:Hl;
        cbn [default from_option id] in Hn2, Hnone2.
      * destruct (Hinv _ _ Hl) as (Hne & _).
        destruct (cellNotes st2 !! (r, c)) as [l2|] eqn:Hl2;
          cbn [default from_option id] in Hn2, Hnone2; [by subst|].
        exfalso. apply Hne. by apply Hnone2.
      * by apply Hnone2.
    + by rewrite Hother2, Hother1.
Qed.

Lemma sample_noting_notes : notes_inv sample_noting.
Proof.
  apply map_Forall_singleton. split_and!; [done| |].
  - repeat constructor; lia.
  - apply (bool_decide_unpack _). vm_compute. reflexivity.
Qed.

Lemma note_toggle_round_trip_witness :
  ∃ st1,
    enterNumber (Some (0, 0)) 5%Z sample_noting = Ret st1 ∧
    (5%Z ∈ notes_of st1 (0, 0) ↔ 5%Z ∉ notes_of sample_noting (0, 0)) ∧
    (∀ m, m ≠ 5%Z →
          m ∈ notes_of st1 (0, 0) ↔ m ∈ notes_of sample_noting (0, 0)) ∧
    heap st1 = heap sample_noting ∧ board st1 = board sample_noting ∧
    score st1 = score sample_noting ∧
    mistakes st1 = mistakes sample_noting ∧
    errorCells st1 = errorCells sample_noting ∧
    timerStarted st1 = timerStarted sample_noting ∧
    enterNumber (Some (0, 0)) 5%Z st1 = Ret sample_noting.
Proof.
  apply (note_toggle_round_trip sample_noting 0 0 5).
  - apply sample_noting_notes.
  - reflexivity.
Defined.

Lemma notes_inv_same st st' :
  cellNotes st' = cellNotes st → notes_inv st → notes_inv st'.
Proof. unfold notes_inv. by intros ->. Qed.

Lemma step_notes rand a st st' :
  session_inv st → action_ok a → notes_inv st →
  step rand a st = Ret st' → notes_inv st'.
Proof.
  intros Hinv Hok Hnotes.
  destruct a as [r c|r c v|r c| | |]; cbn [step action_ok] in *.
  - destruct Hok as [Hr Hc].
    destruct (selectCell_play st r c Hinv Hr Hc)
      as (st1 & -> & _ & _ & _ & _ & _ & _ & _ & Hn & _).
    intros <-%Ret_inj. by apply (notes_inv_same st).
  - destruct Hok as [Hr Hc]. destruct (notesMode st) eqn:Hmode.
    + destruct (enterNumber_note st r c v Hmode)
        as (st1 & -> & _ & _ & _ & _ & _ & _ & _ & _ & _ & _ & _ & _ & _ & _ &
            Hn1 & Hother & Hnone).
      intros <-%Ret_inj. intros q l Hl.
      destruct (decide (q = (r, c))) as [->|Hq].
      * destruct (notes_of_ok st (r, c) Hnotes) as [Hs Hnd].
        destruct (toggle_note_ok _ v Hs Hnd) as [Hs1 Hnd1].
        rewrite <- Hn1 in Hs1, Hnd1, Hnone. unfold notes_of in Hs1, Hnd1, Hnone.
        rewrite Hl in Hs1, Hnd1, Hnone.
        cbn [default from_option id] in Hs1, Hnd1, Hnone.
        split_and!; [|done..]. intros Hnil. by apply Hnone in Hnil.
      * rewrite (Hother q Hq) in Hl. by apply (Hnotes q).
    + destruct (enterNumber_play st r c v Hinv Hr Hc Hmode)
        as (st1 & -> & _ & _ & _ & Hn & _).
      intros <-%Ret_inj. unfold notes_inv. rewrite Hn.
      by apply map_Forall_delete.
  - destruct Hok as [Hr Hc].
    destruct (eraseCell_play st r c Hinv Hr Hc)
      as (st1 & -> & _ & _ & _ & _ & _ & _ & Hn & _).
    intros <-%Ret_inj. by apply (notes_inv_same st).
  - destruct (giveHint_play rand st Hinv)
      as (st1 & -> & _ & _ & _ & _ & _ & Hn & _).
    intros <-%Ret_inj. by apply (notes_inv_same st).
  - intros <-%Ret_inj. by apply (notes_inv_same st).
  - destruct (resetProgress_play st Hinv)
      as (st1 & -> & _ & _ & _ & _ & _ & _ & _ & _ & _ & Hn & _).
    intros <-%Ret_inj. unfold notes_inv. rewrite Hn. apply map_Forall_empty.
Qed.

(** X13: through any moves of a game every note list that is stored
    stays non-empty, in ascending order and free of duplicates (a cell
    whose last note is removed loses its entry); in particular this
    holds from a new game on, which starts without notes. *)
Theorem notes_stay_sorted
    (rand : nat → nat) (actions : list action) (st : gameState) :
  session_inv st → notes_inv st → Forall action_ok actions →
  ∃ st', run rand actions st = Ret st' ∧
    ∀ p notes, cellNotes st' !! p = Some notes →
               notes ≠ [] ∧ Sorted Z.le notes ∧ NoDup notes.
Proof.
  intros Hinv Hnotes Hok.
  enough (∃ st', run rand actions st = Ret st' ∧ notes_inv st') as
    (st' & E & Hn) by (exists st'; split; [done|apply Hn]).
  revert st Hinv Hnotes.
  induction actions as [|a rest IH]; intros st Hinv Hnotes.
  - by exists st.
  - apply Forall_cons in Hok as [Ha Hrest].
    destruct (step_spec rand a st Hinv Ha) as (st1 & E1 & Hp1).
    pose proof (step_notes rand a st st1 Hinv Ha Hnotes E1) as Hn1.
    destruct (IH Hrest st1) as (st' & E' & Hn'); [apply Hp1|done|].
    exists st'. cbn [run]. rewrite E1; cbn [bind]. done.
Qed.

Lemma sample_noting_inv : session_inv sample_noting.
Proof.
  apply (same_grids_preserved sample_puzzle sample_noting);
    [apply sample_puzzle_inv|done..].
Qed.

Lemma notes_stay_sorted_witness :
  ∃ st', run zero_rand
           [EnterNumber 0 0 7%Z; EnterNumber 0 0 2%Z; EnterNumber 1 1 4%Z;
            EnterNumber 1 1 4%Z; ToggleNoteMode; EnterNumber 2 2 3%Z]
           sample_noting = Ret st' ∧
    ∀ p notes, cellNotes st' !! p = Some notes →
               notes ≠ [] ∧ Sorted Z.le notes ∧ NoDup notes.
Proof.
  apply (notes_stay_sorted zero_rand
           [EnterNumber 0 0 7%Z; EnterNumber 0 0 2%Z; EnterNumber 1 1 4%Z;
            EnterNumber 1 1 4%Z; ToggleNoteMode; EnterNumber 2 2 3%Z]
           sample_noting).
  - apply sample_noting_inv.
  - apply sample_noting_notes.
  - repeat constructor.
Defined.

(** ** Winning *)

Lemma grid_ext g g' :
  wf_grid g → wf_grid g' →
  (∀ r c, r < 9 → c < 9 → cell g (r, c) = cell g' (r, c)) → g = g'.
Proof.
  intros [Hlen Hrows] [Hlen' Hrows'] Hcells. apply list_eq. intros i.
  destruct (decide (i < 9)) as [Hi|Hi];
    [|rewrite !lookup_ge_None_2; [done|lia..]].
  destruct (lookup_lt_is_Some_2 g i) as [row Hrow]; [lia|].
  destruct (lookup_lt_is_Some_2 g' i) as [row' Hrow']; [lia|].
  rewrite Hrow, Hrow'. f_equal. apply list_eq. intros j.
  rewrite Forall_lookup in Hrows, Hrows'.
  specialize (Hrows _ _ Hrow). specialize (Hrows' _ _ Hrow').
  cbn beta in Hrows, Hrows'.
  destruct (decide (j < 9)) as [Hj|Hj];
    [|rewrite !lookup_ge_None_2; [done|lia..]].
  specialize (Hcells i j Hi Hj). unfold cell in Hcells.
  cbn [fst snd] in Hcells. by rewrite Hrow, Hrow' in Hcells.
Qed.

(** Entering the digits of the solution, from any state of a game whose
    filled cells are all right. *)
Lemma fill_run rand (s : grid) cells :
  Forall (λ p, p.1 < 9 ∧ p.2 < 9) cells →
  ∀ st, session_inv st → notesMode st = false →
    grid_of (heap st) (solution st) = s →
    ∃ st', run rand (fill_moves s cells) st = Ret st' ∧ preserved st st' ∧
      notesMode st' = false ∧
      (∀ p, p.1 < 9 → p.2 < 9 →
            cell (grid_of (heap st') (board st')) p =
            if decide (p ∈ cells) then cell s p
            else cell (grid_of (heap st) (board st)) p) ∧
      mistakes st' = mistakes st ∧
      score st' = score st + 10 * length cells ∧
      (cells ≠ [] → isPuzzleComplete st' = Ret true →
       completionShown st' = true).
Proof.
  induction 1 as [|[r c] cells [Hr Hc] Hcells IH]; intros st Hinv Hmode Hs.
  - exists st. cbn [fill_moves fmap list_fmap run length].
    split_and!; try done; try (by apply preserved_refl); lia.
  - cbn [fst snd] in Hr, Hc. pose proof Hinv as (_ & (_ & _ & Hwf) & _).
    rewrite Hs in Hwf. destruct (wf_cell s r c Hwf Hr Hc) as [v Hv].
    destruct (enterNumber_play st r c v Hinv Hr Hc Hmode)
      as (st1 & E1 & Hp1 & _ & Hcells1 & _ & _ & _ & _ & Hmode1 & _ &
          Hgood & _).
    rewrite Hs in Hgood.
    destruct (Hgood Hv) as (Hsc1 & Hm1 & _ & b & Hb & Hshown1).
    pose proof Hp1 as (Hinv1 & _ & _ & Hs1 & _). rewrite Hs in Hs1.
    destruct (IH st1 Hinv1 Hmode1 Hs1)
      as (st' & E' & Hp' & Hmode' & Hcells' & Hm' & Hsc' & Hshown').
    exists st'. split_and!; try done.
    + cbn [fill_moves fmap list_fmap run step fst snd].
      rewrite Hv. cbn [default from_option id]. rewrite E1; cbn [bind].
      exact E'.
    + by eapply preserved_trans.
    + intros p Hpr Hpc. rewrite (Hcells' p Hpr Hpc), Hcells1.
      destruct (decide (p = (r, c))) as [->|Hne].
      * rewrite (decide_True (P := (r, c) ∈ (r, c) :: cells)) by left.
        by destruct (decide ((r, c) ∈ cells)).
      * destruct (decide (p ∈ cells)) as [Hin|Hout].
        -- by rewrite decide_True by (by right).
        -- rewrite decide_False; [done|].
           by intros [?|?]%elem_of_cons.
    + congruence.
    + rewrite Hsc', Hsc1. cbn [length]. lia.
    + intros _ Hdone. destruct cells as [|q cells'].
      * cbn [fill_moves fmap list_fmap run] in E'. apply Ret_inj in E'.
        subst st'. rewrite Hb in Hdone. apply Ret_inj in Hdone. subst b.
        rewrite Hshown1. apply orb_true_r.
      * by apply Hshown'.
Qed.

(** X14: a game can always be won.  From a puzzle whose filled cells
    agree with the solution, entering the solution's digit (outside note
    mode) in a list of cells that covers the empty ones, in any order,
    makes the board equal to the solution: [isPuzzleComplete] holds, the
    completion popup is shown, no mistake is counted and each entry
    gives 10 points. *)
Theorem solving_completes
    (rand : nat → nat) (st : gameState) (cells : list (nat * nat)) :
  puzzle_of_solution st → notesMode st = false →
  Forall (λ p, p.1 < 9 ∧ p.2 < 9) cells →
  (∀ r c, r < 9 → c < 9 →
          cell (grid_of (heap st) (board st)) (r, c) = Some 0%Z →
          (r, c) ∈ cells) →
  ∃ st',
    run rand (fill_moves (grid_of (heap st) (solution st)) cells) st
    = Ret st' ∧
    grid_of (heap st') (board st') = grid_of (heap st) (solution st) ∧
    isPuzzleComplete st' = Ret true ∧
    (cells ≠ [] → completionShown st' = true) ∧
    mistakes st' = mistakes st ∧
    score st' = score st + 10 * length cells.
Proof.
  intros (Hinv & _ & _ & Hsub & _) Hmode Hcells Hcover.
  destruct (fill_run rand _ cells Hcells st Hinv Hmode eq_refl)
    as (st' & E & Hp & _ & Hboard & Hm & Hsc & Hshown).
  pose proof Hp as (Hinv' & _ & _ & Hs' & _).
  assert (∀ r c, r < 9 → c < 9 →
            cell (grid_of (heap st') (board st')) (r, c) =
            cell (grid_of (heap st') (solution st')) (r, c)) as Hall.
  { intros r c Hr Hc. rewrite Hs', (Hboard (r, c)) by done.
    case_decide as Hin; [done|].
    destruct (Hsub r c Hr Hc) as [Hz|Heq]; [|done].
    exfalso. by apply Hin, Hcover. }
  assert (isPuzzleComplete st' = Ret true) as Hdone.
  { destruct (isPuzzleComplete_spec st' Hinv') as (b & Hb & Hiff).
    rewrite Hb. f_equal. by apply Hiff. }
  exists st'. split_and!; try done.
  - rewrite <- Hs'. pose proof Hinv' as ((_ & _ & ?) & (_ & _ & ?) & _).
    by apply grid_ext.
  - intros Hne. by apply Hshown.
Qed.

Lemma sample_puzzle_of_solution : puzzle_of_solution sample_puzzle.
Proof.
  destruct sample_state_rows_ok as [Hsol Hg].
  destruct (derivePuzzle_Ret _ _ _ _ _ Hsol sample_puzzle_derived)
    as (_ & Gs & Hinv & Hsnap & Hsub & _).
  unfold puzzle_of_solution. rewrite Gs, Hg.
  split_and!; [done|apply solved_valid, sample_solution_solved|
               apply solved_complete, sample_solution_solved| |done].
  intros r c _ _. rewrite <- Hg. apply Hsub.
Qed.

Lemma solving_completes_witness :
  ∃ st',
    run zero_rand
      (fill_moves (grid_of (heap sample_puzzle) (solution sample_puzzle))
         (reverse all_cells)) sample_puzzle = Ret st' ∧
    grid_of (heap st') (board st') =
    grid_of (heap sample_puzzle) (solution sample_puzzle) ∧
    isPuzzleComplete st' = Ret true ∧
    (reverse all_cells ≠ [] → completionShown st' = true) ∧
    mistakes st' = mistakes sample_puzzle ∧
    score st' = score sample_puzzle + 10 * length (reverse all_cells).
Proof.
  apply (solving_completes zero_rand sample_puzzle (reverse all_cells)).
  - apply sample_puzzle_of_solution.
  - vm_compute. reflexivity.
  - apply Forall_forall. intros [r c] Hin%elem_of_reverse.
    by apply elem_of_all_cells.
  - intros r c Hr Hc _. apply elem_of_reverse. by apply elem_of_all_cells.
Defined.

(** ** The handlers and the clues *)








(** ** The number buttons *)

Lemma count_digits_spec (h : gmap loc (list Z)) (b : list loc) cells :
  rows_ok h b → Forall (λ p, p.1 < 9 ∧ p.2 < 9) cells →
  ∀ counts, length counts = 10 →
    ∃ counts', count_digits h b cells counts = Ret counts' ∧
      length counts' = 10 ∧
      ∀ n, 1 ≤ n ≤ 9 →
           counts' !!! n =
           counts !!! n +
           length (filter (λ p, cell (grid_of h b) p = Some (Z.of_nat n))
                          cells).
Proof.
  intros Hb. induction 1 as [|[i j] cells [Hi Hj] Hcells IH];
    intros counts Hlen.
  - exists counts. split_and!; [done..|]. intros n _. cbn. lia.
  - cbn [fst snd] in Hi, Hj. cbn [count_digits].
    rewrite (hread_ok h b i j Hb Hi); cbn [bind].
    pose proof Hb as (_ & _ & Hwf).
    destruct (wf_cell _ i j Hwf Hi Hj) as [val Hval]. rewrite Hval.
    case_bool_decide as Hrange.
    + destruct (IH (<[Z.to_nat val := S (counts !!! Z.to_nat val)]> counts))
        as (counts' & E & Hlen' & Hcount); [by rewrite length_insert|].
      exists counts'. split_and!; [done..|]. intros n Hn.
      rewrite (Hcount n Hn), filter_cons.
      destruct (decide (n = Z.to_nat val)) as [->|Hne].
      * rewrite list_lookup_total_insert_eq by lia.
        rewrite decide_True by (rewrite Hval; f_equal; lia).
        cbn [length]. lia.
      * rewrite list_lookup_total_insert_ne by done.
        rewrite decide_False; [done|]. rewrite Hval. intros [= ->]. lia.
    + destruct (IH counts Hlen) as (counts' & E & Hlen' & Hcount).
      exists counts'. split_and!; [done..|]. intros n Hn.
      rewrite (Hcount n Hn), filter_cons.
      rewrite decide_False; [done|]. rewrite Hval. intros [= ->]. lia.
Qed.

Lemma filter_length_le {A} (P Q : A → Prop)
    `{!∀ x, Decision (P x)} `{!∀ x, Decision (Q x)} (l : list A) :
  (∀ x, x ∈ l → P x → Q x) → length (filter P l) ≤ length (filter Q l).
Proof.
  induction l as [|x l IH]; intros Himp; [done|]. rewrite !filter_cons.
  assert (length (filter P l) ≤ length (filter Q l)) as Hl.
  { apply IH. intros y Hy. apply Himp. by right. }
  destruct (decide (P x)) as [HP|HP].
  - rewrite decide_True by (apply Himp; [left|done]). cbn [length]. lia.
  - destruct (decide (Q x)); cbn [length]; lia.
Qed.

Lemma all_cells_rows :
  all_cells =
  row_cells 0 ++ row_cells 1 ++ row_cells 2 ++ row_cells 3 ++ row_cells 4 ++
  row_cells 5 ++ row_cells 6 ++ row_cells 7 ++ row_cells 8.
Proof. reflexivity. Qed.

Lemma filter_values_length g cells (v : option Z) :
  length (filter (λ p, cell g p = v) cells) =
  length (filter (λ w, w = v) (values g cells)).
Proof.
  unfold values. induction cells as [|p cells IH]; [done|].
  rewrite fmap_cons, !filter_cons.
  destruct (decide (cell g p = v)); cbn [length]; by rewrite IH.
Qed.

Lemma group_count g cells n :
  values g cells ≡ₚ Some <$> digits → (1 ≤ n ≤ 9)%Z →
  length (filter (λ p, cell g p = Some n) cells) = 1.
Proof.
  intros Hperm Hn. rewrite filter_values_length, Hperm.
  assert (n = 1 ∨ n = 2 ∨ n = 3 ∨ n = 4 ∨ n = 5 ∨ n = 6 ∨ n = 7 ∨ n = 8 ∨
          n = 9)%Z as Hcases by lia.
  destruct Hcases as [->|[->|[->|[->|[->|[->|[->|[->| ->]]]]]]]];
    vm_compute; reflexivity.
Qed.

(** Each digit is nine times in a valid solution. *)
Lemma solution_count s n :
  valid_solution s → (1 ≤ n ≤ 9)%Z →
  length (filter (λ p, cell s p = Some n) all_cells) = 9.
Proof.
  intros [_ Hgroups] Hn. rewrite all_cells_rows, !filter_app, !length_app.
  rewrite !(group_count s (row_cells _) n); [done|try done..];
    apply Hgroups; lia.
Qed.

(** X16: on a board whose filled cells agree with a valid solution, the
    button of a number 1..9 is disabled exactly when that number is
    placed in all nine cells where the solution has it; the number that
    belongs in an empty cell can always be clicked. *)
Theorem number_button_disabled_when_placed (st : gameState) (n : nat) :
  session_inv st → valid_solution (grid_of (heap st) (solution st)) →
  (∀ r c, r < 9 → c < 9 →
     cell (grid_of (heap st) (board st)) (r, c) = Some 0%Z ∨
     cell (grid_of (heap st) (board st)) (r, c) =
     cell (grid_of (heap st) (solution st)) (r, c)) →
  1 ≤ n ≤ 9 →
  ∃ disabled,
    updateNumberButtonsState st n = Ret disabled ∧
    (disabled = true ↔
     ∀ r c, r < 9 → c < 9 →
       cell (grid_of (heap st) (solution st)) (r, c) = Some (Z.of_nat n) →
       cell (grid_of (heap st) (board st)) (r, c) = Some (Z.of_nat n)).
Proof.
  intros Hinv Hvalid Hsub Hn. pose proof Hinv as (Hb & _).
  destruct (count_digits_spec _ _ all_cells Hb all_cells_in_grid
              (replicate 10 0)) as (counts & E & _ & Hcount); [done|].
  unfold updateNumberButtonsState. rewrite E; cbn [bind].
  eexists. split; [done|]. rewrite bool_decide_eq_true, (Hcount n Hn).
  assert (replicate 10 0 !!! n = 0) as ->.
  { apply list_lookup_total_correct, lookup_replicate_2. lia. }
  rewrite Nat.add_0_l.
  set (bd := grid_of (heap st) (board st)) in *.
  set (sol := grid_of (heap st) (solution st)) in *.
  pose proof (solution_count sol (Z.of_nat n) Hvalid ltac:(lia)) as Hnine.
  split.
  - intros Hle r c Hr Hc Hs.
    destruct (decide (cell bd (r, c) = Some (Z.of_nat n))) as [|Hmiss];
      [done|]. exfalso.
    pose proof (filter_length_drop_one
                  (λ p, cell sol p = Some (Z.of_nat n))
                  (λ p, cell sol p = Some (Z.of_nat n) ∧ p ≠ (r, c))
                  all_cells (r, c) NoDup_all_cells) as Hdrop.
    rewrite Hnine in Hdrop.
    assert (length (filter (λ p, cell bd p = Some (Z.of_nat n)) all_cells) ≤
            length (filter (λ p, cell sol p = Some (Z.of_nat n) ∧ p ≠ (r, c))
                           all_cells)) as Hle'.
    { apply filter_length_le. intros [i j] [Hi Hj]%elem_of_all_cells Hij.
      split.
      - destruct (Hsub i j Hi Hj) as [Hz|Heq]; [|congruence].
        rewrite Hz in Hij. injection Hij as Hij. lia.
      - intros [= -> ->]. done. }
    assert (9 = S
                  (length (filter (λ p, cell sol p = Some (Z.of_nat n) ∧
                                        p ≠ (r, c)) all_cells))) as Height.
    { apply Hdrop.
      - by apply elem_of_all_cells.
      - done.
      - by intros [_ ?].
      - intros x Hx. split; [by intros ?|by intros [? _]]. }
    lia.
  - intros Hall. rewrite <- Hnine. apply Nat.eq_le_incl.
    apply filter_length_agree.
    intros [i j] [Hi Hj]%elem_of_all_cells. split; [by apply Hall|].
    intros Hij. destruct (Hsub i j Hi Hj) as [Hz|Heq]; [|congruence].
    rewrite Hz in Hij. injection Hij as Hij. lia.
Qed.

Lemma number_button_disabled_when_placed_witness :
  ∃ disabled,
    updateNumberButtonsState sample_puzzle 5 = Ret disabled ∧
    (disabled = true ↔
     ∀ r c, r < 9 → c < 9 →
       cell (grid_of (heap sample_puzzle) (solution sample_puzzle)) (r, c)
       = Some (Z.of_nat 5) →
       cell (grid_of (heap sample_puzzle) (board sample_puzzle)) (r, c)
       = Some (Z.of_nat 5)).
Proof.
  apply (number_button_disabled_when_placed sample_puzzle 5).
  - apply sample_puzzle_inv.
  - destruct sample_puzzle_of_solution as (_ & Hvalid & _). exact Hvalid.
  - destruct sample_puzzle_of_solution as (_ & _ & _ & Hsub & _). exact Hsub.
  - lia.
Defined.

(** ** Cells that hold the right digit *)




